(** * FLANN serialization archives (serialization.h / serialization.cpp)

    A shallow embedding of the type-driven serialization layer of FLANN and
    of its LZ4 block codec: [SizeArchive], [SaveArchive] and [LoadArchive].

    Platform assumptions (the code stores every field in native byte order
    and uses [sizeof]): LP64, little endian; [size_t] and pointers are
    8 bytes, [int] and enums are 4 bytes, so
    [sizeof(IndexHeaderStruct) = 24 + 16 + 4 + 4 + 8 + 8 + 8 + 8 = 80]. *)

From Stdlib.Strings Require Import String.
From Stdlib Require Import ZArith List Bool Lia.
From Stdlib.Strings Require Import Byte.
Import ListNotations.
Local Open Scope Z_scope.

(** ** Bytes and fixed-width integers *)

Definition byte_of_Z (z : Z) : byte :=
  match Byte.of_N (Z.to_N (z mod 256)) with
  | Some b => b
  | None => x00
  end.

Definition Z_of_byte (b : byte) : Z := Z.of_N (Byte.to_N b).

(** Little-endian object representation of an unsigned integer of [n] bytes
    (what [memcpy (dst, &val, sizeof val)] copies out of an integer). *)
Fixpoint le_encode (n : nat) (z : Z) : list byte :=
  match n with
  | O => []
  | S k => byte_of_Z z :: le_encode k (z / 256)
  end.

Fixpoint le_decode (l : list byte) : Z :=
  match l with
  | [] => 0
  | b :: t => Z_of_byte b + 256 * le_decode t
  end.

Definition len {A} (l : list A) : Z := Z.of_nat (length l).

(** [size_t]: 64 bits, wrap-around written out. *)
Definition SIZE_MAX1 : Z := 2 ^ 64.
Definition wrap64 (z : Z) : Z := z mod SIZE_MAX1.
Definition sizeof_size_t : Z := 8.
Definition sizeof_int : Z := 4.
Definition sizeof_ptr : Z := 8.
Definition size_t_bytes (z : Z) : list byte := le_encode 8 z.

(** [int]: 32 bits two's complement. *)
Definition int_bytes (z : Z) : list byte := le_encode 4 z.
Definition int_of_bytes (l : list byte) : Z :=
  let u := le_decode l in if u <? 2 ^ 31 then u else u - 2 ^ 32.

(** Conversion of a [size_t] to [int], which is what happens to a size
    given to an LZ4 function: the low 32 bits, two's complement. *)
Definition int_of_size_t (z : Z) : Z :=
  let u := z mod 2 ^ 32 in if u <? 2 ^ 31 then u else u - 2 ^ 32.

(** [memcpy] out of a buffer: [n] bytes starting at offset [off]. *)
Definition slice (off n : Z) (l : list byte) : list byte :=
  firstn (Z.to_nat n) (skipn (Z.to_nat off) l).

(** [memcpy (buf + off, src, n)] on a buffer of which only the first [off]
    bytes are meaningful: the bytes before [off] are kept, [src] follows. *)
Definition memcpy_at (buf : list byte) (off : Z) (src : list byte) : list byte :=
  firstn (Z.to_nat off) buf ++ src.

(** ** Outcomes

    Every [throw FLANNException(msg)] is modelled by [Throw msg]; a failed
    [assert (c)] by [AssertFailed c]; [Undefined] marks executions the C++ code
    does not define (reading bytes that were never stored, writing through
    a null pointer, overflowing a buffer). *)

Inductive failure :=
| Throw (msg : String.string)
| AssertFailed (condition : string)
| Undefined.

Inductive result (A : Type) :=
| Ok (a : A)
| Fail (f : failure).
Arguments Throw msg%_string.
Arguments AssertFailed condition%_string.
Arguments Ok {A} a.
Arguments Fail {A} f.

Definition bind {A B} (r : result A) (k : A -> result B) : result B :=
  match r with
  | Ok a => k a
  | Fail f => Fail f
  end.

Notation "x <- e ;; k" := (bind e (fun x => k))
  (at level 61, e at next level, right associativity).
Notation "' p <- e ;; k" := (bind e (fun x => let p := x in k))
  (at level 61, p pattern, e at next level, right associativity).

Definition is_ok {A} (r : result A) : bool :=
  match r with Ok _ => true | Fail _ => false end.

(** ** Constants *)

Definition BLOCK_BYTES : Z := 1024 * 64.

(** From lz4.h (external): [LZ4_MAX_INPUT_SIZE] is [0x7E000000] and
    [LZ4_COMPRESSBOUND(isize)] is
    [(unsigned)(isize) > LZ4_MAX_INPUT_SIZE ? 0 : (isize) + ((isize)/255) + 16]. *)
Definition LZ4_MAX_INPUT_SIZE : Z := 2113929216.
Definition LZ4_COMPRESSBOUND (isize : Z) : Z :=
  if isize >? LZ4_MAX_INPUT_SIZE then 0 else isize + isize / 255 + 16.

(** ** IndexHeaderStruct

    The header is handled by the codec as raw bytes that are reinterpreted
    ([(IndexHeaderStruct * ) buffer_]); the accessors below follow the field
    layout of the struct. *)

Definition headSz : Z := 80.

Definition off_signature : Z := 0.
Definition off_version : Z := 24.
Definition off_data_type : Z := 40.
Definition off_index_type : Z := 44.
Definition off_rows : Z := 48.
Definition off_cols : Z := 56.
Definition off_compression : Z := 64.
Definition off_first_block_size : Z := 72.

Definition head_signature (h : list byte) : list byte := slice off_signature 24 h.
Definition head_version (h : list byte) : list byte := slice off_version 16 h.
Definition head_compression (h : list byte) : Z := le_decode (slice off_compression 8 h).
Definition head_first_block_size (h : list byte) : Z :=
  le_decode (slice off_first_block_size 8 h).

(** Store into a [size_t] field at offset [off] of the struct. *)
Definition set_field (off : Z) (v : Z) (h : list byte) : list byte :=
  firstn (Z.to_nat off) h ++ size_t_bytes v ++ skipn (Z.to_nat (off + 8)) h.

Definition set_compression (v : Z) (h : list byte) : list byte :=
  set_field off_compression v h.
Definition set_first_block_size (v : Z) (h : list byte) : list byte :=
  set_field off_first_block_size v h.

(** ** The LZ4 primitives (external library)

    The streaming context ([LZ4_streamHC_t], [LZ4_streamDecode_t]) is
    modelled by the list of blocks that went through it so far: this is
    the history a block may refer to.  A compressor returns the bytes it
    produced (their number is the C return value, [[]] stands for [0]);
    a decompressor returns [None] for a negative return value.

    [LZ4_decompress_safe src capacity] is the one-shot call of the legacy
    decoder, with the source bytes and the capacity as the caller writes
    them: both sizes are [size_t] values there and become the function's
    [int] parameters on the way in.  The caller stores the result in a
    [size_t] without looking at its sign, so the negative value of a
    failed call matters: it is [LZ4_decompress_safe_error src capacity]. *)

Class LZ4 := {
  LZ4_compress_HC_continue : list (list byte) -> list byte -> Z -> list byte;
  LZ4_decompress_safe_continue :
    list (list byte) -> list byte -> Z -> option (list byte);
  LZ4_decompress_safe : list byte -> Z -> option (list byte);
  LZ4_decompress_safe_error : list byte -> Z -> Z
}.

(** The contract of the library used below: output fits the destination
    capacity, compression succeeds whenever the capacity reaches
    [LZ4_COMPRESSBOUND] of the input, the worst case of the block format
    (a single run of literals: one token, the length bytes, the input) stays
    below that bound, and decompression with the same history inverts
    compression. *)
Class LZ4Correct (L : LZ4) := {
  compress_capacity : forall hist src cap,
    0 <= cap -> len (LZ4_compress_HC_continue hist src cap) <= cap;
  compress_succeeds : forall hist src cap,
    LZ4_COMPRESSBOUND (len src) <= cap -> len src <= LZ4_MAX_INPUT_SIZE ->
    LZ4_compress_HC_continue hist src cap <> [];
  compress_worst_case : forall hist src cap,
    len (LZ4_compress_HC_continue hist src cap) <= len src + len src / 255 + 2;
  decompress_compress : forall hist src cap maxOut,
    LZ4_compress_HC_continue hist src cap <> [] ->
    len src <= maxOut ->
    LZ4_decompress_safe_continue hist (LZ4_compress_HC_continue hist src cap) maxOut
    = Some src
}.

(** ** SaveArchive *)

Section Codec.
Context {L : LZ4}.

(** [s_buffer_] holds the bytes stored so far in the active block, that is
    [buffer_[0 .. offset_)]; [s_other_half] tells which half of
    [buffer_blocks_] is active; [s_stream_] is what was written to
    [stream_]; [lz4Stream] is the file-scope compression context. *)
Record SaveArchive := mkSave {
  s_stream_ : list byte;
  s_buffer_ : list byte;
  s_other_half : bool;
  offset_ : Z;
  first_block_ : bool;
  lz4Stream : list (list byte)
}.

(** [SaveArchive::initBlock] ([malloc] is taken to succeed;
    [stream0] is what the stream already holds). *)
Definition Save_initBlock (stream0 : list byte) : SaveArchive :=
  {| s_stream_ := stream0;
     s_buffer_ := [];
     s_other_half := false;
     offset_ := 0;
     first_block_ := true;
     lz4Stream := [] |}.

(** [fwrite (buf, n, 1, stream_)] *)
Definition fwrite (buf : list byte) (n : Z) (stream : list byte) : list byte :=
  stream ++ slice 0 n buf.

(** [SaveArchive::flushBlock].  On the first block the start of the block is
    reinterpreted as the header; [offset_ - headSz] is a [size_t]
    subtraction, and reading more bytes than were stored is undefined. *)
Definition flushBlock (a : SaveArchive) : result SaveArchive :=
  if first_block_ a then
    let srcSz := wrap64 (offset_ a - headSz) in
    if (len (s_buffer_ a) <? headSz) || (len (s_buffer_ a) <? headSz + srcSz)
    then Fail Undefined
    else
      let head := slice 0 headSz (s_buffer_ a) in
      if negb (head_compression head =? 0)
      then Fail (AssertFailed "head->compression == 0")
      else
        let head1 := set_compression 1 head in
        let src := slice headSz srcSz (s_buffer_ a) in
        let comp :=
          LZ4_compress_HC_continue (lz4Stream a) src (LZ4_COMPRESSBOUND BLOCK_BYTES) in
        let compSz := len comp in
        if compSz <=? 0 then Fail (Throw "Error compressing (first block)")
        else
          let head2 := set_first_block_size compSz head1 in
          let compressed_buffer_ := head2 ++ comp in
          let compSz' := compSz + headSz in
          Ok {| s_stream_ := fwrite compressed_buffer_ compSz' (s_stream_ a);
                s_buffer_ := [];
                s_other_half := negb (s_other_half a);
                offset_ := 0;
                first_block_ := false;
                lz4Stream := lz4Stream a ++ [src] |}
  else
    let headSz' := sizeof_size_t in
    if len (s_buffer_ a) <? offset_ a then Fail Undefined
    else
      let src := slice 0 (offset_ a) (s_buffer_ a) in
      let comp :=
        LZ4_compress_HC_continue (lz4Stream a) src (LZ4_COMPRESSBOUND BLOCK_BYTES) in
      let compSz := len comp in
      if compSz <=? 0 then Fail (Throw "Error compressing")
      else
        let compressed_buffer_ := size_t_bytes compSz ++ comp in
        let compSz' := compSz + headSz' in
        Ok {| s_stream_ := fwrite compressed_buffer_ compSz' (s_stream_ a);
              s_buffer_ := [];
              s_other_half := negb (s_other_half a);
              offset_ := 0;
              first_block_ := false;
              lz4Stream := lz4Stream a ++ [src] |}.

(** [SaveArchive::endBlock]: writes a zero [size_t]. *)
Definition Save_endBlock (a : SaveArchive) : SaveArchive :=
  let z := 0 in
  {| s_stream_ := fwrite (size_t_bytes z) sizeof_size_t (s_stream_ a);
     s_buffer_ := [];
     s_other_half := s_other_half a;
     offset_ := offset_ a;
     first_block_ := first_block_ a;
     lz4Stream := lz4Stream a |}.

(** [~SaveArchive]: the bytes of the stream after destruction. *)
Definition Save_close (a : SaveArchive) : result (list byte) :=
  a1 <- flushBlock a ;;
  Ok (s_stream_ (Save_endBlock a1)).

Definition store (a : SaveArchive) (at_ : Z) (src : list byte) (n : Z) : SaveArchive :=
  {| s_stream_ := s_stream_ a;
     s_buffer_ := memcpy_at (s_buffer_ a) at_ src;
     s_other_half := s_other_half a;
     offset_ := offset_ a + n;
     first_block_ := first_block_ a;
     lz4Stream := lz4Stream a |}.

(** [SaveArchive::save (const T &val)]: [val] is the object representation
    of the value, [sizeof (val)] its length. *)
Definition save (val : list byte) (a : SaveArchive) : result SaveArchive :=
  let sz := len val in
  if negb (sz <? BLOCK_BYTES)
  then Fail (AssertFailed "sizeof(val) < BLOCK_BYTES")
  else
    a1 <- (if offset_ a + sz >? BLOCK_BYTES then flushBlock a else Ok a) ;;
    Ok (store a1 (offset_ a1) val sz).

(** [SaveArchive::save (T *const &val)]: pointers are not saved. *)
Definition save_ptr (val : Z) (a : SaveArchive) : result SaveArchive := Ok a.

(** The [while (size > BLOCK_BYTES)] loop of [save_binary]; every turn
    consumes [BLOCK_BYTES] bytes of [ptr], so [length ptr] turns suffice:
    the branch for exhausted fuel is never taken from [save_binary]
    ([save_binary_loop_fuel] below). *)
Fixpoint save_binary_loop (fuel : nat) (ptr : list byte) (a : SaveArchive)
  : result (list byte * SaveArchive) :=
  if len ptr >? BLOCK_BYTES then
    match fuel with
    | O => Fail Undefined
    | S fuel' =>
        a1 <- flushBlock a ;;
        let a2 := store a1 0 (slice 0 BLOCK_BYTES ptr) BLOCK_BYTES in
        save_binary_loop fuel' (skipn (Z.to_nat BLOCK_BYTES) ptr) a2
    end
  else Ok (ptr, a).

(** [SaveArchive::save_binary (ptr, size)], [size = length ptr]. *)
Definition save_binary (ptr : list byte) (a : SaveArchive) : result SaveArchive :=
  ' (rest, a1) <- save_binary_loop (length ptr) ptr a ;;
  let size := len rest in
  a2 <- (if offset_ a1 + size >? BLOCK_BYTES then flushBlock a1 else Ok a1) ;;
  Ok (store a2 (offset_ a2) rest size).

(** ** LoadArchive *)

(** A readable stream: its bytes and the read position. *)
Record FILE := mkFile { f_data : list byte; f_pos : Z }.

Definition ftell (f : FILE) : Z := f_pos f.
Definition fseek_set (f : FILE) (pos : Z) : FILE :=
  {| f_data := f_data f; f_pos := pos |}.
Definition file_end (f : FILE) : Z := len (f_data f).

(** [fread (buf, n, 1, f) == 1] exactly when [n > 0] and [n] more bytes are
    available; a short read leaves the position at the end. *)
Definition fread (n : Z) (f : FILE) : option (list byte) * FILE :=
  if (0 <? n) && (f_pos f + n <=? file_end f)
  then (Some (slice (f_pos f) n (f_data f)), fseek_set f (f_pos f + n))
  else (None, if 0 <? n then fseek_set f (file_end f) else f).

(** [l_buffer_] holds [buffer_[0 .. block_sz_)]; [ptr_] is kept as the
    offset [ptr_ - buffer_]; [buffer_blocks_] tells whether the double
    buffer is allocated (non-null); [compressed_buffer_] is the capacity of
    the staging buffer when it is allocated. *)
Record LoadArchive := mkLoad {
  l_stream_ : FILE;
  l_buffer_ : list byte;
  l_other_half : bool;
  ptr_ : Z;
  block_sz_ : Z;
  buffer_blocks_ : bool;
  compressed_buffer_ : option Z;
  lz4StreamDecode : list (list byte)
}.

Definition with_block (a : LoadArchive) (buf : list byte) (sz : Z) : LoadArchive :=
  {| l_stream_ := l_stream_ a;
     l_buffer_ := buf;
     l_other_half := l_other_half a;
     ptr_ := 0;
     block_sz_ := sz;
     buffer_blocks_ := buffer_blocks_ a;
     compressed_buffer_ := compressed_buffer_ a;
     lz4StreamDecode := lz4StreamDecode a |}.

(** [loadBlock (dst, compSz, stream)]: returns the decompressed bytes (the
    caller's [dst] receives them) and sets [block_sz_]. *)
Definition loadBlock (compSz : Z) (a : LoadArchive)
  : result (list byte * LoadArchive) :=
  if compSz >=? LZ4_COMPRESSBOUND BLOCK_BYTES
  then Fail (Throw "Requested block size too large")
  else
    match compressed_buffer_ a with
    | None => Fail Undefined
    | Some capacity =>
        if capacity <? compSz then Fail Undefined
        else
          match fread compSz (l_stream_ a) with
          | (None, _) =>
              Fail (Throw "Invalid index file, cannot read from disk (block)")
          | (Some comp, f) =>
              match LZ4_decompress_safe_continue (lz4StreamDecode a) comp BLOCK_BYTES with
              | None => Fail (Throw "Invalid index file, cannot decompress block")
              | Some dec =>
                  let decBytes := len dec in
                  if decBytes <=? 0
                  then Fail (Throw "Invalid index file, cannot decompress block")
                  else
                    Ok (dec,
                        {| l_stream_ := f;
                           l_buffer_ := l_buffer_ a;
                           l_other_half := l_other_half a;
                           ptr_ := ptr_ a;
                           block_sz_ := decBytes;
                           buffer_blocks_ := buffer_blocks_ a;
                           compressed_buffer_ := compressed_buffer_ a;
                           lz4StreamDecode := lz4StreamDecode a ++ [dec] |})
              end
          end
    end.

(** [LoadArchive::decompressAndLoadV10], called by [initBlock] after it has
    set [buffer_blocks_] and [compressed_buffer_] to null.  The header is
    read out of the file buffer, which must hold it.

    The [int] result of [LZ4_decompress_safe] is stored in the [size_t]
    [usedSz] and compared with [uncompressedSz]: a negative result is not
    detected as such, it is rejected only if it differs from the expected
    size modulo [2 ^ 64] (with [first_block_size = 79] and a result of
    [-1] both are [2 ^ 64 - 1]).  The destination is
    [malloc (uncompressedSz + headSz)], the sum taken in [size_t]: what
    passes the comparison is defined only if bytes were decoded, and if
    the destination holds them behind the header that [memcpy] puts in
    front.  Both [malloc] calls are taken to succeed: a failed one throws
    its own message, before the file is read or before it is decoded. *)
Definition decompressAndLoadV10 (stream : FILE) : result LoadArchive :=
  let pos := ftell stream in
  let fileSize := wrap64 (file_end stream - pos) in
  match fread fileSize (fseek_set stream pos) with
  | (None, _) =>
      Fail (Throw "Invalid index file, cannot read from disk (compressed)")
  | (Some compBuffer, f) =>
      if fileSize <? headSz then Fail Undefined
      else
        let compressedSz := wrap64 (fileSize - headSz) in
        let uncompressedSz := wrap64 (head_first_block_size compBuffer - headSz) in
        if negb (head_compression compBuffer =? 1)
        then Fail (Throw "Compression type not supported")
        else
          let allocated := wrap64 (uncompressedSz + headSz) in
          let src := slice headSz compressedSz compBuffer in
          let decoded := LZ4_decompress_safe src uncompressedSz in
          let usedSz :=
            wrap64 (match decoded with
                    | Some out => len out
                    | None => LZ4_decompress_safe_error src uncompressedSz
                    end) in
          if negb (usedSz =? uncompressedSz)
          then Fail (Throw "Unexpected decompression size")
          else
            match decoded with
            | None => Fail Undefined
            | Some out =>
                if allocated <? headSz + len out then Fail Undefined
                else
                  let f' :=
                    if negb (wrap64 (compressedSz + headSz + pos) =? fileSize)
                    then fseek_set f (wrap64 (compressedSz + headSz + pos))
                    else f in
                  Ok {| l_stream_ := f';
                        l_buffer_ := slice 0 headSz compBuffer ++ out;
                        l_other_half := false;
                        ptr_ := 0;
                        block_sz_ := wrap64 (uncompressedSz + headSz);
                        buffer_blocks_ := false;
                        compressed_buffer_ := None;
                        lz4StreamDecode := [] |}
            end
  end.

Definition char_1 : byte := x31.
Definition char_0 : byte := x30.

(** The backward-compatibility test of [initBlock]:
    [head->signature[13] == '1' && head->signature[15] == '0']. *)
Definition is_v10 (head : list byte) : bool :=
  Byte.eqb (nth 13 (head_signature head) x00) char_1
  && Byte.eqb (nth 15 (head_signature head) x00) char_0.

(** [LoadArchive::initBlock] *)
Definition Load_initBlock (stream : FILE) : result LoadArchive :=
  let pos := ftell stream in
  match fread headSz stream with
  | (None, _) =>
      Fail (Throw "Invalid index file, cannot read from disk (header)")
  | (Some head, f) =>
      if is_v10 head then decompressAndLoadV10 (fseek_set f pos)
      else
        let a0 :=
          {| l_stream_ := f;
             l_buffer_ := head;
             l_other_half := false;
             ptr_ := 0;
             block_sz_ := 0;
             buffer_blocks_ := true;
             compressed_buffer_ := Some (LZ4_COMPRESSBOUND BLOCK_BYTES);
             lz4StreamDecode := [] |} in
        ' (dec, a1) <- loadBlock (head_first_block_size head) a0 ;;
        Ok (with_block a1 (head ++ dec) (block_sz_ a1 + headSz))
  end.

(** [LoadArchive::preparePtr] *)
Definition preparePtr (size : Z) (a : LoadArchive) : result LoadArchive :=
  if ptr_ a + size <=? block_sz_ a then Ok a
  else
    let other := if buffer_blocks_ a then negb (l_other_half a) else false in
    let '(r, f) := fread sizeof_size_t (l_stream_ a) in
    let cmpSz := match r with Some b => le_decode b | None => 0 end in
    let readCnt := match r with Some _ => 1 | None => 0 end in
    if (cmpSz <=? 0) || negb (readCnt =? 1)
    then Fail (Throw "Requested to read next block past end of file")
    else
      let a0 :=
        {| l_stream_ := f;
           l_buffer_ := l_buffer_ a;
           l_other_half := other;
           ptr_ := ptr_ a;
           block_sz_ := block_sz_ a;
           buffer_blocks_ := buffer_blocks_ a;
           compressed_buffer_ := compressed_buffer_ a;
           lz4StreamDecode := lz4StreamDecode a |} in
      ' (dec, a1) <- loadBlock cmpSz a0 ;;
      Ok (with_block a1 dec (block_sz_ a1)).

(** [memcpy (dst, ptr_, n); ptr_ += n]: the block must hold the bytes. *)
Definition fetch (n : Z) (a : LoadArchive) : result (list byte * LoadArchive) :=
  if block_sz_ a <? ptr_ a + n then Fail Undefined
  else
    Ok (slice (ptr_ a) n (l_buffer_ a),
        {| l_stream_ := l_stream_ a;
           l_buffer_ := l_buffer_ a;
           l_other_half := l_other_half a;
           ptr_ := ptr_ a + n;
           block_sz_ := block_sz_ a;
           buffer_blocks_ := buffer_blocks_ a;
           compressed_buffer_ := compressed_buffer_ a;
           lz4StreamDecode := lz4StreamDecode a |}).

(** [LoadArchive::load (T &val)] with [sizeof (val) = n]. *)
Definition load (n : Z) (a : LoadArchive) : result (list byte * LoadArchive) :=
  a1 <- preparePtr n a ;;
  fetch n a1.

(** [LoadArchive::load (T *&val)]: pointers are not loaded. *)
Definition load_ptr (val : Z) (a : LoadArchive) : result (Z * LoadArchive) :=
  Ok (val, a).

(** The [while (size > BLOCK_BYTES)] loop of [load_binary]; [acc] is what
    was copied to the destination so far.  [size] turns suffice
    ([load_binary_loop_fuel] below). *)
Fixpoint load_binary_loop (fuel : nat) (size : Z) (acc : list byte) (a : LoadArchive)
  : result (Z * list byte * LoadArchive) :=
  if size >? BLOCK_BYTES then
    match fuel with
    | O => Fail Undefined
    | S fuel' =>
        a1 <- preparePtr BLOCK_BYTES a ;;
        ' (chunk, a2) <- fetch BLOCK_BYTES a1 ;;
        load_binary_loop fuel' (size - BLOCK_BYTES) (acc ++ chunk) a2
    end
  else Ok (size, acc, a).

(** [LoadArchive::load_binary (ptr, size)] *)
Definition load_binary (size : Z) (a : LoadArchive) : result (list byte * LoadArchive) :=
  ' (rest, acc, a1) <- load_binary_loop (Z.to_nat size) size [] a ;;
  a2 <- preparePtr rest a1 ;;
  ' (tail, a3) <- fetch rest a2 ;;
  Ok (acc ++ tail, a3).

(** [LoadArchive::endBlock] *)
Definition Load_endBlock (a : LoadArchive) : result LoadArchive :=
  let release f :=
    {| l_stream_ := f;
       l_buffer_ := l_buffer_ a;
       l_other_half := l_other_half a;
       ptr_ := 0;
       block_sz_ := block_sz_ a;
       buffer_blocks_ := false;
       compressed_buffer_ := None;
       lz4StreamDecode := lz4StreamDecode a |} in
  if buffer_blocks_ a then
    match fread sizeof_size_t (l_stream_ a) with
    | (None, _) => Fail (Throw "Invalid index file, cannot read from disk (end)")
    | (Some zero, f) =>
        if negb (le_decode zero =? 0)
        then Fail (Throw "Invalid index file, last block not zero length")
        else Ok (release f)
    end
  else Ok (release (l_stream_ a)).

End Codec.

(** ** SizeArchive *)

Record SizeArchive := mkSize { size_ : Z }.

Definition SizeArchive_new : SizeArchive := {| size_ := 0 |}.

(** [template <typename T> void save (const T &val) { size_ += sizeof (val); }]
    is the only [save] of the class: it also receives pointers. *)
Definition Size_save (sizeof_val : Z) (a : SizeArchive) : SizeArchive :=
  {| size_ := wrap64 (size_ a + sizeof_val) |}.

Definition Size_save_binary (size : Z) (a : SizeArchive) : SizeArchive :=
  {| size_ := wrap64 (size_ a + size) |}.

(** ** Type dispatch: [Serializer<T>] and [operator&]

    [ty] lists the types that have a [Serializer]; [value] is what a
    variable of such a type holds.  A basic type or an array [T[N]] is its
    object representation ([sizeof] bytes); a user-defined type is the list
    of fields its [serialize] method visits. *)

Unset Elimination Schemes.

Inductive ty :=
| TScalar (size : Z)
| TEnum
| TVector (t : ty)
| TMap (k v : ty)
| TPointer
| TBinary
| TStruct (fields : list ty).

Inductive value :=
| VScalar (bytes : list byte)
| VEnum (n : Z)
| VVector (elems : list value)
| VMap (entries : list (value * value))
| VPointer (p : Z)
| VBinary (bytes : list byte)
| VStruct (fields : list value).

Set Elimination Schemes.

(** Induction principles that reach below the nested lists. *)
Section ValueInd.
Variable P : value -> Prop.
Hypothesis Hscalar : forall bytes, P (VScalar bytes).
Hypothesis Henum : forall n, P (VEnum n).
Hypothesis Hvector : forall elems, Forall P elems -> P (VVector elems).
Hypothesis Hmap : forall entries,
  Forall (fun e => P (fst e) /\ P (snd e)) entries -> P (VMap entries).
Hypothesis Hpointer : forall p, P (VPointer p).
Hypothesis Hbinary : forall bytes, P (VBinary bytes).
Hypothesis Hstruct : forall fields, Forall P fields -> P (VStruct fields).

Fixpoint value_ind (v : value) : P v :=
  match v with
  | VScalar bytes => Hscalar bytes
  | VEnum n => Henum n
  | VVector elems =>
      Hvector elems
        ((fix all (l : list value) : Forall P l :=
            match l with
            | [] => Forall_nil P
            | x :: l' => Forall_cons x (value_ind x) (all l')
            end) elems)
  | VMap entries =>
      Hmap entries
        ((fix all (l : list (value * value))
            : Forall (fun e => P (fst e) /\ P (snd e)) l :=
            match l with
            | [] => Forall_nil _
            | (k, x) :: l' =>
                Forall_cons (k, x) (conj (value_ind k) (value_ind x)) (all l')
            end) entries)
  | VPointer p => Hpointer p
  | VBinary bytes => Hbinary bytes
  | VStruct fields =>
      Hstruct fields
        ((fix all (l : list value) : Forall P l :=
            match l with
            | [] => Forall_nil P
            | x :: l' => Forall_cons x (value_ind x) (all l')
            end) fields)
  end.
End ValueInd.

Section TyInd.
Variable P : ty -> Prop.
Hypothesis Hscalar : forall size, P (TScalar size).
Hypothesis Henum : P TEnum.
Hypothesis Hvector : forall t, P t -> P (TVector t).
Hypothesis Hmap : forall k v, P k -> P v -> P (TMap k v).
Hypothesis Hpointer : P TPointer.
Hypothesis Hbinary : P TBinary.
Hypothesis Hstruct : forall fields, Forall P fields -> P (TStruct fields).

Fixpoint ty_ind (t : ty) : P t :=
  match t with
  | TScalar size => Hscalar size
  | TEnum => Henum
  | TVector t' => Hvector t' (ty_ind t')
  | TMap k v => Hmap k v (ty_ind k) (ty_ind v)
  | TPointer => Hpointer
  | TBinary => Hbinary
  | TStruct fields =>
      Hstruct fields
        ((fix all (l : list ty) : Forall P l :=
            match l with
            | [] => Forall_nil P
            | x :: l' => Forall_cons x (ty_ind x) (all l')
            end) fields)
  end.
End TyInd.

(** What an output archive offers to the serializers: [ar.save (val)] on a
    non-pointer, [ar.save (val)] on a pointer (overload resolution is the
    archive's), [ar.save_binary (ptr, size)]. *)
Class OutputArchive (A : Type) := {
  ar_save : list byte -> A -> result A;
  ar_save_pointer : Z -> A -> result A;
  ar_save_binary : list byte -> A -> result A
}.

#[export] Instance SizeArchive_output : OutputArchive SizeArchive := {
  ar_save val a := Ok (Size_save (len val) a);
  ar_save_pointer val a := Ok (Size_save sizeof_ptr a);
  ar_save_binary ptr a := Ok (Size_save_binary (len ptr) a)
}.

#[export] Instance SaveArchive_output {L : LZ4} : OutputArchive SaveArchive := {
  ar_save := save;
  ar_save_pointer := save_ptr;
  ar_save_binary := save_binary
}.

Section Dispatch.
Context {A : Type} {OA : OutputArchive A}.

(** [ar & val] on an output archive: [Serializer<T>::save]. *)
Fixpoint save_value (v : value) (a : A) : result A :=
  match v with
  | VScalar bytes => ar_save bytes a
  | VEnum n => ar_save (int_bytes n) a
  | VVector elems =>
      a1 <- ar_save (size_t_bytes (len elems)) a ;;
      (fix save_elems (l : list value) (a : A) : result A :=
         match l with
         | [] => Ok a
         | x :: l' => a' <- save_value x a ;; save_elems l' a'
         end) elems a1
  | VMap entries =>
      a1 <- ar_save (size_t_bytes (len entries)) a ;;
      (fix save_entries (l : list (value * value)) (a : A) : result A :=
         match l with
         | [] => Ok a
         | (k, x) :: l' =>
             a' <- save_value k a ;;
             a'' <- save_value x a' ;;
             save_entries l' a''
         end) entries a1
  | VPointer p => ar_save_pointer p a
  | VBinary bytes => ar_save_binary bytes a
  | VStruct fields =>
      (fix save_fields (l : list value) (a : A) : result A :=
         match l with
         | [] => Ok a
         | x :: l' => a' <- save_value x a ;; save_fields l' a'
         end) fields a
  end.

Fixpoint save_values (l : list value) (a : A) : result A :=
  match l with
  | [] => Ok a
  | x :: l' => a' <- save_value x a ;; save_values l' a'
  end.

Fixpoint save_entries (l : list (value * value)) (a : A) : result A :=
  match l with
  | [] => Ok a
  | (k, x) :: l' =>
      a' <- save_value k a ;; a'' <- save_value x a' ;; save_entries l' a''
  end.

End Dispatch.

(** [operator<] of the key types of the maps. *)
Class KeyOrder := { key_lt : value -> value -> bool }.

(** A value-initialised object of type [t] (what [resize] appends to a
    vector; also used for the locals [K key; V value;] of the map loader,
    whose content is overwritten by the load that follows). *)
Fixpoint default_value (t : ty) : value :=
  match t with
  | TScalar size => VScalar (repeat x00 (Z.to_nat size))
  | TEnum => VEnum 0
  | TVector _ => VVector []
  | TMap _ _ => VMap []
  | TPointer => VPointer 0
  | TBinary => VBinary []
  | TStruct fields => VStruct (map default_value fields)
  end.

(** [std::vector::resize] *)
Definition resize (old : list value) (size : Z) (d : value) : list value :=
  firstn (Z.to_nat size) old ++ repeat d (Z.to_nat size - length old).

Section LoadDispatch.
Context {L : LZ4} {K : KeyOrder}.

(** [map_val[key] = value] on a map kept in key order. *)
Fixpoint map_assign (key x : value) (m : list (value * value))
  : list (value * value) :=
  match m with
  | [] => [(key, x)]
  | (k', x') :: m' =>
      if key_lt key k' then (key, x) :: m
      else if key_lt k' key then (k', x') :: map_assign key x m'
      else (k', x) :: m'
  end.

(** [ar & val] on the input archive: [Serializer<T>::load].  [dst] is the
    object the caller passes by reference. *)
Fixpoint load_value (t : ty) (dst : value) (a : LoadArchive)
  : result (value * LoadArchive) :=
  match t with
  | TScalar size =>
      ' (bytes, a1) <- load size a ;; Ok (VScalar bytes, a1)
  | TEnum =>
      ' (bytes, a1) <- load sizeof_int a ;; Ok (VEnum (int_of_bytes bytes), a1)
  | TVector t' =>
      match dst with
      | VVector old =>
          ' (bytes, a1) <- load sizeof_size_t a ;;
          let size := le_decode bytes in
          ' (elems, a2) <-
            (fix load_elems (ds : list value) (a : LoadArchive)
               : result (list value * LoadArchive) :=
               match ds with
               | [] => Ok ([], a)
               | d :: ds' =>
                   ' (x, a') <- load_value t' d a ;;
                   ' (xs, a'') <- load_elems ds' a' ;;
                   Ok (x :: xs, a'')
               end) (resize old size (default_value t')) a1 ;;
          Ok (VVector elems, a2)
      | _ => Fail Undefined
      end
  | TMap tk tv =>
      match dst with
      | VMap old =>
          ' (bytes, a1) <- load sizeof_size_t a ;;
          let size := le_decode bytes in
          ' (m, a2) <-
            (fix load_entries (n : nat) (m : list (value * value)) (a : LoadArchive)
               : result (list (value * value) * LoadArchive) :=
               match n with
               | O => Ok (m, a)
               | S n' =>
                   ' (key, a') <- load_value tk (default_value tk) a ;;
                   ' (x, a'') <- load_value tv (default_value tv) a' ;;
                   load_entries n' (map_assign key x m) a''
               end) (Z.to_nat size) old a1 ;;
          Ok (VMap m, a2)
      | _ => Fail Undefined
      end
  | TPointer =>
      match dst with
      | VPointer p => ' (p', a1) <- load_ptr p a ;; Ok (VPointer p', a1)
      | _ => Fail Undefined
      end
  | TBinary =>
      match dst with
      | VBinary old =>
          ' (bytes, a1) <- load_binary (len old) a ;; Ok (VBinary bytes, a1)
      | _ => Fail Undefined
      end
  | TStruct fields =>
      match dst with
      | VStruct old =>
          ' (xs, a1) <-
            (fix load_fields (ts : list ty) (ds : list value) (a : LoadArchive)
               : result (list value * LoadArchive) :=
               match ts, ds with
               | [], [] => Ok ([], a)
               | t' :: ts', d :: ds' =>
                   ' (x, a') <- load_value t' d a ;;
                   ' (xs, a'') <- load_fields ts' ds' a' ;;
                   Ok (x :: xs, a'')
               | _, _ => Fail Undefined
               end) fields old a ;;
          Ok (VStruct xs, a1)
      | _ => Fail Undefined
      end
  end.

(** The three inner loops, as functions of their own. *)
Fixpoint load_elems (t : ty) (ds : list value) (a : LoadArchive)
  : result (list value * LoadArchive) :=
  match ds with
  | [] => Ok ([], a)
  | d :: ds' =>
      ' (x, a') <- load_value t d a ;;
      ' (xs, a'') <- load_elems t ds' a' ;;
      Ok (x :: xs, a'')
  end.

Fixpoint load_entries (tk tv : ty) (n : nat) (m : list (value * value))
  (a : LoadArchive) : result (list (value * value) * LoadArchive) :=
  match n with
  | O => Ok (m, a)
  | S n' =>
      ' (key, a') <- load_value tk (default_value tk) a ;;
      ' (x, a'') <- load_value tv (default_value tv) a' ;;
      load_entries tk tv n' (map_assign key x m) a''
  end.

Fixpoint load_values (ts : list ty) (ds : list value) (a : LoadArchive)
  : result (list value * LoadArchive) :=
  match ts, ds with
  | [], [] => Ok ([], a)
  | t' :: ts', d :: ds' =>
      ' (x, a') <- load_value t' d a ;;
      ' (xs, a'') <- load_values ts' ds' a' ;;
      Ok (x :: xs, a'')
  | _, _ => Fail Undefined
  end.

End LoadDispatch.

(** ** A reference codec

    Blocks stored behind a one-byte token.  It meets the contract
    [LZ4Correct] and is used to run the archives on concrete inputs.
    The one-shot decoder takes its two sizes as [int]s and returns [-1]
    when it fails. *)

Definition stored_compress (hist : list (list byte)) (src : list byte) (cap : Z)
  : list byte :=
  if len src + 1 <=? cap then x00 :: src else [].

Definition stored_decompress (src : list byte) (maxOut : Z) : option (list byte) :=
  match src with
  | x00 :: t => if len t <=? maxOut then Some t else None
  | _ => None
  end.

#[export] Instance StoredLZ4 : LZ4 := {
  LZ4_compress_HC_continue := stored_compress;
  LZ4_decompress_safe_continue hist := stored_decompress;
  LZ4_decompress_safe src capacity :=
    stored_decompress (slice 0 (int_of_size_t (len src)) src)
      (int_of_size_t capacity);
  LZ4_decompress_safe_error src capacity := -1
}.

(** ** Specifications and sample data used by the statements below *)

(** What the first flush must append to the stream, and what a later flush
    must append. *)
Definition first_flush_framing {L : LZ4} (a a' : SaveArchive) : Prop :=
  let head := slice 0 headSz (s_buffer_ a) in
  let src := slice headSz (wrap64 (offset_ a - headSz)) (s_buffer_ a) in
  let comp :=
    LZ4_compress_HC_continue (lz4Stream a) src (LZ4_COMPRESSBOUND BLOCK_BYTES) in
  let head' := set_first_block_size (len comp) (set_compression 1 head) in
  s_stream_ a' = s_stream_ a ++ head' ++ comp
  /\ len head' = headSz
  /\ head_compression head' = 1
  /\ head_first_block_size head' = len comp
  /\ slice 0 off_compression head' = slice 0 off_compression head
  /\ len (s_stream_ a') = len (s_stream_ a) + (headSz + len comp)
  /\ first_block_ a' = false.

Definition later_flush_framing {L : LZ4} (a a' : SaveArchive) : Prop :=
  let src := slice 0 (offset_ a) (s_buffer_ a) in
  let comp :=
    LZ4_compress_HC_continue (lz4Stream a) src (LZ4_COMPRESSBOUND BLOCK_BYTES) in
  s_stream_ a' = s_stream_ a ++ size_t_bytes (len comp) ++ comp
  /\ len (size_t_bytes (len comp)) = sizeof_size_t
  /\ le_decode (size_t_bytes (len comp)) = len comp
  /\ first_block_ a' = false.

(** A header as [save_header] fills it: signature, version, two enum tags,
    rows, cols, and zero in the two fields the codec patches. *)
Definition pad (n : nat) (l : list byte) : list byte :=
  firstn n (l ++ repeat x00 n).

Definition sample_header (signature version : string) : list byte :=
  pad 24 (list_byte_of_string signature)
  ++ pad 16 (list_byte_of_string version)
  ++ int_bytes 8 ++ int_bytes 1
  ++ size_t_bytes 100 ++ size_t_bytes 3
  ++ size_t_bytes 0 ++ size_t_bytes 0.

Definition header_v11 : list byte := sample_header "FLANN_INDEX_v1.1" "1.9.2".
Definition header_v10 : list byte := sample_header "FLANN_INDEX_v1.0" "1.6.11".

(** A SaveArchive on an empty stream in which [values] were saved after
    the header [h]. *)
Definition saved_after {L : LZ4} (h : list byte) (values : list value)
  : result SaveArchive :=
  a1 <- save h (Save_initBlock []) ;;
  save_values values a1.

(** The same, as a state (the initial state if a save failed). *)
Definition state_after {L : LZ4} (h : list byte) (values : list value) : SaveArchive :=
  match saved_after h values with
  | Ok a => a
  | Fail _ => Save_initBlock []
  end.

Definition flushed {L : LZ4} (a : SaveArchive) : SaveArchive :=
  match flushBlock a with
  | Ok a' => a'
  | Fail _ => a
  end.

(** The resources of the current-format path: the double buffer and the
    staging buffer of [LZ4_COMPRESSBOUND (BLOCK_BYTES)] bytes. *)
Definition current_format (a : LoadArchive) : Prop :=
  buffer_blocks_ a = true
  /\ compressed_buffer_ a = Some (LZ4_COMPRESSBOUND BLOCK_BYTES).

(** A whole save: construct on an empty stream, save the header and the
    values, destroy. *)
Definition save_archive {L : LZ4} (h : list byte) (values : list value)
  : result (list byte) :=
  a <- saved_after h values ;;
  Save_close a.

(** A whole load: construct, load the header and the values, destroy. *)
Definition load_archive {L : LZ4} {K : KeyOrder}
  (f : FILE) (ts : list ty) (ds : list value) : result (list byte * list value) :=
  a <- Load_initBlock f ;;
  ' (h, a1) <- load headSz a ;;
  ' (xs, a2) <- load_values ts ds a1 ;;
  a3 <- Load_endBlock a2 ;;
  Ok (h, xs).

(** Keys compared as unsigned integers (an instance used in examples). *)
Definition unsigned_lt (a b : value) : bool :=
  match a, b with
  | VScalar x, VScalar y => le_decode x <? le_decode y
  | _, _ => false
  end.

#[export] Instance UnsignedKeys : KeyOrder := {| key_lt := unsigned_lt |}.

(** Sample data: a few values after a header, the stream a save produces
    for them, and the archive a load opens on a stream. *)
Definition sample_values : list value :=
  [VScalar [x01; x02]; VVector [VEnum 5; VEnum (-3)]; VBinary [x09];
   VMap [(VScalar [x01], VEnum 7); (VScalar [x02], VEnum 8)]].

Definition sample_types : list ty :=
  [TScalar 2; TVector TEnum; TBinary; TMap (TScalar 1) TEnum].

Definition sample_destinations : list value :=
  [VScalar []; VVector []; VBinary [x00]; VMap []].

Definition stream_of {L : LZ4} (h : list byte) (values : list value) : list byte :=
  match save_archive h values with
  | Ok s => s
  | Fail _ => []
  end.

Definition closed_archive : LoadArchive :=
  {| l_stream_ := mkFile [] 0;
     l_buffer_ := [];
     l_other_half := false;
     ptr_ := 0;
     block_sz_ := 0;
     buffer_blocks_ := false;
     compressed_buffer_ := None;
     lz4StreamDecode := [] |}.

Definition opened {L : LZ4} (s : list byte) : LoadArchive :=
  match Load_initBlock (mkFile s 0) with
  | Ok a => a
  | Fail _ => closed_archive
  end.

(** The current-format branch of [initBlock], for a header [head] already
    read and the stream [f] positioned after it. *)
Definition current_decode_init {L : LZ4} (head : list byte) (f : FILE)
  : result LoadArchive :=
  let a0 :=
    {| l_stream_ := f;
       l_buffer_ := head;
       l_other_half := false;
       ptr_ := 0;
       block_sz_ := 0;
       buffer_blocks_ := true;
       compressed_buffer_ := Some (LZ4_COMPRESSBOUND BLOCK_BYTES);
       lz4StreamDecode := [] |} in
  ' (dec, a1) <- loadBlock (head_first_block_size head) a0 ;;
  Ok (with_block a1 (head ++ dec) (block_sz_ a1 + headSz)).

(** Replace the header at the start of a stream. *)
Definition with_header (s : list byte) (edit : list byte -> list byte) : list byte :=
  edit (firstn 80 s) ++ skipn 80 s.

(** The representation invariant of a SaveArchive once the header is in
    the first block: [offset_] counts the bytes of the active block, stays
    within the block, and a block still to be flushed for the first time
    starts with a header whose compression field is zero. *)
Definition SaveInv (a : SaveArchive) : Prop :=
  offset_ a = len (s_buffer_ a)
  /\ 0 <= offset_ a <= BLOCK_BYTES
  /\ (first_block_ a = true ->
      headSz <= offset_ a
      /\ head_compression (slice 0 headSz (s_buffer_ a)) = 0).

(** The failures that the header precondition rules out. *)
Definition header_failure (f : failure) : Prop :=
  f = Undefined \/ f = AssertFailed "head->compression == 0".

(** [r] keeps [P] and does not fail in one of the ways [Bad]. *)
Definition keeps {A} (P : A -> Prop) (Bad : failure -> Prop) (r : result A) : Prop :=
  match r with
  | Ok a => P a
  | Fail f => ~ Bad f
  end.

(** What a flush compresses, and what it appends to the stream. *)
Definition flush_src (a : SaveArchive) : list byte :=
  if first_block_ a
  then slice headSz (wrap64 (offset_ a - headSz)) (s_buffer_ a)
  else slice 0 (offset_ a) (s_buffer_ a).

Definition flush_comp {L : LZ4} (a : SaveArchive) : list byte :=
  LZ4_compress_HC_continue (lz4Stream a) (flush_src a) (LZ4_COMPRESSBOUND BLOCK_BYTES).

Definition patched_header (head : list byte) (compSz : Z) : list byte :=
  set_first_block_size compSz (set_compression 1 head).

Definition flush_frame {L : LZ4} (a : SaveArchive) : list byte :=
  if first_block_ a
  then patched_header (slice 0 headSz (s_buffer_ a)) (len (flush_comp a)) ++ flush_comp a
  else size_t_bytes (len (flush_comp a)) ++ flush_comp a.

(** Sum of a list of sizes. *)
Definition total (l : list Z) : Z := fold_right Z.add 0 l.

(** The number of bytes the serializers hand to [save] and [save_binary]
    for a value (pointers excluded), and the number of pointer-typed
    fields they visit. *)
Fixpoint encoded_size (v : value) : Z :=
  match v with
  | VScalar bytes => len bytes
  | VEnum _ => sizeof_int
  | VVector elems => sizeof_size_t + total (map encoded_size elems)
  | VMap entries =>
      sizeof_size_t
      + total (map (fun e => encoded_size (fst e) + encoded_size (snd e)) entries)
  | VPointer _ => 0
  | VBinary bytes => len bytes
  | VStruct fields => total (map encoded_size fields)
  end.

Fixpoint pointer_fields (v : value) : Z :=
  match v with
  | VScalar _ | VEnum _ | VBinary _ => 0
  | VVector elems => total (map pointer_fields elems)
  | VMap entries =>
      total (map (fun e => pointer_fields (fst e) + pointer_fields (snd e)) entries)
  | VPointer _ => 1
  | VStruct fields => total (map pointer_fields fields)
  end.

(** The bytes a SaveArchive has copied into its blocks so far: the blocks
    already compressed (the header of the first one is not part of what is
    compressed) and the active block. *)
Definition stored_bytes (a : SaveArchive) : Z :=
  total (map len (lz4Stream a)) + offset_ a
  + (if first_block_ a then 0 else headSz).

(** The running total of a SizeArchive that visits [v]. *)
Definition size_of_value (v : value) : result SizeArchive :=
  save_value v SizeArchive_new.

(** Bytes accounted for a value by an archive that charges [ptrcost] bytes
    for a pointer-typed field. *)
Definition cost (ptrcost : Z) (v : value) : Z :=
  encoded_size v + ptrcost * pointer_fields v.

(** ** The stream as a sequence of framed blocks *)

Section Frames.
Context {L : LZ4}.

(** The frames of the blocks that follow the first one; [hist] is what the
    streaming context has seen before. *)
Fixpoint encode_frames (hist blocks : list (list byte)) : list byte :=
  match blocks with
  | [] => []
  | b :: bs =>
      let c := LZ4_compress_HC_continue hist b (LZ4_COMPRESSBOUND BLOCK_BYTES) in
      size_t_bytes (len c) ++ c ++ encode_frames (hist ++ [b]) bs
  end.

(** The stream written for a header [h] and the payloads [blocks]. *)
Definition stream_of_blocks (h : list byte) (blocks : list (list byte)) : list byte :=
  match blocks with
  | [] => []
  | p0 :: ps =>
      let c0 := LZ4_compress_HC_continue [] p0 (LZ4_COMPRESSBOUND BLOCK_BYTES) in
      patched_header h (len c0) ++ c0 ++ encode_frames [p0] ps
  end.

(** Every block fits a block and was compressed successfully. *)
Fixpoint good_frames (hist blocks : list (list byte)) : Prop :=
  match blocks with
  | [] => True
  | b :: bs =>
      len b <= BLOCK_BYTES
      /\ LZ4_compress_HC_continue hist b (LZ4_COMPRESSBOUND BLOCK_BYTES) <> []
      /\ good_frames (hist ++ [b]) bs
  end.

(** The invariant of a SaveArchive that started with the header [h]. *)
Definition WriterInv (h : list byte) (a : SaveArchive) : Prop :=
  SaveInv a
  /\ len h = headSz
  /\ s_stream_ a = stream_of_blocks h (lz4Stream a)
  /\ good_frames [] (lz4Stream a)
  /\ (first_block_ a = true ->
      lz4Stream a = [] /\ slice 0 headSz (s_buffer_ a) = h)
  /\ (first_block_ a = false -> lz4Stream a <> []).

(** The payloads handed to the compressor by a whole save. *)
Definition payloads (h : list byte) (values : list value) : list (list byte) :=
  match (a <- saved_after h values ;; flushBlock a) with
  | Ok a' => lz4Stream a'
  | Fail _ => []
  end.

End Frames.

(** The blocks of a SaveArchive: those compressed, then the payload of the
    active one. *)
Definition content (a : SaveArchive) : list (list byte) :=
  lz4Stream a ++ [flush_src a].

(** [c2] continues [c1]: the last block of [c1] grows, more blocks follow. *)
Definition extends (c1 c2 : list (list byte)) : Prop :=
  exists init last x rest,
    c1 = init ++ [last] /\ c2 = init ++ (last ++ x) :: rest.

(** The map entries are in strictly increasing key order. *)
Fixpoint sorted_entries {K : KeyOrder} (es : list (value * value)) : Prop :=
  match es with
  | [] => True
  | (k, _) :: es' =>
      Forall (fun e => key_lt k (fst e) = true /\ key_lt (fst e) k = false) es'
      /\ sorted_entries es'
  end.

(** [loads_as t d v]: [v] is a value of type [t] (integers in range, map
    entries sorted) and [d] is an object into which it can be loaded back:
    a fresh map, a blob of the same size, the pointers already in place. *)
Fixpoint loads_as {K : KeyOrder} (t : ty) (d v : value) : Prop :=
  match t with
  | TScalar size =>
      match v with VScalar bytes => len bytes = size | _ => False end
  | TEnum =>
      match v with VEnum n => - 2 ^ 31 <= n < 2 ^ 31 | _ => False end
  | TVector t' =>
      match d, v with
      | VVector old, VVector elems =>
          len elems < SIZE_MAX1
          /\ Forall2 (loads_as t') (resize old (len elems) (default_value t')) elems
      | _, _ => False
      end
  | TMap tk tv =>
      match d, v with
      | VMap [], VMap entries =>
          len entries < SIZE_MAX1
          /\ sorted_entries entries
          /\ Forall (fun e => loads_as tk (default_value tk) (fst e)
                              /\ loads_as tv (default_value tv) (snd e)) entries
      | _, _ => False
      end
  | TPointer =>
      match d, v with VPointer p, VPointer q => p = q | _, _ => False end
  | TBinary =>
      match d, v with
      | VBinary old, VBinary bytes => len old = len bytes
      | _, _ => False
      end
  | TStruct fields =>
      match d, v with
      | VStruct ds, VStruct vs =>
          (fix all (ts : list ty) (ds vs : list value) : Prop :=
             match ts, ds, vs with
             | [], [], [] => True
             | t' :: ts', d' :: ds', v' :: vs' =>
                 loads_as t' d' v' /\ all ts' ds' vs'
             | _, _, _ => False
             end) fields ds vs
      | _, _ => False
      end
  end.

Fixpoint all_load_as {K : KeyOrder} (ts : list ty) (ds vs : list value) : Prop :=
  match ts, ds, vs with
  | [], [], [] => True
  | t' :: ts', d' :: ds', v' :: vs' => loads_as t' d' v' /\ all_load_as ts' ds' vs'
  | _, _, _ => False
  end.

(** A LoadArchive positioned in the stream [s]: [B] is the active block,
    [o] the cursor in it, [hist] the blocks decompressed so far, [rest] the
    blocks that remain in the stream, followed by the sentinel. *)
Definition ReaderAt {L : LZ4} (s : list byte) (r : LoadArchive)
  (hist : list (list byte)) (B : list byte) (o : Z) (rest : list (list byte)) : Prop :=
  l_buffer_ r = B
  /\ block_sz_ r = len B
  /\ ptr_ r = o
  /\ lz4StreamDecode r = hist
  /\ current_format r
  /\ f_data (l_stream_ r) = s
  /\ exists pre,
       s = pre ++ encode_frames hist rest ++ size_t_bytes 0
       /\ f_pos (l_stream_ r) = len pre.

(** The reader [r] stands where the writer [a] stands, in the stream [s]
    of header [h] and payloads [blocks]. *)
Definition At {L : LZ4} (h : list byte) (blocks : list (list byte)) (s : list byte)
  (a : SaveArchive) (r : LoadArchive) : Prop :=
  exists x rest,
    blocks = lz4Stream a ++ (flush_src a ++ x) :: rest
    /\ ReaderAt s r (lz4Stream a ++ [flush_src a ++ x])
         (if first_block_ a
          then patched_header h
                 (len (LZ4_compress_HC_continue [] (flush_src a ++ x)
                         (LZ4_COMPRESSBOUND BLOCK_BYTES)))
               ++ flush_src a ++ x
          else flush_src a ++ x)
         (offset_ a) rest.

(** One step of the writer that stays within the invariant and only
    continues its blocks. *)
Definition grows {L : LZ4} (h : list byte) (a a' : SaveArchive) : Prop :=
  WriterInv h a' /\ extends (content a) (content a').

(** [load]: make the bytes available, then copy them out. *)
Definition read_piece {L : LZ4} (n : Z) (r : LoadArchive)
  : result (list byte * LoadArchive) :=
  a1 <- preparePtr n r ;; fetch n a1.

(** What the simulation between a save and the matching load states for
    one value of type [t]. *)
Definition value_sim_at {L : LZ4} {K : KeyOrder}
  (h : list byte) (blocks : list (list byte)) (s : list byte) (t : ty) : Prop :=
  forall d v a a' r,
    loads_as t d v -> WriterInv h a -> save_value v a = Ok a' ->
    extends (content a') blocks -> At h blocks s a r ->
    exists r', load_value t d r = Ok (v, r') /\ At h blocks s a' r'.

(** The first thing a value hands to the archive is a non-empty piece that
    fits the first block behind the header. *)
Fixpoint first_piece_fits (v : value) : bool :=
  match v with
  | VScalar bytes | VBinary bytes =>
      (0 <? len bytes) && (len bytes <=? BLOCK_BYTES - headSz)
  | VEnum _ | VVector _ | VMap _ => true
  | VPointer _ => false
  | VStruct fields =>
      match fields with
      | [] => false
      | f :: _ => first_piece_fits f
      end
  end.

(** A writer that holds the header and nothing else. *)
Definition header_only (a : SaveArchive) : Prop :=
  SaveInv a /\ lz4Stream a = [] /\ first_block_ a = true /\ offset_ a = headSz.

(** A blob one byte longer than a block. *)
Definition long_blob : value := VBinary (repeat x07 (Z.to_nat (BLOCK_BYTES + 1))).

(** Where a piece of at most one block ends up in the writer [a'] reached
    from [a]: in the active block, contiguous, behind what the block held
    when it fits, at the start of a fresh block after a flush otherwise. *)
Definition placed_in_one_block (a a' : SaveArchive) (bytes : list byte) : Prop :=
  0 <= offset_ a' <= BLOCK_BYTES
  /\ slice (offset_ a' - len bytes) (len bytes) (s_buffer_ a') = bytes
  /\ ((offset_ a + len bytes <= BLOCK_BYTES
       /\ lz4Stream a' = lz4Stream a
       /\ offset_ a' = offset_ a + len bytes)
      \/ (BLOCK_BYTES < offset_ a + len bytes
          /\ lz4Stream a' = lz4Stream a ++ [flush_src a]
          /\ offset_ a' = len bytes)).

(** The reader [r'] reached from [r] stands where the writer [a'] stands
    and has moved on by one block exactly when the writer flushed. *)
Definition reader_follows {L : LZ4} (h : list byte) (blocks : list (list byte))
  (s : list byte) (a a' : SaveArchive) (r r' : LoadArchive) : Prop :=
  At h blocks s a' r'
  /\ ptr_ r = offset_ a
  /\ ptr_ r' = offset_ a'
  /\ length (lz4StreamDecode r')
     = (length (lz4StreamDecode r)
        + (length (lz4Stream a') - length (lz4Stream a)))%nat.

(** The LoadArchive opened on the stream [s] after the header and the
    values of types [ts] were loaded. *)
Definition reader_after {L : LZ4} {K : KeyOrder}
  (s : list byte) (ts : list ty) (ds : list value) : LoadArchive :=
  match (a <- Load_initBlock (mkFile s 0) ;;
         ' (_, a1) <- load headSz a ;;
         ' (_, a2) <- load_values ts ds a1 ;;
         Ok a2) with
  | Ok r => r
  | Fail _ => closed_archive
  end.

(** ** Properties beyond the round trip *)

(** Every object handed to [save (const T &val)] while [v] is visited is
    smaller than a block (the condition of the assertion in [save]). *)
Fixpoint scalars_fit (v : value) : bool :=
  match v with
  | VScalar bytes => len bytes <? BLOCK_BYTES
  | VEnum _ | VPointer _ | VBinary _ => true
  | VVector elems => forallb scalars_fit elems
  | VMap entries =>
      forallb (fun e => scalars_fit (fst e) && scalars_fit (snd e)) entries
  | VStruct fields => forallb scalars_fit fields
  end.

(** The failure of the assertion in [SaveArchive::save]. *)
Definition too_large : failure := AssertFailed "sizeof(val) < BLOCK_BYTES".

(** The outcome of a save on a SaveArchive: success within the invariant
    when [fits], the failed size assertion otherwise. *)
Definition save_outcome (fits : bool) (r : result SaveArchive) : Prop :=
  if fits then exists a', r = Ok a' /\ SaveInv a' else r = Fail too_large.

(** [SaveArchive (FILE *stream)] on a stream that already holds [stream0]:
    the same archive with [stream0] in front of what it wrote. *)
Definition on_stream (stream0 : list byte) (a : SaveArchive) : SaveArchive :=
  {| s_stream_ := stream0 ++ s_stream_ a;
     s_buffer_ := s_buffer_ a;
     s_other_half := s_other_half a;
     offset_ := offset_ a;
     first_block_ := first_block_ a;
     lz4Stream := lz4Stream a |}.

Definition result_map {A B} (f : A -> B) (r : result A) : result B :=
  match r with
  | Ok a => Ok (f a)
  | Fail e => Fail e
  end.

(** A whole save on a stream that already holds [stream0]: construct, save
    the header and the values, destroy. *)
Definition save_archive_on {L : LZ4} (stream0 h : list byte) (values : list value)
  : result (list byte) :=
  a1 <- save h (Save_initBlock stream0) ;;
  an <- save_values values a1 ;;
  Save_close an.

(** A LoadArchive of the legacy path ([decompressAndLoadV10]): the whole
    file was decompressed into [buf], the double buffer is not allocated,
    the stream stands at its end. *)
Definition LegacyAt (buf : list byte) (a : LoadArchive) : Prop :=
  l_buffer_ a = buf
  /\ block_sz_ a = len buf
  /\ 0 <= ptr_ a <= len buf
  /\ buffer_blocks_ a = false
  /\ f_pos (l_stream_ a) = file_end (l_stream_ a).

(** A stream that holds [pre], then a header and compressed bytes, and is
    positioned behind [pre]. *)
Definition file_at (pre head comp : list byte) : FILE :=
  mkFile (pre ++ head ++ comp) (len pre).

Definition past_end : failure :=
  Throw "Requested to read next block past end of file".

(** [map_val[key] = value] for every entry of [entries], in order, on the
    map [old]. *)
Definition assign_all {K : KeyOrder} (entries old : list (value * value))
  : list (value * value) :=
  fold_left (fun m e => map_assign (fst e) (snd e) m) entries old.

(** Two runs of the same operation, on archives related by [RX]: when the
    first succeeds, the second succeeds with a related result or fails in
    one of the ways [Allowed]. *)
Definition rel_result {X} (RX : X -> X -> Prop) (Allowed : failure -> Prop)
  (r r' : result X) : Prop :=
  match r, r' with
  | Ok x, Ok x' => RX x x'
  | Ok _, Fail f => Allowed f
  | Fail _, _ => True
  end.

(** The same value, in related archives. *)
Definition with_value {X} (R : LoadArchive -> LoadArchive -> Prop)
  (p p' : X * LoadArchive) : Prop :=
  fst p = fst p' /\ R (snd p) (snd p').
(** The failures of a load that come from the stream ending too early. *)
Definition io_error (f : failure) : Prop :=
  f = Throw "Invalid index file, cannot read from disk (header)"
  \/ f = Throw "Invalid index file, cannot read from disk (block)"
  \/ f = past_end
  \/ f = Throw "Invalid index file, cannot read from disk (end)".

(** Two LoadArchives in the same state, on streams related by [RF]. *)
Definition same_but_stream (RF : FILE -> FILE -> Prop) (a a' : LoadArchive) : Prop :=
  l_buffer_ a' = l_buffer_ a
  /\ l_other_half a' = l_other_half a
  /\ ptr_ a' = ptr_ a
  /\ block_sz_ a' = block_sz_ a
  /\ buffer_blocks_ a' = buffer_blocks_ a
  /\ compressed_buffer_ a' = compressed_buffer_ a
  /\ lz4StreamDecode a' = lz4StreamDecode a
  /\ RF (l_stream_ a) (l_stream_ a').

(** A whole load that also returns the stream as the destructor leaves it. *)
Definition load_archive_file {L : LZ4} {K : KeyOrder}
  (f : FILE) (ts : list ty) (ds : list value)
  : result (list byte * list value * FILE) :=
  a <- Load_initBlock f ;;
  ' (h, a1) <- load headSz a ;;
  ' (xs, a2) <- load_values ts ds a1 ;;
  a3 <- Load_endBlock a2 ;;
  Ok (h, xs, l_stream_ a3).

(** The same result, with streams related by [RF]. *)
Definition with_file {X} (RF : FILE -> FILE -> Prop) (p p' : X * FILE) : Prop :=
  fst p = fst p' /\ RF (snd p) (snd p').
(** The stream [f'] holds the first [k] bytes of the stream [f]; both are
    read at the same position, which lies within the shorter one. *)
Definition truncated_to (k : nat) (f f' : FILE) : Prop :=
  f_pos f' = f_pos f
  /\ 0 <= f_pos f
  /\ f_pos f' <= file_end f'
  /\ f_data f' = firstn k (f_data f).

(** The stream [f'] holds the bytes of [f] between [pre] and [suf] and is
    read at the corresponding position. *)
Definition embedded_in (pre suf : list byte) (f f' : FILE) : Prop :=
  f_data f' = pre ++ f_data f ++ suf
  /\ f_pos f' = len pre + f_pos f
  /\ 0 <= f_pos f.

(** An output archive that keeps the bytes it is handed, in order (it
    copies nothing for a pointer, like the SaveArchive); it names the
    serialized form of a value. *)
Definition ByteSink : OutputArchive (list byte) := {|
  ar_save := fun val a => Ok (a ++ val);
  ar_save_pointer := fun _ a => Ok a;
  ar_save_binary := fun ptr a => Ok (a ++ ptr)
|}.

(** The bytes a SaveArchive has copied into its blocks so far, the header
    of the first block left out. *)
Definition flat (a : SaveArchive) : list byte := concat (content a).

(** A legacy-path LoadArchive on the buffer [buf] of which [w] is still to
    be read. *)
Definition Remaining (buf : list byte) (r : LoadArchive) (w : list byte) : Prop :=
  LegacyAt buf r /\ skipn (Z.to_nat (ptr_ r)) buf = w.

(** What the loading of a value of type [t] from a legacy-path archive has
    to establish: the bytes that the byte sink receives for the value are
    read back as that value. *)
Definition legacy_sim_at {L : LZ4} {K : KeyOrder} (buf : list byte) (t : ty) : Prop :=
  forall d v s e w r,
    loads_as t d v ->
    save_value (OA := ByteSink) v s = Ok (s ++ e) ->
    Remaining buf r (e ++ w) ->
    exists r', load_value t d r = Ok (v, r') /\ Remaining buf r' w.

(** The serialized bytes of a sequence of values. *)
Definition serialized (vs : list value) : list byte :=
  match save_values (OA := ByteSink) vs [] with
  | Ok bytes => bytes
  | Fail _ => []
  end.

(** A legacy file for the header [h] (compression flag and size filled
    in) and a body, compressed by the reference codec. *)
Definition legacy_header (h body : list byte) : list byte :=
  set_first_block_size (headSz + len body) (set_compression 1 h).

(** The failure of the assertion in the first flush. *)
Definition flag_set : failure := AssertFailed "head->compression == 0".

(** A SaveArchive whose first block starts with a header that carries a
    non-zero compression field and was not flushed yet. *)
Definition FlagSet (a : SaveArchive) : Prop :=
  first_block_ a = true
  /\ offset_ a = len (s_buffer_ a)
  /\ headSz <= offset_ a <= BLOCK_BYTES
  /\ head_compression (slice 0 headSz (s_buffer_ a)) <> 0.

(** A save that either stays in [FlagSet] or stops at the assertion. *)
Definition stops_at_flag (r : result SaveArchive) : Prop :=
  (exists a', r = Ok a' /\ FlagSet a') \/ r = Fail flag_set.

(** [SizeArchive::reset] and [SizeArchive::size] *)
Definition Size_reset (a : SizeArchive) : SizeArchive := {| size_ := 0 |}.
Definition Size_size (a : SizeArchive) : Z := size_ a.

(** The size of the staging buffer that [SaveArchive::initBlock] allocates:
    [LZ4_COMPRESSBOUND (BLOCK_BYTES) + sizeof (size_t)]. *)
Definition staging_capacity : Z := LZ4_COMPRESSBOUND BLOCK_BYTES + sizeof_size_t.

(** Where a blob longer than a block ends up in the writer [a'] reached
    from [a]: the active block of [a] is flushed as it is, the blob is cut
    into blocks of exactly [BLOCK_BYTES] bytes ([full], at least one),
    each flushed in turn, and the remainder [rest], between 1 and
    [BLOCK_BYTES] bytes, is the content of the active block of [a']. *)
Definition cut_into_blocks (a a' : SaveArchive) (bytes : list byte) : Prop :=
  exists full rest,
    bytes = concat full ++ rest
    /\ full <> []
    /\ Forall (fun b => len b = BLOCK_BYTES) full
    /\ 0 < len rest <= BLOCK_BYTES
    /\ lz4Stream a' = lz4Stream a ++ flush_src a :: full
    /\ flush_src a' = rest
    /\ offset_ a' = len rest.

(** The value that [decompressAndLoadV10] compares with the size the
    header announces: the [int] result of [LZ4_decompress_safe] on the
    body, stored in the [size_t] [usedSz]. *)
Definition usedSz {L : LZ4} (comp : list byte) (expected : Z) : Z :=
  wrap64 (match LZ4_decompress_safe comp expected with
          | Some out => len out
          | None => LZ4_decompress_safe_error comp expected
          end).


(** * Proofs *)

(** ** Bytes, lengths and the reference codec *)

Lemma Z_of_byte_range (b : byte) : 0 <= Z_of_byte b < 256.
Proof.
  unfold Z_of_byte. pose proof (Byte.to_N_bounded b) as H.
  split; [apply N2Z.is_nonneg|].
  apply N.le_succ_l in H || idtac. lia.
Qed.

Lemma Z_of_byte_of_Z (z : Z) : Z_of_byte (byte_of_Z z) = z mod 256.
Proof.
  unfold byte_of_Z, Z_of_byte.
  assert (Hm : 0 <= z mod 256 < 256) by (apply Z.mod_pos_bound; lia).
  destruct (Byte.of_N (Z.to_N (z mod 256))) as [b|] eqn:E.
  - apply Byte.to_of_N in E. rewrite E. rewrite Z2N.id; lia.
  - apply Byte.of_N_None_iff in E. lia.
Qed.

Lemma byte_of_Z_of_byte (b : byte) : byte_of_Z (Z_of_byte b) = b.
Proof.
  unfold byte_of_Z, Z_of_byte.
  pose proof (Z_of_byte_range b) as H. unfold Z_of_byte in H.
  rewrite Z.mod_small by lia. rewrite N2Z.id.
  rewrite Byte.of_to_N. reflexivity.
Qed.

Lemma le_encode_length n z : length (le_encode n z) = n.
Proof. revert z; induction n; intros; simpl; auto. Qed.

Lemma le_decode_encode n z : le_decode (le_encode n z) = z mod 256 ^ Z.of_nat n.
Proof.
  revert z; induction n as [|n IH]; intros z.
  - simpl. now rewrite Z.mod_1_r.
  - cbn [le_encode le_decode]. rewrite IH, Z_of_byte_of_Z.
    rewrite Nat2Z.inj_succ, Z.pow_succ_r by lia.
    rewrite Z.rem_mul_r by lia. lia.
Qed.

Lemma le_decode_range l : 0 <= le_decode l < 256 ^ len l.
Proof.
  unfold len. induction l as [|b t IH].
  - simpl. lia.
  - cbn [le_decode length]. rewrite Nat2Z.inj_succ, Z.pow_succ_r by lia.
    pose proof (Z_of_byte_range b). lia.
Qed.

Lemma le_encode_decode l : le_encode (length l) (le_decode l) = l.
Proof.
  induction l as [|b t IH]; [reflexivity|].
  cbn [le_decode length le_encode]. pose proof (Z_of_byte_range b) as Hb.
  f_equal.
  - replace (Z_of_byte b + 256 * le_decode t) with (Z_of_byte b + le_decode t * 256) by lia.
    unfold byte_of_Z. rewrite Z.mod_add by lia. rewrite Z.mod_small by lia.
    fold (byte_of_Z (Z_of_byte b)). unfold Z_of_byte. rewrite N2Z.id.
    now rewrite Byte.of_to_N.
  - replace (Z_of_byte b + 256 * le_decode t) with (Z_of_byte b + le_decode t * 256) by lia.
    rewrite Z.div_add by lia. rewrite Z.div_small by lia. simpl. exact IH.
Qed.

Lemma size_t_bytes_length z : len (size_t_bytes z) = 8.
Proof. unfold len, size_t_bytes. now rewrite le_encode_length. Qed.

Lemma size_t_roundtrip z : 0 <= z < SIZE_MAX1 -> le_decode (size_t_bytes z) = z.
Proof.
  intros H. unfold size_t_bytes. rewrite le_decode_encode.
  change (256 ^ Z.of_nat 8) with SIZE_MAX1. now apply Z.mod_small.
Qed.

Lemma int_roundtrip z : - 2 ^ 31 <= z < 2 ^ 31 -> int_of_bytes (int_bytes z) = z.
Proof.
  intros H. unfold int_of_bytes, int_bytes. rewrite le_decode_encode.
  change (256 ^ Z.of_nat 4) with (2 ^ 32).
  destruct (Z_lt_ge_dec z 0) as [Hn|Hp].
  - replace (z mod 2 ^ 32) with (z + 2 ^ 32).
    + destruct (Z.ltb_spec (z + 2 ^ 32) (2 ^ 31)); lia.
    + symmetry. rewrite <- (Z.mod_add z 1) by lia. apply Z.mod_small. lia.
  - rewrite Z.mod_small by lia. destruct (Z.ltb_spec z (2 ^ 31)); lia.
Qed.

Lemma save_value_vector {A} {OA : OutputArchive A} elems a :
  save_value (VVector elems) a =
  (a1 <- ar_save (size_t_bytes (len elems)) a ;; save_values elems a1).
Proof.
  cbn [save_value]. destruct (ar_save _ a) as [a1|]; [|reflexivity]. cbn [bind].
  revert a1. induction elems as [|x l IH]; intros a1; [reflexivity|].
  cbn [save_values]. destruct (save_value x a1); cbn [bind]; auto.
Qed.

Lemma save_value_map {A} {OA : OutputArchive A} entries a :
  save_value (VMap entries) a =
  (a1 <- ar_save (size_t_bytes (len entries)) a ;; save_entries entries a1).
Proof.
  cbn [save_value]. destruct (ar_save _ a) as [a1|]; [|reflexivity]. cbn [bind].
  revert a1. induction entries as [|[k x] l IH]; intros a1; [reflexivity|].
  cbn [save_entries]. destruct (save_value k a1) as [a'|]; cbn [bind]; [|reflexivity].
  destruct (save_value x a'); cbn [bind]; auto.
Qed.

Lemma save_value_struct {A} {OA : OutputArchive A} fields a :
  save_value (VStruct fields) a = save_values fields a.
Proof.
  cbn [save_value]. revert a. induction fields as [|x l IH]; intros a; [reflexivity|].
  cbn [save_values]. destruct (save_value x a); cbn [bind]; auto.
Qed.

Lemma load_value_vector {L : LZ4} {K : KeyOrder} t old a :
  load_value (TVector t) (VVector old) a =
  (' (bytes, a1) <- load sizeof_size_t a ;;
   ' (elems, a2) <- load_elems t (resize old (le_decode bytes) (default_value t)) a1 ;;
   Ok (VVector elems, a2)).
Proof.
  cbn [load_value]. destruct (load sizeof_size_t a) as [[bytes a1]|]; [|reflexivity].
  cbn [bind].
  generalize (resize old (le_decode bytes) (default_value t)). intros ds.
  match goal with |- bind ?x _ = bind ?y _ => assert (E : x = y) end.
  { revert a1. induction ds as [|d ds IH]; intros a1; [reflexivity|].
    cbn [load_elems]. destruct (load_value t d a1) as [[x a']|]; [|reflexivity].
    cbn [bind]. now rewrite IH. }
  now rewrite E.
Qed.

Lemma load_value_map {L : LZ4} {K : KeyOrder} tk tv old a :
  load_value (TMap tk tv) (VMap old) a =
  (' (bytes, a1) <- load sizeof_size_t a ;;
   ' (m, a2) <- load_entries tk tv (Z.to_nat (le_decode bytes)) old a1 ;;
   Ok (VMap m, a2)).
Proof.
  cbn [load_value]. destruct (load sizeof_size_t a) as [[bytes a1]|]; [|reflexivity].
  cbn [bind].
  generalize (Z.to_nat (le_decode bytes)). intros n.
  match goal with |- bind ?x _ = bind ?y _ => assert (E : x = y) end.
  { revert old a1. induction n as [|n IH]; intros old a1; [reflexivity|].
    cbn [load_entries]. destruct (load_value tk _ a1) as [[key a']|]; [|reflexivity].
    cbn [bind]. destruct (load_value tv _ a') as [[x a'']|]; [|reflexivity].
    cbn [bind]. apply IH. }
  now rewrite E.
Qed.

Lemma load_value_struct {L : LZ4} {K : KeyOrder} fields old a :
  load_value (TStruct fields) (VStruct old) a =
  (' (xs, a1) <- load_values fields old a ;; Ok (VStruct xs, a1)).
Proof.
  cbn [load_value].
  match goal with |- bind ?x _ = bind ?y _ => assert (E : x = y) end.
  { revert old a.
    induction fields as [|t ts IH]; intros old a; destruct old as [|d ds]; try reflexivity.
    all: cbn [load_values]; destruct (load_value t d a) as [[x a']|]; [|reflexivity].
    all: cbn [bind]; now rewrite IH. }
  now rewrite E.
Qed.

Lemma len_nonneg {A} (l : list A) : 0 <= len l.
Proof. unfold len. lia. Qed.

Lemma len_cons {A} (x : A) l : len (x :: l) = len l + 1.
Proof. unfold len. cbn [length]. lia. Qed.

Lemma len_app {A} (l1 l2 : list A) : len (l1 ++ l2) = len l1 + len l2.
Proof. unfold len. rewrite length_app. lia. Qed.

Lemma len_nil {A} : len (@nil A) = 0.
Proof. reflexivity. Qed.

Lemma len_zero_nil {A} (l : list A) : len l <= 0 -> l = [].
Proof. destruct l; [reflexivity|]. rewrite len_cons. pose proof (len_nonneg l). lia. Qed.

#[export] Instance StoredLZ4_correct : LZ4Correct StoredLZ4.
Proof.
  constructor; cbn [LZ4_compress_HC_continue LZ4_decompress_safe_continue StoredLZ4];
    unfold stored_compress; intros.
  - destruct (Z.leb_spec (len src + 1) cap); [rewrite len_cons|rewrite len_nil]; lia.
  - destruct (Z.leb_spec (len src + 1) cap); [discriminate|].
    unfold LZ4_COMPRESSBOUND in H.
    destruct (Z.gtb_spec (len src) LZ4_MAX_INPUT_SIZE); [lia|].
    pose proof (len_nonneg src). pose proof (Z.div_pos (len src) 255). lia.
  - pose proof (len_nonneg src). pose proof (Z.div_pos (len src) 255).
    destruct (Z.leb_spec (len src + 1) cap); [rewrite len_cons|rewrite len_nil]; lia.
  - destruct (Z.leb_spec (len src + 1) cap); [|congruence].
    cbn [stored_decompress]. destruct (Z.leb_spec (len src) maxOut); [reflexivity|lia].
Qed.


(** ** Slices and header fields *)

Lemma len_firstn {A} n (l : list A) : 0 <= n <= len l -> len (firstn (Z.to_nat n) l) = n.
Proof. unfold len. intros H. rewrite length_firstn. lia. Qed.

Lemma len_skipn {A} n (l : list A) : 0 <= n <= len l -> len (skipn (Z.to_nat n) l) = len l - n.
Proof. unfold len. intros H. rewrite length_skipn. lia. Qed.

Lemma len_slice off n l :
  0 <= off -> 0 <= n -> off + n <= len l -> len (slice off n l) = n.
Proof.
  intros. unfold slice. rewrite len_firstn; [reflexivity|].
  rewrite len_skipn; lia.
Qed.

Lemma slice_0_all l n : n = len l -> slice 0 n l = l.
Proof.
  intros ->. unfold slice, len. cbn [Z.to_nat skipn]. rewrite Nat2Z.id. apply firstn_all.
Qed.

Lemma slice_app_l off n l1 l2 :
  0 <= off -> 0 <= n -> off + n <= len l1 -> slice off n (l1 ++ l2) = slice off n l1.
Proof.
  unfold slice, len. intros. rewrite skipn_app, firstn_app.
  replace (Z.to_nat n - length (skipn (Z.to_nat off) l1))%nat with 0%nat
    by (rewrite length_skipn; lia).
  cbn [firstn]. now rewrite app_nil_r.
Qed.

Lemma slice_app_r off n l1 l2 :
  len l1 <= off -> slice off n (l1 ++ l2) = slice (off - len l1) n l2.
Proof.
  unfold slice, len. intros. rewrite skipn_app.
  rewrite skipn_all2 by lia. cbn [app]. do 2 f_equal. lia.
Qed.


Lemma set_field_length off v h :
  0 <= off -> off + 8 <= len h -> len (set_field off v h) = len h.
Proof.
  intros. unfold set_field. rewrite !len_app, size_t_bytes_length.
  rewrite len_firstn, len_skipn by lia. lia.
Qed.

Lemma set_field_same off v h :
  0 <= off -> off + 8 <= len h -> slice off 8 (set_field off v h) = size_t_bytes v.
Proof.
  intros. unfold set_field. rewrite slice_app_r by (rewrite len_firstn; lia).
  rewrite len_firstn by lia. replace (off - off) with 0 by lia.
  rewrite slice_app_l by (rewrite ?size_t_bytes_length; lia).
  apply slice_0_all. now rewrite size_t_bytes_length.
Qed.

Lemma set_field_before off v h o n :
  0 <= o -> 0 <= n -> o + n <= off -> off + 8 <= len h ->
  slice o n (set_field off v h) = slice o n h.
Proof.
  intros. unfold set_field. rewrite slice_app_l by (rewrite ?len_firstn; lia).
  unfold slice. rewrite skipn_firstn_comm, firstn_firstn. f_equal. lia.
Qed.

Lemma set_field_after off v h o n :
  0 <= off -> off + 8 <= o -> off + 8 <= len h ->
  slice o n (set_field off v h) = slice o n h.
Proof.
  intros. unfold set_field. rewrite app_assoc.
  rewrite slice_app_r by (rewrite len_app, len_firstn, size_t_bytes_length; lia).
  rewrite len_app, len_firstn, size_t_bytes_length by lia.
  unfold slice. rewrite skipn_skipn. do 2 f_equal. lia.
Qed.


(** ** The loops over the chunks of a blob terminate

    More fuel than the built-in amount changes nothing: the loops end
    because the remaining size drops to a block or less. *)

Lemma save_binary_loop_fuel {L : LZ4} fuel : forall ptr a,
  (length ptr <= fuel)%nat ->
  save_binary_loop (S fuel) ptr a = save_binary_loop fuel ptr a.
Proof.
  induction fuel as [|fuel IH]; intros ptr a Hfuel.
  - cbn [save_binary_loop]. destruct (Z.gtb_spec (len ptr) BLOCK_BYTES) as [Hgt|]; [|reflexivity].
    unfold len, BLOCK_BYTES in Hgt. lia.
  - cbn [save_binary_loop].
    destruct (Z.gtb_spec (len ptr) BLOCK_BYTES) as [Hgt|]; [|reflexivity].
    destruct (flushBlock a) as [a1|]; [|reflexivity]. cbn [bind].
    rewrite <- IH.
    + cbn [save_binary_loop]. reflexivity.
    + rewrite length_skipn. assert (0 < BLOCK_BYTES) by reflexivity. unfold len in Hgt. lia.
Qed.

Lemma load_binary_loop_fuel {L : LZ4} fuel : forall size acc a,
  size <= Z.of_nat fuel ->
  load_binary_loop (S fuel) size acc a = load_binary_loop fuel size acc a.
Proof.
  induction fuel as [|fuel IH]; intros size acc a Hfuel.
  - cbn [load_binary_loop]. destruct (Z.gtb_spec size BLOCK_BYTES) as [Hgt|]; [|reflexivity].
    unfold BLOCK_BYTES in Hgt. lia.
  - cbn [load_binary_loop].
    destruct (Z.gtb_spec size BLOCK_BYTES) as [Hgt|]; [|reflexivity].
    destruct (preparePtr BLOCK_BYTES a) as [a1|]; [|reflexivity]. cbn [bind].
    destruct (fetch BLOCK_BYTES a1) as [[chunk a2]|]; [|reflexivity]. cbn [bind].
    rewrite <- IH.
    + cbn [load_binary_loop]. reflexivity.
    + unfold BLOCK_BYTES in *. lia.
Qed.

(** ** Pointer fields *)

(** C7: a pointer-typed field is skipped in both directions.  Saving it
    returns the SaveArchive unchanged (stream, block and write offset), and
    loading it returns the LoadArchive unchanged (nothing consumed) together
    with the pointer the destination already held. *)
Theorem pointer_fields_skipped {L : LZ4} {K : KeyOrder}
  (p : Z) (s : SaveArchive) (l : LoadArchive) :
  save_value (VPointer p) s = Ok s
  /\ load_value TPointer (VPointer p) l = Ok (VPointer p, l).
Proof. split; reflexivity. Qed.

(** ** Framing of the flushed blocks *)

Lemma wrap64_range z : 0 <= wrap64 z < SIZE_MAX1.
Proof. unfold wrap64. apply Z.mod_pos_bound. reflexivity. Qed.

Lemma bound_BLOCK_BYTES : LZ4_COMPRESSBOUND BLOCK_BYTES = 65809.
Proof. reflexivity. Qed.

Lemma compressed_size_fits {L : LZ4} {LC : LZ4Correct L} hist src :
  0 <= len (LZ4_compress_HC_continue hist src (LZ4_COMPRESSBOUND BLOCK_BYTES))
  < SIZE_MAX1.
Proof.
  pose proof (compress_capacity hist src (LZ4_COMPRESSBOUND BLOCK_BYTES)) as H.
  rewrite bound_BLOCK_BYTES in *. split; [apply len_nonneg|].
  specialize (H ltac:(lia)). unfold SIZE_MAX1. lia.
Qed.

(** C6: the first flush writes the header, patched (compression flag 1,
    first-block size = compressed payload size) and uncompressed, followed
    by the compressed payload, header-size + compressed-size bytes in all;
    a later flush writes an 8-byte compressed-length prefix followed by the
    compressed bytes. *)
Theorem flush_framing {L : LZ4} {LC : LZ4Correct L} (a a' : SaveArchive) :
  flushBlock a = Ok a' ->
  if first_block_ a then first_flush_framing a a' else later_flush_framing a a'.
Proof.
  unfold first_flush_framing, later_flush_framing, flushBlock.
  destruct (first_block_ a).
  - set (srcSz := wrap64 (offset_ a - headSz)).
    pose proof (wrap64_range (offset_ a - headSz)) as Hw. fold srcSz in Hw.
    destruct (Z.ltb_spec (len (s_buffer_ a)) headSz) as [|Hb1]; [discriminate|].
    destruct (Z.ltb_spec (len (s_buffer_ a)) (headSz + srcSz)) as [|Hb2]; [discriminate|].
    cbn [orb].
    destruct (head_compression (slice 0 headSz (s_buffer_ a)) =? 0); [|discriminate].
    cbn [negb].
    set (head := slice 0 headSz (s_buffer_ a)).
    set (comp := LZ4_compress_HC_continue _ _ _).
    destruct (Z.leb_spec (len comp) 0) as [|Hc]; [discriminate|].
    intros E. injection E as <-. cbn [s_stream_ first_block_].
    assert (Hh : len head = headSz) by (apply len_slice; unfold headSz in *; lia).
    assert (Hh1 : len (set_compression 1 head) = headSz).
    { unfold set_compression. rewrite set_field_length; unfold off_compression, headSz in *; lia. }
    assert (Hh2 : len (set_first_block_size (len comp) (set_compression 1 head)) = headSz).
    { unfold set_first_block_size.
      rewrite set_field_length; unfold off_first_block_size, headSz in *; lia. }
    assert (Hs : fwrite (set_first_block_size (len comp) (set_compression 1 head) ++ comp)
                   (len comp + headSz) (s_stream_ a)
                 = s_stream_ a ++ set_first_block_size (len comp) (set_compression 1 head) ++ comp).
    { unfold fwrite. f_equal. apply slice_0_all. rewrite len_app. lia. }
    rewrite Hs. split; [reflexivity|]. split; [|split; [|split; [|split; [|split]]]].
    + exact Hh2.
    + unfold head_compression, set_first_block_size, set_compression.
      rewrite set_field_before by
        (fold (set_compression 1 head); unfold off_compression, off_first_block_size, headSz in *; lia).
      rewrite set_field_same by (unfold off_compression, headSz in *; lia).
      now apply size_t_roundtrip.
    + unfold head_first_block_size, set_first_block_size.
      rewrite set_field_same by (unfold off_first_block_size, headSz in *; lia).
      apply size_t_roundtrip. subst comp. apply compressed_size_fits.
    + unfold set_first_block_size, set_compression.
      rewrite set_field_before by
        (fold (set_compression 1 head); unfold off_compression, off_first_block_size, headSz in *; lia).
      apply set_field_before; unfold off_compression, headSz in *; lia.
    + rewrite !len_app, Hh2. lia.
    + reflexivity.
  - destruct (Z.ltb_spec (len (s_buffer_ a)) (offset_ a)); [discriminate|].
    set (comp := LZ4_compress_HC_continue _ _ _).
    destruct (Z.leb_spec (len comp) 0) as [|Hc]; [discriminate|].
    intros E. injection E as <-. cbn [s_stream_ first_block_].
    split; [|split; [|split]].
    + unfold fwrite. f_equal. apply slice_0_all.
      rewrite len_app, size_t_bytes_length. unfold sizeof_size_t. lia.
    + apply size_t_bytes_length.
    + apply size_t_roundtrip. subst comp. apply compressed_size_fits.
    + reflexivity.
Qed.

Lemma flush_framing_witness :
  let a := state_after header_v11 [VScalar [x01; x02; x03]] in
  let b := match save [x09; x0a] (flushed a) with Ok b => b | Fail _ => a end in
  (flushBlock a = Ok (flushed a) /\ first_flush_framing a (flushed a))
  /\ (first_block_ b = false /\ flushBlock b = Ok (flushed b)
      /\ later_flush_framing b (flushed b)).
Proof.
  cbv zeta. split.
  - assert (E : flushBlock (state_after header_v11 [VScalar [x01; x02; x03]])
                = Ok (flushed (state_after header_v11 [VScalar [x01; x02; x03]])))
      by (vm_compute; reflexivity).
    split; [exact E|].
    exact (flush_framing (L := StoredLZ4) _ _ E).
  - set (b := match save [x09; x0a] _ with Ok b => b | Fail _ => _ end).
    assert (E : flushBlock b = Ok (flushed b)) by (vm_compute; reflexivity).
    split; [reflexivity|]. split; [exact E|].
    exact (flush_framing (L := StoredLZ4) b _ E).
Defined.


(** ** Inversion of the error monad *)

Lemma bind_ok {A B} (e : result A) (k : A -> result B) (r : B) :
  bind e k = Ok r -> exists x, e = Ok x /\ k x = Ok r.
Proof. destruct e as [x|f]; cbn [bind]; [eauto|discriminate]. Qed.

Ltac inv_bind H :=
  let x := fresh "x" in
  let E := fresh "E" in
  apply bind_ok in H; destruct H as (x & E & H).

(** ** The current-format resources stay allocated while loading *)

Section CurrentFormat.
Context {L : LZ4} {K : KeyOrder}.

Lemma loadBlock_current compSz a dec a' :
  loadBlock compSz a = Ok (dec, a') -> current_format a -> current_format a'.
Proof.
  unfold loadBlock, current_format. intros H [Hb Hc].
  destruct (compSz >=? _); [discriminate|].
  rewrite Hc in H. destruct (_ <? compSz); [discriminate|].
  destruct (fread compSz (l_stream_ a)) as [[comp|] f]; [|discriminate].
  destruct (LZ4_decompress_safe_continue _ _ _) as [d|]; [|discriminate].
  destruct (len d <=? 0); [discriminate|].
  injection H as <- <-. cbn. auto.
Qed.

Lemma preparePtr_current size a a' :
  preparePtr size a = Ok a' -> current_format a -> current_format a'.
Proof.
  unfold preparePtr. intros H Hc.
  destruct (ptr_ a + size <=? block_sz_ a); [injection H as <-; exact Hc|].
  destruct (fread sizeof_size_t (l_stream_ a)) as [r f].
  destruct (_ || _); [discriminate|].
  inv_bind H. destruct x as [dec a1]. injection H as <-.
  apply loadBlock_current in E; [|exact Hc]. exact E.
Qed.

Lemma fetch_current n a bytes a' :
  fetch n a = Ok (bytes, a') -> current_format a -> current_format a'.
Proof.
  unfold fetch. destruct (_ <? _); [discriminate|].
  intros H Hc. injection H as <- <-. exact Hc.
Qed.

Lemma load_current n a bytes a' :
  load n a = Ok (bytes, a') -> current_format a -> current_format a'.
Proof.
  unfold load. intros H Hc. inv_bind H.
  eapply fetch_current; [exact H|]. eapply preparePtr_current; eauto.
Qed.

Lemma load_binary_loop_current fuel size acc a rest acc' a' :
  load_binary_loop fuel size acc a = Ok (rest, acc', a') ->
  current_format a -> current_format a'.
Proof.
  revert size acc a. induction fuel as [|fuel IH]; intros size acc a H Hc;
    cbn [load_binary_loop] in H; destruct (size >? BLOCK_BYTES).
  - discriminate.
  - injection H as <- <- <-. exact Hc.
  - inv_bind H. inv_bind H. destruct x0 as [chunk a2].
    eapply IH; [exact H|]. eapply fetch_current; [exact E0|].
    eapply preparePtr_current; eauto.
  - injection H as <- <- <-. exact Hc.
Qed.

Lemma load_binary_current size a bytes a' :
  load_binary size a = Ok (bytes, a') -> current_format a -> current_format a'.
Proof.
  unfold load_binary. intros H Hc. inv_bind H. destruct x as [[rest acc] a1].
  inv_bind H. inv_bind H. destruct x0 as [tail a3]. injection H as <- <-.
  eapply fetch_current; [exact E1|]. eapply preparePtr_current; [exact E0|].
  eapply load_binary_loop_current; eauto.
Qed.

Lemma load_value_current t :
  forall dst a v a',
    load_value t dst a = Ok (v, a') -> current_format a -> current_format a'.
Proof.
  induction t as [size| |t IH|tk tv IHk IHv| | |fields IH] using ty_ind;
    intros dst a v a' H Hc.
  - cbn [load_value] in H. inv_bind H. destruct x as [bytes a1]. injection H as <- <-.
    eapply load_current; eauto.
  - cbn [load_value] in H. inv_bind H. destruct x as [bytes a1]. injection H as <- <-.
    eapply load_current; eauto.
  - destruct dst; try discriminate. rewrite load_value_vector in H.
    inv_bind H. destruct x as [bytes a1]. inv_bind H. destruct x as [xs a2].
    injection H as <- <-. apply load_current in E; [|exact Hc].
    revert E0 E. generalize (resize elems (le_decode bytes) (default_value t)).
    intros ds. revert xs a1. induction ds as [|d ds IHds]; intros xs a1 E0 Hc1;
      cbn [load_elems] in E0.
    + injection E0 as <- <-. exact Hc1.
    + inv_bind E0. destruct x as [y a3]. inv_bind E0. destruct x as [ys a4].
      injection E0 as <- <-. eapply IHds; [exact E1|]. eapply IH; eauto.
  - destruct dst; try discriminate. rewrite load_value_map in H.
    inv_bind H. destruct x as [bytes a1]. inv_bind H. destruct x as [m a2].
    injection H as <- <-. apply load_current in E; [|exact Hc].
    revert E0 E. generalize (Z.to_nat (le_decode bytes)). intros n.
    revert entries m a1. induction n as [|n IHn]; intros old m a1 E0 Hc1;
      cbn [load_entries] in E0.
    + injection E0 as <- <-. exact Hc1.
    + inv_bind E0. destruct x as [key a3]. inv_bind E0. destruct x as [y a4].
      eapply IHn; [exact E0|]. eapply IHv; [exact E1|]. eapply IHk; eauto.
  - destruct dst; try discriminate. cbn [load_value load_ptr bind] in H.
    injection H as <- <-. exact Hc.
  - destruct dst; try discriminate. cbn [load_value] in H.
    inv_bind H. destruct x as [b a1]. injection H as <- <-.
    eapply load_binary_current; eauto.
  - destruct dst as [| | | | | |old]; try discriminate. rewrite load_value_struct in H.
    inv_bind H. destruct x as [xs a1]. injection H as <- <-.
    revert old xs a E Hc. induction IH as [|t ts Ht _ IHts]; intros old xs a E Hc;
      destruct old as [|d ds]; cbn [load_values] in E; try discriminate.
    + injection E as <- <-. exact Hc.
    + inv_bind E. destruct x as [y a3]. inv_bind E. destruct x as [ys a4].
      injection E as <- <-. eapply IHts; [exact E1|]. eapply Ht; eauto.
Qed.

Lemma load_values_current ts :
  forall ds a xs a',
    load_values ts ds a = Ok (xs, a') -> current_format a -> current_format a'.
Proof.
  induction ts as [|t ts IH]; intros ds a xs a' E Hc;
    destruct ds as [|d ds]; cbn [load_values] in E; try discriminate.
  - injection E as <- <-. exact Hc.
  - inv_bind E. destruct x as [y a3]. inv_bind E. destruct x as [ys a4].
    injection E as <- <-. eapply IH; [exact E1|]. eapply load_value_current; eauto.
Qed.

Lemma Load_initBlock_current f head f' a :
  fread headSz f = (Some head, f') -> is_v10 head = false ->
  Load_initBlock f = Ok a -> current_format a.
Proof.
  unfold Load_initBlock. intros -> -> H. inv_bind H. destruct x as [dec a1].
  injection H as <-. apply loadBlock_current in E; [exact E|].
  split; reflexivity.
Qed.

End CurrentFormat.


(** ** The block-size guard of the load path *)

Lemma loadBlock_too_large {L : LZ4} compSz a :
  LZ4_COMPRESSBOUND BLOCK_BYTES <= compSz ->
  loadBlock compSz a = Fail (Throw "Requested block size too large").
Proof.
  intros H. unfold loadBlock.
  destruct (Z.geb_spec compSz (LZ4_COMPRESSBOUND BLOCK_BYTES)); [reflexivity|lia].
Qed.

Lemma loadBlock_defined {L : LZ4} compSz a :
  compressed_buffer_ a = Some (LZ4_COMPRESSBOUND BLOCK_BYTES) ->
  loadBlock compSz a <> Fail Undefined.
Proof.
  intros Hc. unfold loadBlock. rewrite Hc.
  destruct (Z.geb_spec compSz (LZ4_COMPRESSBOUND BLOCK_BYTES)); [discriminate|].
  destruct (Z.ltb_spec (LZ4_COMPRESSBOUND BLOCK_BYTES) compSz); [lia|].
  destruct (fread compSz (l_stream_ a)) as [[comp|] f]; [|discriminate].
  destruct (LZ4_decompress_safe_continue _ _ _) as [d|]; [|discriminate].
  destruct (len d <=? 0); discriminate.
Qed.

(** C8: on the current-format path (staging buffer of
    LZ4_COMPRESSBOUND(BLOCK_BYTES) bytes) a block whose compressed length
    is at least that bound is rejected with "Requested block size too
    large", whatever the stream holds; this covers the first block (length
    taken from the header) and every later block (length taken from the
    prefix).  The read into the staging buffer never overflows it. *)
Theorem block_size_guard {L : LZ4} (a : LoadArchive) (compSz : Z) :
  current_format a ->
  (LZ4_COMPRESSBOUND BLOCK_BYTES <= compSz ->
   loadBlock compSz a = Fail (Throw "Requested block size too large"))
  /\ loadBlock compSz a <> Fail Undefined
  /\ (forall dec a', loadBlock compSz a = Ok (dec, a') ->
      compSz < LZ4_COMPRESSBOUND BLOCK_BYTES)
  /\ (forall size prefix f,
      block_sz_ a < ptr_ a + size ->
      fread sizeof_size_t (l_stream_ a) = (Some prefix, f) ->
      LZ4_COMPRESSBOUND BLOCK_BYTES <= le_decode prefix ->
      preparePtr size a = Fail (Throw "Requested block size too large"))
  /\ (forall stream head f,
      fread headSz stream = (Some head, f) -> is_v10 head = false ->
      LZ4_COMPRESSBOUND BLOCK_BYTES <= head_first_block_size head ->
      Load_initBlock stream = Fail (Throw "Requested block size too large")).
Proof.
  intros [Hb Hc]. split; [apply loadBlock_too_large|].
  split; [now apply loadBlock_defined|]. split; [|split].
  - intros dec a' H.
    destruct (Z_lt_ge_dec compSz (LZ4_COMPRESSBOUND BLOCK_BYTES)) as [|Hge]; [assumption|].
    rewrite loadBlock_too_large in H by lia. discriminate.
  - intros size prefix f Hp Hr Hl. unfold preparePtr.
    destruct (Z.leb_spec (ptr_ a + size) (block_sz_ a)); [lia|].
    rewrite Hr. rewrite bound_BLOCK_BYTES in Hl.
    destruct (Z.leb_spec (le_decode prefix) 0); [lia|]. cbn [orb negb Z.eqb Pos.eqb].
    rewrite loadBlock_too_large by (rewrite bound_BLOCK_BYTES; lia). reflexivity.
  - intros stream head f Hr Hv Hl. unfold Load_initBlock. rewrite Hr, Hv.
    rewrite loadBlock_too_large by assumption. reflexivity.
Qed.

Lemma block_size_guard_witness :
  let s := stream_of header_v11 sample_values in
  let a := opened s in
  let tampered := set_first_block_size 70000 (firstn 80 s) ++ skipn 80 s in
  current_format a
  /\ loadBlock 65809 a = Fail (Throw "Requested block size too large")
  /\ Load_initBlock (mkFile tampered 0)
     = Fail (Throw "Requested block size too large").
Proof.
  cbv zeta.
  assert (H : current_format (opened (stream_of header_v11 sample_values)))
    by (split; vm_compute; reflexivity).
  split; [exact H|]. split.
  - apply (proj1 (block_size_guard _ 65809 H)). vm_compute. discriminate.
  - refine (proj2 (proj2 (proj2 (proj2 (block_size_guard _ 0 H)))) _ _ _ _ _ _).
    + vm_compute. reflexivity.
    + vm_compute. reflexivity.
    + vm_compute. discriminate.
Defined.


(** ** The end-of-stream sentinel *)

Lemma size_t_zero : size_t_bytes 0 = repeat x00 8.
Proof. reflexivity. Qed.

Lemma Save_endBlock_stream {L : LZ4} (w : SaveArchive) :
  s_stream_ (Save_endBlock w) = s_stream_ w ++ repeat x00 8.
Proof. reflexivity. Qed.

Lemma fread_fails n f :
  file_end f - f_pos f < n -> fst (fread n f) = None.
Proof.
  intros H. unfold fread.
  destruct (Z.ltb_spec 0 n); cbn [andb]; [|reflexivity].
  destruct (Z.leb_spec (f_pos f + n) (file_end f)); [lia|reflexivity].
Qed.

Lemma fread_succeeds n f :
  0 < n -> n <= file_end f - f_pos f ->
  fread n f = (Some (slice (f_pos f) n (f_data f)), fseek_set f (f_pos f + n)).
Proof.
  intros H1 H2. unfold fread.
  destruct (Z.ltb_spec 0 n); [|lia].
  destruct (Z.leb_spec (f_pos f + n) (file_end f)); [reflexivity|lia].
Qed.

Lemma Load_endBlock_truncated {L : LZ4} a :
  buffer_blocks_ a = true ->
  file_end (l_stream_ a) - f_pos (l_stream_ a) < 8 ->
  Load_endBlock a = Fail (Throw "Invalid index file, cannot read from disk (end)").
Proof.
  intros Hb Ht. unfold Load_endBlock. rewrite Hb.
  pose proof (fread_fails sizeof_size_t (l_stream_ a) Ht) as Hf.
  destruct (fread sizeof_size_t (l_stream_ a)) as [[z|] f]; [discriminate|reflexivity].
Qed.

Lemma Load_endBlock_nonzero {L : LZ4} a :
  buffer_blocks_ a = true ->
  8 <= file_end (l_stream_ a) - f_pos (l_stream_ a) ->
  le_decode (slice (f_pos (l_stream_ a)) 8 (f_data (l_stream_ a))) <> 0 ->
  Load_endBlock a = Fail (Throw "Invalid index file, last block not zero length").
Proof.
  intros Hb Ht Hz. unfold Load_endBlock. rewrite Hb.
  rewrite fread_succeeds by (unfold sizeof_size_t; lia). unfold sizeof_size_t.
  destruct (Z.eqb_spec (le_decode (slice (f_pos (l_stream_ a)) 8 (f_data (l_stream_ a)))) 0);
    [contradiction|reflexivity].
Qed.

Lemma Load_endBlock_ok {L : LZ4} a a' :
  buffer_blocks_ a = true ->
  Load_endBlock a = Ok a' ->
  8 <= file_end (l_stream_ a) - f_pos (l_stream_ a)
  /\ le_decode (slice (f_pos (l_stream_ a)) 8 (f_data (l_stream_ a))) = 0.
Proof.
  intros Hb H.
  destruct (Z_lt_ge_dec (file_end (l_stream_ a) - f_pos (l_stream_ a)) 8) as [Hlt|Hge].
  - rewrite Load_endBlock_truncated in H by assumption. discriminate.
  - split; [lia|].
    destruct (Z.eq_dec (le_decode (slice (f_pos (l_stream_ a)) 8 (f_data (l_stream_ a)))) 0)
      as [|Hn]; [assumption|].
    rewrite Load_endBlock_nonzero in H by (assumption || lia). discriminate.
Qed.

(** C5: closing a SaveArchive writes, after the last flushed block, one
    zero-valued size_t (8 zero bytes).  Closing a current-format
    LoadArchive reads one more size_t and requires it to be zero: when the
    stream ends before it (truncation) the load fails with "cannot read
    from disk (end)", when it is non-zero the load fails with "last block
    not zero length"; a load that succeeds found the zero. *)
Theorem sentinel_enforced {L : LZ4} {K : KeyOrder}
  (f f' : FILE) (head h : list byte) (ts : list ty) (ds xs : list value)
  (a a1 a2 : LoadArchive) :
  fread headSz f = (Some head, f') -> is_v10 head = false ->
  Load_initBlock f = Ok a ->
  load headSz a = Ok (h, a1) ->
  load_values ts ds a1 = Ok (xs, a2) ->
  let s := l_stream_ a2 in
  (forall w, s_stream_ (Save_endBlock w) = s_stream_ w ++ repeat x00 8)
  /\ (forall w out, Save_close w = Ok out ->
      exists w1, flushBlock w = Ok w1 /\ out = s_stream_ w1 ++ size_t_bytes 0)
  /\ (file_end s - f_pos s < 8 ->
      load_archive f ts ds
      = Fail (Throw "Invalid index file, cannot read from disk (end)"))
  /\ (8 <= file_end s - f_pos s ->
      le_decode (slice (f_pos s) 8 (f_data s)) <> 0 ->
      load_archive f ts ds
      = Fail (Throw "Invalid index file, last block not zero length"))
  /\ (is_ok (load_archive f ts ds) = true ->
      8 <= file_end s - f_pos s
      /\ le_decode (slice (f_pos s) 8 (f_data s)) = 0).
Proof.
  intros Hr Hv Hi Hh Hl s.
  assert (Hc : current_format a2).
  { eapply load_values_current; [exact Hl|]. eapply load_current; [exact Hh|].
    eapply Load_initBlock_current; eauto. }
  destruct Hc as [Hb _].
  assert (Hrun : load_archive f ts ds = (a3 <- Load_endBlock a2 ;; Ok (h, xs))).
  { unfold load_archive. rewrite Hi. cbn [bind]. rewrite Hh. cbn [bind].
    rewrite Hl. reflexivity. }
  split; [intros w; apply Save_endBlock_stream|]. split; [|split; [|split]].
  - intros w out H. unfold Save_close in H. inv_bind H. injection H as <-.
    exists x. split; [assumption|reflexivity].
  - intros Ht. rewrite Hrun, Load_endBlock_truncated by assumption. reflexivity.
  - intros Ht Hz. rewrite Hrun, Load_endBlock_nonzero by assumption. reflexivity.
  - intros Hok. rewrite Hrun in Hok.
    destruct (Load_endBlock a2) as [a3|] eqn:E; [|discriminate].
    apply Load_endBlock_ok in E; [|assumption]. exact E.
Qed.

Lemma sentinel_enforced_witness :
  let s := stream_of header_v11 sample_values in
  let body := firstn (length s - 8) s in
  load_archive (mkFile s 0) sample_types sample_destinations
  = Ok (set_first_block_size 38 (set_compression 1 header_v11), sample_values)
  /\ load_archive (mkFile body 0) sample_types sample_destinations
     = Fail (Throw "Invalid index file, cannot read from disk (end)")
  /\ load_archive (mkFile (body ++ size_t_bytes 5) 0) sample_types sample_destinations
     = Fail (Throw "Invalid index file, last block not zero length").
Proof.
  cbv zeta. split; [vm_compute; reflexivity|]. split.
  - refine (proj1 (proj2 (proj2
      (sentinel_enforced (L := StoredLZ4) (K := UnsignedKeys)
         (mkFile (firstn (length (stream_of header_v11 sample_values) - 8)
                    (stream_of header_v11 sample_values)) 0)
         _ _ _ sample_types sample_destinations _ _ _ _ _ _ _ _ _))) _).
    + lazy. reflexivity.
    + lazy. reflexivity.
    + lazy. reflexivity.
    + lazy. reflexivity.
    + lazy. reflexivity.
    + lazy. reflexivity.
  - refine (proj1 (proj2 (proj2 (proj2
      (sentinel_enforced (L := StoredLZ4) (K := UnsignedKeys)
         (mkFile (firstn (length (stream_of header_v11 sample_values) - 8)
                    (stream_of header_v11 sample_values) ++ size_t_bytes 5) 0)
         _ _ _ sample_types sample_destinations _ _ _ _ _ _ _ _ _)))) _ _).
    + lazy. reflexivity.
    + lazy. reflexivity.
    + lazy. reflexivity.
    + lazy. reflexivity.
    + lazy. reflexivity.
    + lazy. discriminate.
    + lazy. discriminate.
Defined.


(** ** Legacy detection and the compression flag *)

Lemma fread_data n f r f' : fread n f = (r, f') -> f_data f' = f_data f.
Proof.
  unfold fread. destruct (_ && _); [intros E; injection E as <- <-; reflexivity|].
  destruct (0 <? n); intros E; injection E as <- <-; reflexivity.
Qed.

Lemma fread_some n f bytes f' :
  fread n f = (Some bytes, f') ->
  0 < n /\ f_pos f + n <= file_end f
  /\ bytes = slice (f_pos f) n (f_data f) /\ f' = fseek_set f (f_pos f + n).
Proof.
  unfold fread. destruct (Z.ltb_spec 0 n); cbn [andb].
  - destruct (Z.leb_spec (f_pos f + n) (file_end f)); intros E; [|discriminate].
    injection E as <- <-. auto.
  - intros E. discriminate.
Qed.

Lemma fseek_back n f bytes f' :
  fread n f = (Some bytes, f') -> fseek_set f' (ftell f) = f.
Proof.
  intros H. apply fread_some in H. destruct H as (_ & _ & _ & ->).
  destruct f. reflexivity.
Qed.

Lemma initBlock_v10 {L : LZ4} (f f' : FILE) (head : list byte) :
  fread headSz f = (Some head, f') -> is_v10 head = true ->
  Load_initBlock f = decompressAndLoadV10 f.
Proof.
  intros Hr Hv. pose proof (fseek_back _ _ _ _ Hr) as Hb.
  unfold Load_initBlock. rewrite Hr, Hv, Hb. reflexivity.
Qed.

(** The claim read literally ("marker bytes inside the version field")
    fails: two headers with the same version field are routed differently. *)
Lemma legacy_markers_not_in_version :
  head_version header_v10 = head_version (sample_header "FLANN_INDEX_v1.1" "1.6.11")
  /\ is_v10 header_v10 = true
  /\ is_v10 (sample_header "FLANN_INDEX_v1.1" "1.6.11") = false
  /\ ~ (forall h1 h2, head_version h1 = head_version h2 -> is_v10 h1 = is_v10 h2).
Proof.
  split; [reflexivity|]. split; [reflexivity|]. split; [reflexivity|].
  intros H.
  specialize (H header_v10 (sample_header "FLANN_INDEX_v1.1" "1.6.11") eq_refl).
  discriminate H.
Qed.

(** C3 (amended): after one header's worth of bytes is read, the legacy
    path is chosen exactly when bytes 13 and 15 of the signature field are
    '1' and '0' (so the choice depends on the signature field only); then
    the stream is put back where reading started and the legacy procedure
    decodes it; otherwise the block-framed decode goes on after the header,
    and the archive it yields holds the current-format resources. *)
Theorem legacy_detection {L : LZ4} (f f' : FILE) (head : list byte) :
  fread headSz f = (Some head, f') ->
  is_v10 head
  = (Byte.eqb (nth 13 (head_signature head) x00) x31
     && Byte.eqb (nth 15 (head_signature head) x00) x30)
  /\ (forall h2, head_signature h2 = head_signature head -> is_v10 h2 = is_v10 head)
  /\ (is_v10 head = true ->
      fseek_set f' (ftell f) = f
      /\ Load_initBlock f = decompressAndLoadV10 f
      /\ forall a, Load_initBlock f = Ok a -> buffer_blocks_ a = false)
  /\ (is_v10 head = false ->
      Load_initBlock f = current_decode_init head f'
      /\ forall a, Load_initBlock f = Ok a -> current_format a).
Proof.
  intros Hr. split; [reflexivity|]. split; [|split].
  - intros h2 Hs. unfold is_v10. now rewrite Hs.
  - intros Hv. pose proof (fseek_back _ _ _ _ Hr) as Hb.
    pose proof (initBlock_v10 f f' head Hr Hv) as Hi.
    split; [exact Hb|]. split; [exact Hi|].
    intros a Ha. rewrite Hi in Ha. unfold decompressAndLoadV10 in Ha.
    destruct (fread (wrap64 _) _) as [[compBuffer|] g]; [|discriminate].
    destruct (_ <? headSz); [discriminate|].
    destruct (negb (head_compression compBuffer =? 1)); [discriminate|].
    destruct (negb (_ =? _)); [discriminate|].
    destruct (LZ4_decompress_safe _ _) as [out|]; [|discriminate].
    destruct (_ <? headSz + len out); [discriminate|].
    injection Ha as <-. reflexivity.
  - intros Hv. split.
    + unfold Load_initBlock, current_decode_init. rewrite Hr, Hv. reflexivity.
    + intros a Ha. eapply Load_initBlock_current; eauto.
Qed.

Lemma legacy_detection_witness :
  let legacy := mkFile (with_header (stream_of header_v11 sample_values)
                          (fun _ => header_v10)) 0 in
  let current := mkFile (stream_of header_v11 sample_values) 0 in
  Load_initBlock legacy = decompressAndLoadV10 legacy
  /\ Load_initBlock current
     = current_decode_init (firstn 80 (f_data current)) (fseek_set current 80).
Proof.
  cbv zeta. split.
  - refine (proj1 (proj2 (proj1 (proj2 (proj2
      (legacy_detection (L := StoredLZ4) _ _ _ _))) _))).
    + lazy. reflexivity.
    + lazy. reflexivity.
  - refine (proj1 (proj2 (proj2 (proj2
      (legacy_detection (L := StoredLZ4)
         (mkFile (stream_of header_v11 sample_values) 0)
         (fseek_set (mkFile (stream_of header_v11 sample_values) 0) 80)
         (firstn 80 (stream_of header_v11 sample_values)) _))) _)).
    + vm_compute. reflexivity.
    + vm_compute. reflexivity.
Defined.






(** ** Properties kept by every save of the dispatch layer *)

Lemma keeps_bind {A} (P : A -> Prop) Bad (r : result A) (k : A -> result A) :
  keeps P Bad r -> (forall a, P a -> keeps P Bad (k a)) -> keeps P Bad (bind r k).
Proof. destruct r as [a|f]; cbn [bind keeps]; auto. Qed.

Section Keeps.
Context {A : Type} {OA : OutputArchive A}.
Variable P : A -> Prop.
Variable Bad : failure -> Prop.
Hypothesis Hsave : forall bytes a, P a -> keeps P Bad (ar_save bytes a).
Hypothesis Hpointer : forall p a, P a -> keeps P Bad (ar_save_pointer p a).
Hypothesis Hbinary : forall bytes a, P a -> keeps P Bad (ar_save_binary bytes a).

Lemma save_value_keeps v : forall a, P a -> keeps P Bad (save_value v a).
Proof.
  induction v as [bytes|n|elems IH|entries IH|p|bytes|fields IH] using value_ind;
    intros a Ha.
  - apply Hsave, Ha.
  - apply Hsave, Ha.
  - rewrite save_value_vector. apply keeps_bind; [apply Hsave, Ha|].
    clear a Ha. induction IH as [|x l Hx _ IHl]; intros a Ha; cbn [save_values].
    + exact Ha.
    + apply keeps_bind; [apply Hx, Ha|exact IHl].
  - rewrite save_value_map. apply keeps_bind; [apply Hsave, Ha|].
    clear a Ha. induction IH as [|[k x] l [Hk Hx] _ IHl]; intros a Ha; cbn [save_entries].
    + exact Ha.
    + apply keeps_bind; [apply Hk, Ha|]. intros a1 Ha1.
      apply keeps_bind; [apply Hx, Ha1|exact IHl].
  - apply Hpointer, Ha.
  - apply Hbinary, Ha.
  - rewrite save_value_struct.
    induction IH as [|x l Hx _ IHl] in a, Ha |- *; cbn [save_values].
    + exact Ha.
    + apply keeps_bind; [apply Hx, Ha|]. intros a1 Ha1. now apply IHl.
Qed.

Lemma save_values_keeps vs : forall a, P a -> keeps P Bad (save_values vs a).
Proof.
  induction vs as [|v vs IH]; intros a Ha; cbn [save_values]; [exact Ha|].
  apply keeps_bind; [now apply save_value_keeps|exact IH].
Qed.

End Keeps.

(** ** The first block starts with the header *)

Lemma SIZE_MAX1_val : SIZE_MAX1 = 18446744073709551616.
Proof. reflexivity. Qed.

Lemma wrap64_small z : 0 <= z < 18446744073709551616 -> wrap64 z = z.
Proof. intros H. unfold wrap64. rewrite SIZE_MAX1_val. now apply Z.mod_small. Qed.

Ltac consts :=
  unfold headSz, BLOCK_BYTES, sizeof_size_t, sizeof_int, sizeof_ptr,
    off_compression, off_first_block_size in *.

Section HeaderFirst.
Context {L : LZ4}.

Lemma SaveInv_flushed a a' : flushBlock a = Ok a' -> SaveInv a'.
Proof.
  unfold flushBlock, SaveInv. intros H.
  assert (E : offset_ a' = 0 /\ s_buffer_ a' = [] /\ first_block_ a' = false).
  { destruct (first_block_ a).
    - destruct (_ || _); [discriminate|]. destruct (negb _); [discriminate|].
      destruct (_ <=? 0); [discriminate|]. injection H as <-. auto.
    - destruct (_ <? _); [discriminate|]. destruct (_ <=? 0); [discriminate|].
      injection H as <-. auto. }
  destruct E as (-> & -> & ->). unfold BLOCK_BYTES.
  split; [reflexivity|]. split; [lia|]. discriminate.
Qed.

Lemma flushBlock_keeps a : SaveInv a -> keeps SaveInv header_failure (flushBlock a).
Proof.
  intros Ha. destruct (flushBlock a) as [a'|f] eqn:E; cbn [keeps].
  - eapply SaveInv_flushed, E.
  - destruct Ha as (Ho & Hr & Hf). unfold flushBlock in E.
    unfold header_failure. destruct (first_block_ a).
    + destruct (Hf eq_refl) as [Hh Hc].
      assert (Hw : wrap64 (offset_ a - headSz) = offset_ a - headSz).
      { apply wrap64_small. consts. lia. }
      rewrite Hw in E.
      destruct (Z.ltb_spec (len (s_buffer_ a)) headSz); [consts; lia|].
      destruct (Z.ltb_spec (len (s_buffer_ a)) (headSz + (offset_ a - headSz))); [lia|].
      cbn [orb] in E. rewrite Hc in E. cbn [Z.eqb negb] in E.
      destruct (_ <=? 0); [|discriminate E].
      injection E as <-. intros [?|?]; discriminate.
    + destruct (Z.ltb_spec (len (s_buffer_ a)) (offset_ a)); [lia|].
      destruct (_ <=? 0); [|discriminate E].
      injection E as <-. intros [?|?]; discriminate.
Qed.

Lemma memcpy_at_end buf src : memcpy_at buf (len buf) src = buf ++ src.
Proof. unfold memcpy_at, len. now rewrite Nat2Z.id, firstn_all. Qed.

Lemma SaveInv_store a bytes :
  SaveInv a -> offset_ a + len bytes <= BLOCK_BYTES ->
  SaveInv (store a (offset_ a) bytes (len bytes)).
Proof.
  intros (Ho & Hr & Hf) Hfit. unfold SaveInv, store.
  cbn [s_buffer_ offset_ first_block_].
  rewrite Ho, memcpy_at_end, len_app. pose proof (len_nonneg bytes).
  split; [reflexivity|]. split; [lia|].
  intros Hfirst. destruct (Hf Hfirst) as [Hh Hc]. split; [lia|].
  rewrite slice_app_l by (unfold headSz in *; lia). exact Hc.
Qed.

Lemma patched_header_length head compSz :
  len head = headSz -> len (patched_header head compSz) = headSz.
Proof.
  intros H. unfold patched_header, set_first_block_size, set_compression.
  rewrite !set_field_length; rewrite ?set_field_length; consts; lia.
Qed.

Lemma flushBlock_ok a a' :
  flushBlock a = Ok a' ->
  a' = {| s_stream_ := s_stream_ a ++ flush_frame a;
          s_buffer_ := [];
          s_other_half := negb (s_other_half a);
          offset_ := 0;
          first_block_ := false;
          lz4Stream := lz4Stream a ++ [flush_src a] |}
  /\ flush_comp a <> [].
Proof.
  unfold flushBlock, flush_frame, flush_comp, flush_src. destruct (first_block_ a).
  - destruct (Z.ltb_spec (len (s_buffer_ a)) headSz); [discriminate|].
    destruct (_ <? _); [discriminate|]. cbn [orb].
    destruct (negb _); [discriminate|].
    set (comp := LZ4_compress_HC_continue _ _ _).
    destruct (Z.leb_spec (len comp) 0); [discriminate|].
    intros E. injection E as <-. split.
    + f_equal. unfold fwrite. f_equal. apply slice_0_all.
      rewrite len_app. fold (patched_header (slice 0 headSz (s_buffer_ a)) (len comp)).
      rewrite patched_header_length; [lia|]. apply len_slice; consts; lia.
    + intros Hn. rewrite Hn in *. cbn in *. lia.
  - destruct (_ <? _); [discriminate|].
    set (comp := LZ4_compress_HC_continue _ _ _).
    destruct (Z.leb_spec (len comp) 0); [discriminate|].
    intros E. injection E as <-. split.
    + f_equal. unfold fwrite. f_equal. apply slice_0_all.
      rewrite len_app, size_t_bytes_length. consts. lia.
    + intros Hn. rewrite Hn in *. cbn in *. lia.
Qed.

Lemma flush_src_inv a :
  SaveInv a ->
  flush_src a = if first_block_ a then skipn 80 (s_buffer_ a) else s_buffer_ a.
Proof.
  intros (Ho & Hr & Hf). unfold flush_src. destruct (first_block_ a).
  - destruct (Hf eq_refl) as [Hh _].
    rewrite wrap64_small by (consts; lia). unfold slice.
    rewrite firstn_all2; [reflexivity|].
    rewrite length_skipn. unfold len in *. consts. lia.
  - apply slice_0_all. exact Ho.
Qed.

Lemma save_keeps bytes a : SaveInv a -> keeps SaveInv header_failure (save bytes a).
Proof.
  intros Ha. unfold save.
  destruct (Z.ltb_spec (len bytes) BLOCK_BYTES) as [Hs|]; cbn [negb];
    [|cbn [keeps]; intros [?|?]; discriminate].
  destruct (Z.gtb_spec (offset_ a + len bytes) BLOCK_BYTES).
  - pose proof (flushBlock_keeps a Ha) as Hk.
    destruct (flushBlock a) as [a1|f] eqn:E; cbn [bind keeps] in *; [|exact Hk].
    apply SaveInv_store; [exact Hk|].
    apply flushBlock_ok in E. destruct E as [-> _]. cbn [offset_]. lia.
  - cbn [bind keeps]. apply SaveInv_store; [exact Ha|lia].
Qed.

Lemma save_binary_loop_keeps fuel : forall ptr a,
  (length ptr <= fuel)%nat -> SaveInv a ->
  keeps (fun r => SaveInv (snd r) /\ len (fst r) <= BLOCK_BYTES
                  /\ (BLOCK_BYTES < len ptr -> offset_ (snd r) = BLOCK_BYTES)
                  /\ (len ptr <= BLOCK_BYTES -> r = (ptr, a)))
    header_failure (save_binary_loop fuel ptr a).
Proof.
  induction fuel as [|fuel IH]; intros ptr a Hfuel Ha; cbn [save_binary_loop].
  - destruct (Z.gtb_spec (len ptr) BLOCK_BYTES) as [Hgt|Hle].
    + unfold len, BLOCK_BYTES in Hgt. lia.
    + cbn [keeps fst snd]. split; [exact Ha|]. split; [lia|].
      split; [intros; lia|reflexivity].
  - destruct (Z.gtb_spec (len ptr) BLOCK_BYTES) as [Hgt|Hle].
    + pose proof (flushBlock_keeps a Ha) as Hk.
      destruct (flushBlock a) as [a1|f] eqn:E; cbn [bind keeps] in *; [|exact Hk].
      apply flushBlock_ok in E. destruct E as [E _].
      set (a2 := store a1 0 (slice 0 BLOCK_BYTES ptr) BLOCK_BYTES).
      assert (Hlen : len (slice 0 BLOCK_BYTES ptr) = BLOCK_BYTES)
        by (apply len_slice; consts; lia).
      assert (Ha2 : SaveInv a2 /\ offset_ a2 = BLOCK_BYTES).
      { subst a2 a1. unfold SaveInv, store, memcpy_at.
        cbn [s_buffer_ offset_ first_block_ Z.to_nat firstn app].
        rewrite Hlen. consts. repeat split; try lia; discriminate. }
      destruct Ha2 as [Ha2 Ho2].
      assert (Hskip : len (skipn (Z.to_nat BLOCK_BYTES) ptr) = len ptr - BLOCK_BYTES)
        by (apply len_skipn; consts; lia).
      specialize (IH (skipn (Z.to_nat BLOCK_BYTES) ptr) a2).
      assert (Hf : (length (skipn (Z.to_nat BLOCK_BYTES) ptr) <= fuel)%nat).
      { rewrite length_skipn. assert (0 < BLOCK_BYTES) by reflexivity.
        unfold len in Hgt. lia. }
      specialize (IH Hf Ha2).
      destruct (save_binary_loop fuel _ a2) as [[rest a3]|f]; cbn [keeps fst snd] in *;
        [|exact IH].
      destruct IH as (H1 & H2 & H3 & H4). split; [exact H1|]. split; [exact H2|].
      split; [|intros; lia]. intros _. destruct (Z_lt_ge_dec BLOCK_BYTES (len ptr - BLOCK_BYTES)).
      * apply H3. lia.
      * specialize (H4 ltac:(lia)). apply (f_equal snd) in H4. cbn [snd] in H4.
        rewrite H4. exact Ho2.
    + cbn [keeps fst snd]. split; [exact Ha|]. split; [lia|].
      split; [intros; lia|reflexivity].
Qed.

Lemma save_binary_keeps bytes a :
  SaveInv a -> keeps SaveInv header_failure (save_binary bytes a).
Proof.
  intros Ha. unfold save_binary.
  pose proof (save_binary_loop_keeps (length bytes) bytes a (le_n _) Ha) as Hk.
  destruct (save_binary_loop _ bytes a) as [[rest a1]|f]; cbn [bind keeps fst snd] in *;
    [|exact Hk].
  destruct Hk as (H1 & H2 & _).
  destruct (Z.gtb_spec (offset_ a1 + len rest) BLOCK_BYTES).
  - pose proof (flushBlock_keeps a1 H1) as Hk.
    destruct (flushBlock a1) as [a2|f] eqn:E; cbn [bind keeps] in *; [|exact Hk].
    apply SaveInv_store; [exact Hk|].
    apply flushBlock_ok in E. destruct E as [-> _]. cbn [offset_]. lia.
  - cbn [bind keeps]. apply SaveInv_store; [exact H1|lia].
Qed.

Lemma save_value_inv v a : SaveInv a -> keeps SaveInv header_failure (save_value v a).
Proof.
  apply save_value_keeps.
  - intros bytes b. apply save_keeps.
  - intros p b Hb. exact Hb.
  - intros bytes b. apply save_binary_keeps.
Qed.

Lemma save_values_inv vs a : SaveInv a -> keeps SaveInv header_failure (save_values vs a).
Proof.
  apply save_values_keeps.
  - intros bytes b. apply save_keeps.
  - intros p b Hb. exact Hb.
  - intros bytes b. apply save_binary_keeps.
Qed.

Lemma save_header_inv h :
  len h = headSz -> head_compression h = 0 ->
  exists a, save h (Save_initBlock []) = Ok a /\ SaveInv a
            /\ s_buffer_ a = h /\ first_block_ a = true
            /\ s_stream_ a = [] /\ lz4Stream a = [].
Proof.
  intros Hl Hc. unfold save, Save_initBlock. rewrite Hl.
  change (negb (headSz <? BLOCK_BYTES)) with false. cbn [offset_].
  change (0 + headSz >? BLOCK_BYTES) with false. cbn [bind].
  eexists. split; [reflexivity|].
  unfold SaveInv, store, memcpy_at.
  cbn [s_buffer_ offset_ first_block_ s_stream_ lz4Stream Z.to_nat firstn app].
  rewrite Hl. split; [|repeat split; reflexivity].
  split; [reflexivity|]. split; [consts; lia|].
  intros _. split; [consts; lia|].
  rewrite slice_0_all by (symmetry; exact Hl). exact Hc.
Qed.

End HeaderFirst.


(** C10: when the first value saved is a header (80 bytes) whose
    compression field is 0, no flush, during the saves that follow or at
    destruction, fails the assertion [head->compression == 0] or runs into an
    undefined read; in particular at a first flush the accumulated offset
    is at least header-size, so [offset_ - headSz] does not wrap around, and
    only the bytes after the header are handed to the compressor.  Without
    any save the destructor's flush is undefined. *)
Theorem header_first {L : LZ4} (h : list byte) (values : list value) :
  len h = headSz -> head_compression h = 0 ->
  keeps (fun _ => True) header_failure (save_archive h values)
  /\ (forall a, saved_after h values = Ok a ->
      SaveInv a
      /\ (first_block_ a = true ->
          headSz <= offset_ a
          /\ wrap64 (offset_ a - headSz) = offset_ a - headSz
          /\ head_compression (slice 0 headSz (s_buffer_ a)) = 0
          /\ flush_src a = skipn 80 (s_buffer_ a)))
  /\ Save_close (Save_initBlock []) = Fail Undefined.
Proof.
  intros Hl Hc.
  destruct (save_header_inv h Hl Hc) as (a1 & Hs & Ha1 & _).
  assert (Hk : keeps SaveInv header_failure (saved_after h values)).
  { unfold saved_after. rewrite Hs. cbn [bind]. now apply save_values_inv. }
  split; [|split; [|reflexivity]].
  - unfold save_archive. destruct (saved_after h values) as [a|f]; cbn [bind keeps] in *;
      [|exact Hk].
    unfold Save_close. pose proof (flushBlock_keeps a Hk) as Hf.
    destruct (flushBlock a); cbn [bind keeps] in *; [exact I|exact Hf].
  - intros a Ha. rewrite Ha in Hk. cbn [keeps] in Hk. split; [exact Hk|].
    intros Hfirst. pose proof (flush_src_inv a Hk) as Hsrc. rewrite Hfirst in Hsrc.
    destruct Hk as (Ho & Hr & Hf). destruct (Hf Hfirst) as [Hh Hz].
    split; [exact Hh|]. split; [apply wrap64_small; consts; lia|].
    split; [exact Hz|exact Hsrc].
Qed.

Lemma header_first_witness :
  len header_v11 = headSz /\ head_compression header_v11 = 0
  /\ keeps (fun _ => True) header_failure (save_archive header_v11 sample_values)
  /\ is_ok (save_archive header_v11 sample_values) = true.
Proof.
  assert (Hl : len header_v11 = headSz) by reflexivity.
  assert (Hc : head_compression header_v11 = 0) by reflexivity.
  split; [exact Hl|]. split; [exact Hc|].
  split; [exact (proj1 (header_first (L := StoredLZ4) header_v11 sample_values Hl Hc))|].
  vm_compute. reflexivity.
Defined.


(** ** SizeArchive against SaveArchive *)

Lemma total_app l1 l2 : total (l1 ++ l2) = total l1 + total l2.
Proof. unfold total. induction l1 as [|x l IH]; cbn [fold_right app]; lia. Qed.

Section Accounting.
Context {A : Type} {OA : OutputArchive A}.
Variable P : A -> Prop.
Variable Step : Z -> A -> A -> Prop.
Variable ptrcost : Z.
Hypothesis Step_refl : forall a, P a -> Step 0 a a.
Hypothesis Step_trans : forall n m a b c,
  Step n a b -> Step m b c -> Step (n + m) a c.
Hypothesis Hsave : forall bytes a a',
  P a -> ar_save bytes a = Ok a' -> P a' /\ Step (len bytes) a a'.
Hypothesis Hpointer : forall p a a',
  P a -> ar_save_pointer p a = Ok a' -> P a' /\ Step ptrcost a a'.
Hypothesis Hbinary : forall bytes a a',
  P a -> ar_save_binary bytes a = Ok a' -> P a' /\ Step (len bytes) a a'.

Lemma Step_eq n m a b : n = m -> Step n a b -> Step m a b.
Proof. now intros ->. Qed.

Lemma save_values_account (f : value -> Z) vs :
  Forall (fun v => forall a a', P a -> save_value v a = Ok a' ->
                                P a' /\ Step (f v) a a') vs ->
  forall a a', P a -> save_values vs a = Ok a' ->
               P a' /\ Step (total (map f vs)) a a'.
Proof.
  induction 1 as [|v l Hv _ IH]; intros a a' Ha H; cbn [save_values] in H.
  - injection H as <-. split; [exact Ha|]. now apply Step_refl.
  - inv_bind H. destruct (Hv _ _ Ha E) as [Hx Sx].
    destruct (IH _ _ Hx H) as [Ha' S']. split; [exact Ha'|].
    cbn [map total fold_right]. eapply Step_trans; eauto.
Qed.

Lemma save_value_account v : forall a a',
  P a -> save_value v a = Ok a' -> P a' /\ Step (cost ptrcost v) a a'.
Proof.
  unfold cost.
  induction v as [bytes|n|elems IH|entries IH|p|bytes|fields IH] using value_ind;
    intros a a' Ha H; cbn [encoded_size pointer_fields].
  - cbn [save_value] in H. destruct (Hsave _ _ _ Ha H) as [Ha' S]. split; [exact Ha'|].
    eapply Step_eq; [|exact S]. lia.
  - cbn [save_value] in H. destruct (Hsave _ _ _ Ha H) as [Ha' S]. split; [exact Ha'|].
    eapply Step_eq; [|exact S]. unfold int_bytes, len. rewrite le_encode_length.
    unfold sizeof_int. lia.
  - rewrite save_value_vector in H. inv_bind H.
    destruct (Hsave _ _ _ Ha E) as [Hx Sx].
    destruct (save_values_account (fun v => encoded_size v + ptrcost * pointer_fields v)
                elems IH _ _ Hx H) as [Ha' S'].
    split; [exact Ha'|]. eapply Step_eq; [|eapply Step_trans; [exact Sx|exact S']].
    rewrite size_t_bytes_length. unfold sizeof_size_t.
    assert (Hsum : forall l,
      total (map (fun v => encoded_size v + ptrcost * pointer_fields v) l)
      = total (map encoded_size l) + ptrcost * total (map pointer_fields l)).
    { induction l as [|y l IHl]; cbn [map total fold_right]; [lia|].
      fold (total (map (fun v => encoded_size v + ptrcost * pointer_fields v) l)).
      fold (total (map encoded_size l)). fold (total (map pointer_fields l)). lia. }
    rewrite Hsum. lia.
  - rewrite save_value_map in H. inv_bind H.
    destruct (Hsave _ _ _ Ha E) as [Hx Sx].
    assert (Hent : forall b b', P b -> save_entries entries b = Ok b' ->
      P b' /\ Step (total (map (fun e => encoded_size (fst e) + encoded_size (snd e)) entries)
                    + ptrcost * total (map (fun e => pointer_fields (fst e)
                                                     + pointer_fields (snd e)) entries))
                 b b').
    { clear - IH Step_refl Step_trans. induction IH as [|[k y] l [Hk Hy] _ IHl];
        intros b b' Hb Hs; cbn [save_entries] in Hs.
      - injection Hs as <-. split; [exact Hb|].
        cbn [map total fold_right]. eapply Step_eq; [|now apply Step_refl]. lia.
      - inv_bind Hs. inv_bind Hs. cbn [fst snd] in *.
        destruct (Hk _ _ Hb E) as [H1 S1]. destruct (Hy _ _ H1 E0) as [H2 S2].
        destruct (IHl _ _ H2 Hs) as [H3 S3]. split; [exact H3|].
        eapply Step_eq; [|eapply Step_trans; [eapply Step_trans; [exact S1|exact S2]|exact S3]].
        cbn [map total fold_right fst snd]. unfold total. lia. }
    destruct (Hent _ _ Hx H) as [Ha' S']. split; [exact Ha'|].
    eapply Step_eq; [|eapply Step_trans; [exact Sx|exact S']].
    rewrite size_t_bytes_length. unfold sizeof_size_t. lia.
  - cbn [save_value] in H. destruct (Hpointer _ _ _ Ha H) as [Ha' S]. split; [exact Ha'|].
    eapply Step_eq; [|exact S]. lia.
  - cbn [save_value] in H. destruct (Hbinary _ _ _ Ha H) as [Ha' S]. split; [exact Ha'|].
    eapply Step_eq; [|exact S]. lia.
  - rewrite save_value_struct in H.
    destruct (save_values_account (fun v => encoded_size v + ptrcost * pointer_fields v)
                fields IH _ _ Ha H) as [Ha' S'].
    split; [exact Ha'|]. eapply Step_eq; [|exact S'].
    clear. induction fields as [|y l IHl]; cbn [map total fold_right]; [lia|].
    fold (total (map (fun v => encoded_size v + ptrcost * pointer_fields v) l)).
    fold (total (map encoded_size l)). fold (total (map pointer_fields l)). lia.
Qed.

End Accounting.

Lemma wrap64_add_l a b : wrap64 (wrap64 a + b) = wrap64 (a + b).
Proof. unfold wrap64. apply Zplus_mod_idemp_l. Qed.

Lemma size_archive_total v : forall s s',
  0 <= size_ s < SIZE_MAX1 ->
  save_value v s = Ok s' ->
  0 <= size_ s' < SIZE_MAX1 /\ size_ s' = wrap64 (size_ s + cost sizeof_ptr v).
Proof.
  apply (save_value_account (fun s => 0 <= size_ s < SIZE_MAX1)
           (fun n s s' => size_ s' = wrap64 (size_ s + n)) sizeof_ptr).
  - intros s Hs. rewrite Z.add_0_r. symmetry. apply Z.mod_small. exact Hs.
  - intros n m a b c Hab Hbc. rewrite Hbc, Hab, wrap64_add_l. f_equal. lia.
  - intros bytes s s' Hs H. cbn in H. injection H as <-. cbn [Size_save size_].
    split; [apply wrap64_range|reflexivity].
  - intros p s s' Hs H. cbn in H. injection H as <-. cbn [Size_save size_].
    split; [apply wrap64_range|reflexivity].
  - intros bytes s s' Hs H. cbn in H. injection H as <-. cbn [Size_save_binary size_].
    split; [apply wrap64_range|reflexivity].
Qed.

Lemma size_archive_runs v s : exists s', save_value v s = Ok s'.
Proof.
  pose proof (save_value_keeps (fun _ : SizeArchive => True) (fun _ => True)) as H.
  specialize (H (fun _ _ _ => I) (fun _ _ _ => I) (fun _ _ _ => I) v s I).
  destruct (save_value v s) as [s'|f]; [eauto|]. cbn [keeps] in H. now destruct H.
Qed.

Section StoredBytes.
Context {L : LZ4}.

Lemma stored_flushed a a' :
  SaveInv a -> flushBlock a = Ok a' -> stored_bytes a' = stored_bytes a.
Proof.
  intros Ha H. pose proof (flush_src_inv a Ha) as Hsrc.
  apply flushBlock_ok in H. destruct H as [-> _]. unfold stored_bytes.
  cbn [lz4Stream offset_ first_block_].
  rewrite map_app, total_app. cbn [map total fold_right]. rewrite Hsrc.
  destruct Ha as (Ho & Hr & Hf). destruct (first_block_ a).
  - destruct (Hf eq_refl) as [Hh _].
    change 80%nat with (Z.to_nat 80). rewrite len_skipn by (consts; lia). consts. lia.
  - consts. lia.
Qed.

Lemma stored_store a at_ bytes n :
  stored_bytes (store a at_ bytes n) = stored_bytes a + n.
Proof. unfold stored_bytes, store. cbn [lz4Stream offset_ first_block_]. lia. Qed.

Lemma save_stored bytes a a' :
  SaveInv a -> save bytes a = Ok a' ->
  SaveInv a' /\ stored_bytes a' = stored_bytes a + len bytes.
Proof.
  intros Ha H. pose proof (save_keeps bytes a Ha) as Hk. rewrite H in Hk.
  split; [exact Hk|]. unfold save in H.
  destruct (negb _); [discriminate|]. inv_bind H. injection H as <-.
  rewrite stored_store. destruct (_ >? _).
  - now rewrite (stored_flushed a x Ha E).
  - injection E as <-. reflexivity.
Qed.

Lemma save_binary_loop_stored fuel : forall ptr a rest a',
  SaveInv a -> save_binary_loop fuel ptr a = Ok (rest, a') ->
  stored_bytes a' + len rest = stored_bytes a + len ptr.
Proof.
  induction fuel as [|fuel IH]; intros ptr a rest a' Ha H; cbn [save_binary_loop] in H.
  - destruct (_ >? _); [discriminate|]. injection H as <- <-. reflexivity.
  - destruct (Z.gtb_spec (len ptr) BLOCK_BYTES) as [Hgt|Hle].
    + inv_bind H. pose proof (stored_flushed a x Ha E) as Hst.
      pose proof (SaveInv_flushed a x E) as Hx.
      apply flushBlock_ok in E. destruct E as [E _].
      set (a2 := store x 0 (slice 0 BLOCK_BYTES ptr) BLOCK_BYTES) in *.
      assert (Hlen : len (slice 0 BLOCK_BYTES ptr) = BLOCK_BYTES)
        by (apply len_slice; consts; lia).
      assert (Ha2 : SaveInv a2).
      { subst a2 x. unfold SaveInv, store, memcpy_at.
        cbn [s_buffer_ offset_ first_block_ Z.to_nat firstn app].
        rewrite Hlen. consts. repeat split; try lia; discriminate. }
      apply IH in H; [|exact Ha2]. subst a2. rewrite stored_store in H.
      rewrite len_skipn in H by (consts; lia). lia.
    + injection H as <- <-. reflexivity.
Qed.

Lemma save_binary_stored bytes a a' :
  SaveInv a -> save_binary bytes a = Ok a' ->
  SaveInv a' /\ stored_bytes a' = stored_bytes a + len bytes.
Proof.
  intros Ha H. pose proof (save_binary_keeps bytes a Ha) as Hk. rewrite H in Hk.
  split; [exact Hk|]. unfold save_binary in H. inv_bind H. destruct x as [rest a1].
  pose proof (save_binary_loop_keeps _ bytes a (le_n _) Ha) as Hk1.
  rewrite E in Hk1. cbn [keeps fst snd] in Hk1. destruct Hk1 as [Ha1 _].
  apply save_binary_loop_stored in E; [|exact Ha].
  inv_bind H. injection H as <-. rewrite stored_store. destruct (_ >? _).
  - rewrite (stored_flushed a1 x Ha1 E0). lia.
  - injection E0 as <-. lia.
Qed.

Lemma save_value_stored v a a' :
  SaveInv a -> save_value v a = Ok a' ->
  SaveInv a' /\ stored_bytes a' = stored_bytes a + encoded_size v.
Proof.
  intros Ha H.
  assert (G : SaveInv a' /\ stored_bytes a' = stored_bytes a + cost 0 v).
  { revert a a' Ha H.
    apply (save_value_account SaveInv
             (fun n a a' => stored_bytes a' = stored_bytes a + n) 0).
    - intros; lia.
    - intros; lia.
    - intros bytes b b'. apply save_stored.
    - intros p b b' Hb E. cbn in E. injection E as <-. split; [exact Hb|lia].
    - intros bytes b b'. apply save_binary_stored. }
  destruct G as [Ha' S]. split; [exact Ha'|]. unfold cost in S. lia.
Qed.

End StoredBytes.

(** The claim as stated fails for a value with a pointer-typed field: the
    SizeArchive adds [sizeof] of the pointer, the SaveArchive copies
    nothing for it. *)
Lemma size_archive_counts_pointers :
  let v := VStruct [VScalar [x01; x02; x03; x04]; VPointer 4096] in
  let a := state_after header_v11 [] in
  let a' := state_after header_v11 [v] in
  size_of_value v = Ok {| size_ := 12 |}
  /\ save_value v a = Ok a'
  /\ stored_bytes a' - stored_bytes a = 4.
Proof. cbv zeta. repeat split; vm_compute; reflexivity. Qed.

(** C2 (amended): the running total of a SizeArchive that visits a value
    equals (modulo the width of size_t) the number of bytes the SaveArchive
    copies into its blocks for that value plus the size of a pointer (8) for every
    pointer-typed field visited; for a value without pointer-typed fields
    the two agree. *)
Theorem size_archive_agreement {L : LZ4} (v : value) (a a' : SaveArchive) :
  SaveInv a -> save_value v a = Ok a' ->
  exists s,
    size_of_value v = Ok s
    /\ stored_bytes a' - stored_bytes a = encoded_size v
    /\ size_ s = wrap64 (stored_bytes a' - stored_bytes a + sizeof_ptr * pointer_fields v)
    /\ (pointer_fields v = 0 -> size_ s = wrap64 (stored_bytes a' - stored_bytes a)).
Proof.
  intros Ha H. destruct (save_value_stored v a a' Ha H) as [_ Hst].
  destruct (size_archive_runs v SizeArchive_new) as [s Hs].
  exists s. split; [exact Hs|]. split; [lia|].
  destruct (size_archive_total v SizeArchive_new s) as [_ Hsz]; [cbn; lia|exact Hs|].
  cbn [SizeArchive_new size_] in Hsz. unfold cost in Hsz. rewrite Z.add_0_l in Hsz.
  replace (stored_bytes a' - stored_bytes a) with (encoded_size v) by lia.
  split; [exact Hsz|]. intros Hp. rewrite Hsz, Hp. f_equal. lia.
Qed.

Lemma size_archive_agreement_witness :
  let v := VStruct [VScalar [x01; x02]; VVector [VEnum 5; VEnum (-3)]; VBinary [x09]] in
  let a := state_after header_v11 [] in
  let a' := state_after header_v11 [v] in
  SaveInv a /\ save_value v a = Ok a'
  /\ exists s, size_of_value v = Ok s /\ size_ s = wrap64 (stored_bytes a' - stored_bytes a).
Proof.
  cbv zeta.
  assert (Ha : SaveInv (state_after header_v11 [])).
  { repeat split; try (vm_compute; congruence); vm_compute; reflexivity. }
  assert (H : save_value
                (VStruct [VScalar [x01; x02]; VVector [VEnum 5; VEnum (-3)]; VBinary [x09]])
                (state_after header_v11 [])
              = Ok (state_after header_v11
                      [VStruct [VScalar [x01; x02]; VVector [VEnum 5; VEnum (-3)];
                                VBinary [x09]]]))
    by (vm_compute; reflexivity).
  split; [exact Ha|]. split; [exact H|].
  destruct (size_archive_agreement (L := StoredLZ4) _ _ _ Ha H) as (s & Hs & _ & _ & Hp).
  exists s. split; [exact Hs|]. apply Hp. reflexivity.
Defined.


(** ** The writer: blocks, frames and their growth *)

Lemma extends_refl init last : extends (init ++ [last]) (init ++ [last]).
Proof. exists init, last, [], []. now rewrite app_nil_r. Qed.

Lemma snoc_inj {A} (l1 l2 : list A) x y : l1 ++ [x] = l2 ++ [y] -> l1 = l2 /\ x = y.
Proof. intros H. apply app_inj_tail in H. exact H. Qed.

Lemma extends_trans c1 c2 c3 : extends c1 c2 -> extends c2 c3 -> extends c1 c3.
Proof.
  intros (i1 & l1 & x1 & r1 & -> & E2) (i2 & l2 & x2 & r2 & E2' & ->).
  rewrite E2 in E2'. clear E2.
  destruct r1 as [|b r1] using rev_ind.
  - change (i1 ++ [l1 ++ x1] = i2 ++ [l2]) in E2'.
    apply snoc_inj in E2'. destruct E2' as [<- <-].
    exists i1, l1, (x1 ++ x2), r2. split; [reflexivity|]. now rewrite app_assoc.
  - clear IHr1.
    change (i1 ++ (l1 ++ x1) :: r1 ++ [b]) with (i1 ++ ((l1 ++ x1) :: r1) ++ [b]) in E2'.
    rewrite app_assoc in E2'. apply snoc_inj in E2'. destruct E2' as [<- <-].
    exists i1, l1, x1, (r1 ++ (b ++ x2) :: r2). split; [reflexivity|].
    rewrite <- app_assoc. reflexivity.
Qed.

Section Writer.
Context {L : LZ4}.

Lemma encode_frames_app hist xs ys :
  encode_frames hist (xs ++ ys)
  = encode_frames hist xs ++ encode_frames (hist ++ xs) ys.
Proof.
  revert hist. induction xs as [|x xs IH]; intros hist; cbn [app encode_frames].
  - now rewrite app_nil_r.
  - rewrite IH, <- !app_assoc. reflexivity.
Qed.

Lemma good_frames_app hist xs ys :
  good_frames hist (xs ++ ys) <-> good_frames hist xs /\ good_frames (hist ++ xs) ys.
Proof.
  revert hist. induction xs as [|x xs IH]; intros hist; cbn [app good_frames].
  - rewrite app_nil_r. tauto.
  - rewrite IH, <- app_assoc. cbn [app]. tauto.
Qed.

Lemma flush_src_store a bytes :
  SaveInv a -> offset_ a + len bytes <= BLOCK_BYTES ->
  flush_src (store a (offset_ a) bytes (len bytes)) = flush_src a ++ bytes.
Proof.
  intros Ha Hfit. pose proof (SaveInv_store a bytes Ha Hfit) as Ha'.
  rewrite (flush_src_inv _ Ha'), (flush_src_inv _ Ha).
  destruct Ha as (Ho & Hr & Hf). unfold store. cbn [s_buffer_ first_block_].
  rewrite Ho, memcpy_at_end. destruct (first_block_ a); [|reflexivity].
  destruct (Hf eq_refl) as [Hh _].
  rewrite skipn_app. replace (80 - length (s_buffer_ a))%nat with 0%nat; [reflexivity|].
  unfold len in *. consts. lia.
Qed.

Lemma content_store a bytes :
  SaveInv a -> offset_ a + len bytes <= BLOCK_BYTES ->
  extends (content a) (content (store a (offset_ a) bytes (len bytes))).
Proof.
  intros Ha Hfit. unfold content. rewrite flush_src_store by assumption.
  exists (lz4Stream a), (flush_src a), bytes, []. split; reflexivity.
Qed.

Lemma content_flushed a a' :
  flushBlock a = Ok a' ->
  content a' = content a ++ [[]] /\ extends (content a) (content a').
Proof.
  intros H. apply flushBlock_ok in H. destruct H as [-> _].
  assert (E : content
                {| s_stream_ := s_stream_ a ++ flush_frame a; s_buffer_ := [];
                   s_other_half := negb (s_other_half a); offset_ := 0;
                   first_block_ := false; lz4Stream := lz4Stream a ++ [flush_src a] |}
              = content a ++ [[]]) by reflexivity.
  split; [exact E|]. rewrite E. unfold content.
  exists (lz4Stream a), (flush_src a), [], [[]]. split; [reflexivity|].
  rewrite app_nil_r, <- app_assoc. reflexivity.
Qed.

Lemma WriterInv_flushed h a a' :
  WriterInv h a -> flushBlock a = Ok a' -> WriterInv h a'.
Proof.
  intros (Ha & Hl & Hs & Hg & Hfirst & Hlater) H.
  pose proof (SaveInv_flushed a a' H) as Ha'.
  pose proof (flush_src_inv a Ha) as Hsrc.
  apply flushBlock_ok in H. destruct H as [-> Hcomp].
  unfold WriterInv. cbn [s_stream_ lz4Stream first_block_].
  split; [exact Ha'|]. split; [exact Hl|].
  assert (Hlen : len (flush_src a) <= BLOCK_BYTES).
  { rewrite Hsrc. destruct Ha as (Ho & Hr & Hf). destruct (first_block_ a).
    - destruct (Hf eq_refl) as [Hh _]. change 80%nat with (Z.to_nat 80).
      rewrite len_skipn by (consts; lia). lia.
    - lia. }
  split; [|split; [|split]].
  - rewrite Hs. unfold flush_frame, flush_comp. destruct (first_block_ a).
    + destruct (Hfirst eq_refl) as [-> ->]. cbn [app stream_of_blocks encode_frames].
      now rewrite app_nil_r.
    + destruct (lz4Stream a) as [|p0 ps] eqn:E; [now destruct (Hlater eq_refl)|].
      cbn [app stream_of_blocks]. rewrite encode_frames_app.
      cbn [encode_frames app]. rewrite app_nil_r, <- !app_assoc. reflexivity.
  - apply good_frames_app. split; [exact Hg|]. cbn [good_frames app].
    split; [exact Hlen|]. split; [exact Hcomp|exact I].
  - discriminate.
  - intros _ E. now destruct (lz4Stream a).
Qed.

Lemma WriterInv_store h a bytes :
  WriterInv h a -> offset_ a + len bytes <= BLOCK_BYTES ->
  WriterInv h (store a (offset_ a) bytes (len bytes)).
Proof.
  intros (Ha & Hl & Hs & Hg & Hfirst & Hlater) Hfit.
  unfold WriterInv. split; [now apply SaveInv_store|].
  unfold store. cbn [s_stream_ lz4Stream first_block_ s_buffer_].
  split; [exact Hl|]. split; [exact Hs|]. split; [exact Hg|]. split; [|exact Hlater].
  intros Hf. destruct (Hfirst Hf) as [Hn Hh]. split; [exact Hn|].
  destruct Ha as (Ho & Hr & Hfb). destruct (Hfb Hf) as [Hge _].
  rewrite Ho, memcpy_at_end, slice_app_l by (consts; lia). exact Hh.
Qed.

Lemma grows_trans h a b c : grows h a b -> grows h b c -> grows h a c.
Proof. intros [_ E1] [H2 E2]. split; [exact H2|]. eapply extends_trans; eauto. Qed.

Lemma grows_refl h a : WriterInv h a -> grows h a a.
Proof. intros H. split; [exact H|]. apply extends_refl. Qed.

Lemma grows_flushed h a a' : WriterInv h a -> flushBlock a = Ok a' -> grows h a a'.
Proof.
  intros Ha H. split; [eapply WriterInv_flushed; eauto|].
  now apply content_flushed.
Qed.

Lemma grows_store h a bytes :
  WriterInv h a -> offset_ a + len bytes <= BLOCK_BYTES ->
  grows h a (store a (offset_ a) bytes (len bytes)).
Proof.
  intros Ha Hfit. split; [now apply WriterInv_store|].
  apply content_store; [apply Ha|exact Hfit].
Qed.

End Writer.


(** ** The reader on a framed stream *)

Lemma slice_mid (pre x y : list byte) : slice (len pre) (len x) (pre ++ x ++ y) = x.
Proof.
  unfold slice, len. rewrite !Nat2Z.id.
  rewrite skipn_app, skipn_all, Nat.sub_diag. cbn [skipn app].
  rewrite firstn_app, firstn_all, Nat.sub_diag. cbn [firstn]. now rewrite app_nil_r.
Qed.

Lemma fread_at f pre x y :
  f_data f = pre ++ x ++ y -> f_pos f = len pre -> 0 < len x ->
  fread (len x) f = (Some x, fseek_set f (len (pre ++ x))).
Proof.
  intros Hd Hp Hx. rewrite fread_succeeds.
  - rewrite Hd, Hp, slice_mid, len_app. reflexivity.
  - exact Hx.
  - unfold file_end. rewrite Hd, Hp, !len_app. pose proof (len_nonneg y). lia.
Qed.

Section Reader.
Context {L : LZ4} {LC : LZ4Correct L}.

Lemma compressed_below_bound hist b :
  len b <= BLOCK_BYTES ->
  len (LZ4_compress_HC_continue hist b (LZ4_COMPRESSBOUND BLOCK_BYTES))
  < LZ4_COMPRESSBOUND BLOCK_BYTES.
Proof.
  intros Hb. pose proof (compress_worst_case hist b (LZ4_COMPRESSBOUND BLOCK_BYTES)) as H.
  pose proof (len_nonneg b) as H0. rewrite bound_BLOCK_BYTES in *.
  assert (len b / 255 < 258).
  { apply Z.div_lt_upper_bound; unfold BLOCK_BYTES in *; lia. }
  unfold BLOCK_BYTES in *. lia.
Qed.

(** Reading inside the active block. *)
Lemma read_in_block s r hist B o rest n :
  ReaderAt s r hist B o rest -> 0 <= o -> 0 <= n -> o + n <= len B ->
  exists r', read_piece n r = Ok (slice o n B, r')
             /\ ReaderAt s r' hist B (o + n) rest.
Proof.
  intros (Hb & Hsz & Hp & Hh & Hc & Hd & Hpre) Ho Hn Hfit.
  unfold read_piece, preparePtr. rewrite Hp, Hsz.
  destruct (Z.leb_spec (o + n) (len B)); [|lia]. cbn [bind]. unfold fetch.
  rewrite Hp, Hsz. destruct (Z.ltb_spec (len B) (o + n)); [lia|].
  eexists. split; [rewrite Hb; reflexivity|].
  unfold ReaderAt. cbn. auto 10.
Qed.

(** Reading past the end of the active block: the next block is loaded. *)
Lemma read_next_block s r hist B o b rest n :
  ReaderAt s r hist B o (b :: rest) ->
  len B < o + n -> 0 <= n <= len b -> 0 < len b <= BLOCK_BYTES ->
  LZ4_compress_HC_continue hist b (LZ4_COMPRESSBOUND BLOCK_BYTES) <> [] ->
  exists r', read_piece n r = Ok (slice 0 n b, r')
             /\ ReaderAt s r' (hist ++ [b]) b n rest.
Proof.
  intros (Hb & Hsz & Hp & Hh & Hc & Hd & pre & Hs & Hpos) Hpast Hn Hlen Hcomp.
  set (c := LZ4_compress_HC_continue hist b (LZ4_COMPRESSBOUND BLOCK_BYTES)) in *.
  assert (Hc0 : 0 < len c).
  { destruct c; [congruence|]. rewrite len_cons. pose proof (len_nonneg c). lia. }
  assert (Hcb : len c < LZ4_COMPRESSBOUND BLOCK_BYTES)
    by (apply compressed_below_bound; lia).
  cbn [encode_frames] in Hs. fold c in Hs.
  unfold read_piece, preparePtr. rewrite Hp, Hsz.
  destruct (Z.leb_spec (o + n) (len B)); [lia|].
  assert (Hr1 : fread sizeof_size_t (l_stream_ r)
                = (Some (size_t_bytes (len c)),
                   fseek_set (l_stream_ r) (len (pre ++ size_t_bytes (len c))))).
  { rewrite <- (size_t_bytes_length (len c)) at 1. apply (fread_at _ pre _
      (c ++ encode_frames (hist ++ [b]) rest ++ size_t_bytes 0)).
    - rewrite Hd, Hs, <- !app_assoc. reflexivity.
    - exact Hpos.
    - rewrite size_t_bytes_length. lia. }
  rewrite Hr1.
  rewrite size_t_roundtrip by (subst c; apply compressed_size_fits).
  destruct (Z.leb_spec (len c) 0); [lia|]. cbn [orb negb Z.eqb Pos.eqb].
  unfold loadBlock. cbn [l_stream_ compressed_buffer_ lz4StreamDecode].
  destruct (Z.geb_spec (len c) (LZ4_COMPRESSBOUND BLOCK_BYTES)); [lia|].
  destruct Hc as [Hbb Hcap]. rewrite Hcap.
  destruct (Z.ltb_spec (LZ4_COMPRESSBOUND BLOCK_BYTES) (len c)); [lia|].
  assert (Hr2 : fread (len c) (fseek_set (l_stream_ r) (len (pre ++ size_t_bytes (len c))))
                = (Some c, fseek_set (l_stream_ r)
                             (len ((pre ++ size_t_bytes (len c)) ++ c)))).
  { rewrite (fread_at _ (pre ++ size_t_bytes (len c)) c
               (encode_frames (hist ++ [b]) rest ++ size_t_bytes 0)).
    - reflexivity.
    - cbn [f_data fseek_set]. rewrite Hd, Hs, <- !app_assoc. reflexivity.
    - reflexivity.
    - exact Hc0. }
  rewrite Hr2. rewrite Hh. subst c.
  rewrite decompress_compress by (assumption || lia).
  destruct (Z.leb_spec (len b) 0); [lia|]. cbn [bind]. unfold with_block, fetch.
  cbn [block_sz_ ptr_ l_buffer_ l_stream_ l_other_half buffer_blocks_
       compressed_buffer_ lz4StreamDecode].
  destruct (Z.ltb_spec (len b) (0 + n)); [lia|].
  eexists. split; [reflexivity|].
  unfold ReaderAt, current_format.
  cbn [l_buffer_ block_sz_ ptr_ lz4StreamDecode l_stream_ f_data fseek_set f_pos
       buffer_blocks_ compressed_buffer_].
  split; [reflexivity|]. split; [reflexivity|]. split; [lia|]. split; [reflexivity|].
  split; [split; [assumption|reflexivity]|]. split; [exact Hd|].
  exists ((pre ++ size_t_bytes (len (LZ4_compress_HC_continue hist b
                                          (LZ4_COMPRESSBOUND BLOCK_BYTES))))
          ++ LZ4_compress_HC_continue hist b (LZ4_COMPRESSBOUND BLOCK_BYTES)).
  split; [|reflexivity]. rewrite Hs, <- !app_assoc. reflexivity.
Qed.

End Reader.


(** ** One piece written, one piece read *)

Section Pieces.
Context {L : LZ4} {LC : LZ4Correct L}.
Variable h : list byte.
Variable blocks : list (list byte).
Variable s : list byte.
Hypothesis blocks_good : good_frames [] blocks.

Lemma extends_content a :
  extends (content a) blocks ->
  exists x rest, blocks = lz4Stream a ++ (flush_src a ++ x) :: rest.
Proof.
  intros (init & last & x & rest & E & ->). unfold content in E.
  apply snoc_inj in E. destruct E as [<- <-]. eauto.
Qed.

Lemma flush_src_length a :
  SaveInv a ->
  len (flush_src a) = offset_ a - (if first_block_ a then headSz else 0).
Proof.
  intros Ha. rewrite (flush_src_inv a Ha). destruct Ha as (Ho & Hr & Hf).
  destruct (first_block_ a).
  - destruct (Hf eq_refl) as [Hh _]. change 80%nat with (Z.to_nat 80).
    rewrite len_skipn by (consts; lia). consts. lia.
  - lia.
Qed.

Lemma piece_stays a r piece :
  WriterInv h a -> offset_ a + len piece <= BLOCK_BYTES ->
  extends (content (store a (offset_ a) piece (len piece))) blocks ->
  At h blocks s a r ->
  exists r', read_piece (len piece) r = Ok (piece, r')
             /\ At h blocks s (store a (offset_ a) piece (len piece)) r'.
Proof.
  intros Hw Hfit Hext (x & rest & Hb & Hr).
  destruct Hw as (Ha & Hl & _).
  apply extends_content in Hext. destruct Hext as (x' & rest' & Hb').
  rewrite (flush_src_store a piece Ha Hfit) in Hb'.
  change (lz4Stream (store a (offset_ a) piece (len piece))) with (lz4Stream a) in Hb'.
  rewrite Hb in Hb'. apply app_inv_head in Hb'. injection Hb' as Hx <-.
  rewrite <- app_assoc in Hx. apply app_inv_head in Hx. subst x.
  pose proof (flush_src_length a Ha) as Hlen.
  pose proof (len_nonneg piece) as Hp0. pose proof (len_nonneg (flush_src a)) as Hs0.
  destruct Ha as (Ho & Hrange & Hf).
  set (B := if first_block_ a
            then patched_header h _ ++ flush_src a ++ piece ++ x'
            else flush_src a ++ piece ++ x') in Hr.
  assert (HB : exists pre, B = pre ++ piece ++ x' /\ len pre = offset_ a).
  { subst B. destruct (first_block_ a).
    - eexists (_ ++ flush_src a). split; [now rewrite <- app_assoc|].
      rewrite len_app, patched_header_length by exact Hl. lia.
    - exists (flush_src a). split; [reflexivity|lia]. }
  destruct HB as (pre & HB & Hpre).
  destruct (read_in_block s r _ B (offset_ a) rest (len piece) Hr) as (r' & Hread & Hr');
    [lia|lia|rewrite HB, !len_app; pose proof (len_nonneg x'); lia|].
  exists r'. split.
  - rewrite Hread. do 2 f_equal. rewrite HB, <- Hpre. apply slice_mid.
  - exists x', rest. rewrite (flush_src_store a piece (conj Ho (conj Hrange Hf)) Hfit).
    unfold store at 1 2 3 4. cbn [lz4Stream first_block_ offset_].
    rewrite <- !app_assoc. split; [exact Hb|]. exact Hr'.
Qed.

Lemma piece_after_flush a a1 r piece :
  WriterInv h a -> flushBlock a = Ok a1 -> 0 < len piece <= BLOCK_BYTES ->
  extends (content (store a1 (offset_ a1) piece (len piece))) blocks ->
  At h blocks s a r ->
  exists r', read_piece (len piece) r = Ok (piece, r')
             /\ At h blocks s (store a1 (offset_ a1) piece (len piece)) r'.
Proof.
  intros Hw Hflush Hpiece Hext (x & rest & Hb & Hr).
  pose proof (WriterInv_flushed h a a1 Hw Hflush) as Hw1.
  destruct Hw as (Ha & Hl & _). destruct Hw1 as (Ha1 & _).
  pose proof (flush_src_length a Ha) as Hlen.
  pose proof (flushBlock_ok a a1 Hflush) as [E1 _].
  assert (Ho1 : offset_ a1 = 0) by (rewrite E1; reflexivity).
  assert (Hs1 : flush_src a1 = []) by (rewrite E1; reflexivity).
  assert (Hz1 : lz4Stream a1 = lz4Stream a ++ [flush_src a]) by (rewrite E1; reflexivity).
  assert (Hf1 : first_block_ a1 = false) by (rewrite E1; reflexivity).
  assert (Hfit : offset_ a1 + len piece <= BLOCK_BYTES) by lia.
  apply extends_content in Hext. destruct Hext as (x' & rest' & Hb').
  rewrite (flush_src_store a1 piece Ha1 Hfit), Hs1 in Hb'. cbn [app] in Hb'.
  change (lz4Stream (store a1 (offset_ a1) piece (len piece))) with (lz4Stream a1) in Hb'.
  rewrite Hz1, <- app_assoc in Hb'. cbn [app] in Hb'.
  pose proof Hb as Hb0.
  rewrite Hb' in Hb. apply app_inv_head in Hb. injection Hb as Hx <-.
  rewrite <- (app_nil_r (flush_src a)) in Hx at 1. apply app_inv_head in Hx. subst x.
  rewrite app_nil_r in Hr.
  assert (Hg : good_frames (lz4Stream a ++ [flush_src a]) ((piece ++ x') :: rest')).
  { pose proof blocks_good as G. rewrite Hb' in G.
    change (lz4Stream a ++ flush_src a :: (piece ++ x') :: rest')
      with (lz4Stream a ++ [flush_src a] ++ (piece ++ x') :: rest') in G.
    rewrite app_assoc in G. apply good_frames_app in G. exact (proj2 G). }
  cbn [good_frames] in Hg. destruct Hg as (Hbl & Hcomp & _).
  pose proof (len_nonneg x') as Hx0. rewrite len_app in Hbl.
  set (B := if first_block_ a then _ else _) in Hr.
  assert (HB : len B = offset_ a).
  { subst B. destruct (first_block_ a).
    - rewrite len_app, patched_header_length by exact Hl. lia.
    - lia. }
  destruct (read_next_block s r _ B (offset_ a) (piece ++ x') rest' (len piece) Hr)
    as (r' & Hread & Hr'); try (rewrite ?len_app; lia); [exact Hcomp|].
  exists r'. split.
  - rewrite Hread. do 2 f_equal. rewrite slice_app_l by lia. now apply slice_0_all.
  - exists x', rest'. rewrite (flush_src_store a1 piece Ha1 Hfit), Hs1.
    unfold store at 1 2 3 4. cbn [lz4Stream first_block_ offset_ app].
    rewrite Hz1, Hf1, Ho1, <- app_assoc. cbn [app]. split; [exact Hb'|].
    rewrite Z.add_0_l. exact Hr'.
Qed.

End Pieces.


(** ** Every save continues the blocks *)

Section Grows.
Context {L : LZ4}.
Variable h : list byte.

Lemma flushed_offset a a1 : flushBlock a = Ok a1 -> offset_ a1 = 0.
Proof. intros H. apply flushBlock_ok in H. destruct H as [-> _]. reflexivity. Qed.

Lemma save_cases bytes a a' :
  save bytes a = Ok a' ->
  len bytes < BLOCK_BYTES
  /\ ((offset_ a + len bytes <= BLOCK_BYTES
       /\ a' = store a (offset_ a) bytes (len bytes))
      \/ (BLOCK_BYTES < offset_ a + len bytes
          /\ exists a1, flushBlock a = Ok a1
                        /\ a' = store a1 (offset_ a1) bytes (len bytes))).
Proof.
  unfold save. destruct (Z.ltb_spec (len bytes) BLOCK_BYTES) as [Hlt|]; [|discriminate].
  cbn [negb]. intros H. split; [assumption|].
  destruct (Z.gtb_spec (offset_ a + len bytes) BLOCK_BYTES).
  - right. split; [assumption|]. inv_bind H. injection H as <-. eauto.
  - left. cbn [bind] in H. injection H as <-. auto.
Qed.

Lemma save_grows bytes a a' :
  WriterInv h a -> save bytes a = Ok a' -> grows h a a'.
Proof.
  intros Hw H. apply save_cases in H.
  destruct H as [Hlt [[Hfit ->]|[Hover (a1 & Hf & ->)]]].
  - now apply grows_store.
  - eapply grows_trans; [eapply grows_flushed; eauto|].
    apply grows_store; [eapply WriterInv_flushed; eauto|].
    rewrite (flushed_offset a a1 Hf). lia.
Qed.

Lemma loop_chunk a1 ptr :
  offset_ a1 = 0 -> BLOCK_BYTES < len ptr ->
  store a1 0 (slice 0 BLOCK_BYTES ptr) BLOCK_BYTES
  = store a1 (offset_ a1) (slice 0 BLOCK_BYTES ptr) (len (slice 0 BLOCK_BYTES ptr))
  /\ len (slice 0 BLOCK_BYTES ptr) = BLOCK_BYTES.
Proof.
  intros Ho Hgt.
  assert (Hlen : len (slice 0 BLOCK_BYTES ptr) = BLOCK_BYTES)
    by (apply len_slice; consts; lia).
  rewrite Ho, Hlen. auto.
Qed.

Lemma save_binary_loop_grows fuel : forall ptr a rest a',
  WriterInv h a -> save_binary_loop fuel ptr a = Ok (rest, a') -> grows h a a'.
Proof.
  induction fuel as [|fuel IH]; intros ptr a rest a' Hw H; cbn [save_binary_loop] in H.
  - destruct (_ >? _); [discriminate|]. injection H as <- <-. now apply grows_refl.
  - destruct (Z.gtb_spec (len ptr) BLOCK_BYTES) as [Hgt|Hle].
    + inv_bind H. pose proof (flushed_offset a x E) as Ho.
      destruct (loop_chunk x ptr Ho) as [Est Hlen]; [lia|]. rewrite Est in H.
      pose proof (WriterInv_flushed h a x Hw E) as Hwx.
      assert (G2 : grows h x (store x (offset_ x) (slice 0 BLOCK_BYTES ptr)
                                (len (slice 0 BLOCK_BYTES ptr))))
        by (apply grows_store; [exact Hwx|rewrite Ho, Hlen; lia]).
      eapply grows_trans; [eapply grows_flushed; eauto|].
      eapply grows_trans; [exact G2|]. eapply IH; [apply G2|exact H].
    + injection H as <- <-. now apply grows_refl.
Qed.

Lemma save_tail_cases (rest : list byte) a a' :
  (a2 <- (if offset_ a + len rest >? BLOCK_BYTES then flushBlock a else Ok a) ;;
   Ok (store a2 (offset_ a2) rest (len rest))) = Ok a' ->
  (offset_ a + len rest <= BLOCK_BYTES /\ a' = store a (offset_ a) rest (len rest))
  \/ (BLOCK_BYTES < offset_ a + len rest
      /\ exists a1, flushBlock a = Ok a1 /\ a' = store a1 (offset_ a1) rest (len rest)).
Proof.
  intros H. destruct (Z.gtb_spec (offset_ a + len rest) BLOCK_BYTES).
  - right. split; [assumption|]. inv_bind H. injection H as <-. eauto.
  - left. cbn [bind] in H. injection H as <-. auto.
Qed.

Lemma save_binary_grows bytes a a' :
  WriterInv h a -> save_binary bytes a = Ok a' -> grows h a a'.
Proof.
  intros Hw H. unfold save_binary in H. inv_bind H. destruct x as [rest a1].
  pose proof (save_binary_loop_keeps _ bytes a (le_n _) (proj1 Hw)) as Hk.
  rewrite E in Hk. cbn [keeps fst snd] in Hk. destruct Hk as (_ & Hrest & _).
  pose proof (save_binary_loop_grows _ _ _ _ _ Hw E) as G1.
  eapply grows_trans; [exact G1|]. destruct G1 as [Hw1 _].
  apply save_tail_cases in H. destruct H as [[Hfit ->]|[Hover (a2 & Hf & ->)]].
  - now apply grows_store.
  - eapply grows_trans; [eapply grows_flushed; eauto|].
    apply grows_store; [eapply WriterInv_flushed; eauto|].
    rewrite (flushed_offset a1 a2 Hf). lia.
Qed.

Lemma save_value_grows v a a' :
  WriterInv h a -> save_value v a = Ok a' -> grows h a a'.
Proof.
  intros Hw H.
  assert (G : WriterInv h a' /\ extends (content a) (content a')); [|exact G].
  revert a a' Hw H.
  apply (save_value_account (WriterInv h) (fun _ a a' => extends (content a) (content a')) 0).
  - intros a _. apply extends_refl.
  - intros n m a b c. apply extends_trans.
  - intros bytes a a' Hw H. exact (save_grows bytes a a' Hw H).
  - intros p a a' Hw H. cbn in H. injection H as <-. split; [exact Hw|apply extends_refl].
  - intros bytes a a' Hw H. exact (save_binary_grows bytes a a' Hw H).
Qed.

Lemma save_values_grows vs : forall a a',
  WriterInv h a -> save_values vs a = Ok a' -> grows h a a'.
Proof.
  induction vs as [|v vs IH]; intros a a' Hw H; cbn [save_values] in H.
  - injection H as <-. now apply grows_refl.
  - inv_bind H. pose proof (save_value_grows v a x Hw E) as G.
    eapply grows_trans; [exact G|]. apply IH; [apply G|exact H].
Qed.

Lemma save_entries_grows es : forall a a',
  WriterInv h a -> save_entries es a = Ok a' -> grows h a a'.
Proof.
  induction es as [|[k x] es IH]; intros a a' Hw H; cbn [save_entries] in H.
  - injection H as <-. now apply grows_refl.
  - inv_bind H. inv_bind H.
    pose proof (save_value_grows k a _ Hw E) as G1.
    pose proof (save_value_grows x _ _ (proj1 G1) E0) as G2.
    eapply grows_trans; [exact G1|]. eapply grows_trans; [exact G2|].
    apply IH; [apply G2|exact H].
Qed.

End Grows.


(** ** The primitive saves against the primitive loads *)

Section Primitives.
Context {L : LZ4} {LC : LZ4Correct L}.
Variable h : list byte.
Variable blocks : list (list byte).
Variable s : list byte.
Hypothesis blocks_good : good_frames [] blocks.

Lemma extends_back a a' :
  grows h a a' -> extends (content a') blocks -> extends (content a) blocks.
Proof. intros [_ E] H. eapply extends_trans; eauto. Qed.

Lemma save_sim bytes a a' r :
  WriterInv h a -> save bytes a = Ok a' ->
  extends (content a') blocks -> At h blocks s a r ->
  exists r', load (len bytes) r = Ok (bytes, r') /\ At h blocks s a' r'.
Proof.
  intros Hw H Hext Hat. apply save_cases in H.
  destruct H as [Hlt [[Hfit ->]|[Hover (a1 & Hf & ->)]]].
  - eapply piece_stays; eauto.
  - destruct Hw as (Ha & Hrest). destruct Ha as (Ho & Hr & Hfb).
    eapply piece_after_flush; eauto.
    + exact (conj (conj Ho (conj Hr Hfb)) Hrest).
    + lia.
Qed.

Lemma save_binary_loop_sim fuel : forall ptr a rest a1,
  save_binary_loop fuel ptr a = Ok (rest, a1) ->
  WriterInv h a -> extends (content a1) blocks ->
  forall fuel' r acc, At h blocks s a r -> (length ptr <= fuel')%nat ->
  exists taken r1,
    ptr = taken ++ rest
    /\ load_binary_loop fuel' (len ptr) acc r = Ok (len rest, acc ++ taken, r1)
    /\ At h blocks s a1 r1.
Proof.
  induction fuel as [|fuel IH]; intros ptr a rest a1 H Hw Hext fuel' r acc Hat Hfuel;
    cbn [save_binary_loop] in H.
  - destruct (Z.gtb_spec (len ptr) BLOCK_BYTES) as [Hgt|Hle]; [discriminate|].
    injection H as <- <-. exists [], r. split; [reflexivity|].
    split; [|exact Hat]. rewrite app_nil_r.
    destruct fuel'; cbn [load_binary_loop];
      destruct (Z.gtb_spec (len ptr) BLOCK_BYTES); try lia; reflexivity.
  - destruct (Z.gtb_spec (len ptr) BLOCK_BYTES) as [Hgt|Hle].
    + inv_bind H. pose proof (flushed_offset a x E) as Ho.
      destruct (loop_chunk x ptr Ho) as [Est Hlen]; [lia|]. rewrite Est in H.
      set (chunk := slice 0 BLOCK_BYTES ptr) in *.
      set (a2 := store x (offset_ x) chunk (len chunk)) in *.
      pose proof (WriterInv_flushed h a x Hw E) as Hwx.
      assert (G2 : grows h x a2)
        by (apply grows_store; [exact Hwx|rewrite Ho, Hlen; lia]).
      pose proof (save_binary_loop_grows h _ _ _ _ _ (proj1 G2) H) as G3.
      assert (Hext2 : extends (content a2) blocks) by (eapply extends_back; eauto).
      assert (Hp : exists r2, read_piece (len chunk) r = Ok (chunk, r2)
                              /\ At h blocks s a2 r2).
      { eapply piece_after_flush;
          [exact blocks_good|exact Hw|exact E| |exact Hext2|exact Hat].
        rewrite Hlen. unfold BLOCK_BYTES. lia. }
      destruct Hp as (r2 & Hread & Hat2).
      fold a2 in Hat2.
      destruct fuel' as [|fuel'].
      { unfold len in Hgt. unfold BLOCK_BYTES in Hgt. lia. }
      assert (Hskip : len (skipn (Z.to_nat BLOCK_BYTES) ptr) = len ptr - BLOCK_BYTES)
        by (apply len_skipn; consts; lia).
      destruct (IH _ _ _ _ H (proj1 G2) Hext fuel' r2 (acc ++ chunk) Hat2)
        as (taken & r1 & Hptr & Hloop & Hat1).
      { rewrite length_skipn. assert (0 < BLOCK_BYTES) by reflexivity.
        unfold len in Hgt. lia. }
      exists (chunk ++ taken), r1. split; [|split; [|exact Hat1]].
      * rewrite <- app_assoc, <- Hptr. subst chunk. unfold slice.
        cbn [Z.to_nat skipn]. symmetry. apply firstn_skipn.
      * cbn [load_binary_loop]. destruct (Z.gtb_spec (len ptr) BLOCK_BYTES); [|lia].
        unfold read_piece in Hread. rewrite Hlen in Hread.
        inv_bind Hread. rewrite E0. cbn [bind]. rewrite Hread. cbn [bind].
        rewrite Hskip in Hloop. rewrite Hloop, app_assoc. reflexivity.
    + injection H as <- <-. exists [], r. split; [reflexivity|].
      split; [|exact Hat]. rewrite app_nil_r.
      destruct fuel'; cbn [load_binary_loop];
        destruct (Z.gtb_spec (len ptr) BLOCK_BYTES); try lia; reflexivity.
Qed.

Lemma save_binary_sim bytes a a' r :
  WriterInv h a -> save_binary bytes a = Ok a' ->
  extends (content a') blocks -> At h blocks s a r ->
  exists r', load_binary (len bytes) r = Ok (bytes, r') /\ At h blocks s a' r'.
Proof.
  intros Hw H Hext Hat. unfold save_binary in H. inv_bind H. destruct x as [rest a1].
  pose proof (save_binary_loop_keeps _ bytes a (le_n _) (proj1 Hw)) as Hk.
  rewrite E in Hk. cbn [keeps fst snd] in Hk. destruct Hk as (Ha1 & Hrest & _).
  pose proof (save_binary_loop_grows h _ _ _ _ _ Hw E) as G1.
  assert (Gt : grows h a1 a').
  { apply save_tail_cases in H. destruct H as [[Hfit ->]|[Hover (a2 & Hf & ->)]].
    - apply grows_store; [apply G1|exact Hfit].
    - eapply grows_trans; [eapply grows_flushed; [apply G1|exact Hf]|].
      apply grows_store; [eapply WriterInv_flushed; [apply G1|exact Hf]|].
      rewrite (flushed_offset a1 a2 Hf). lia. }
  assert (Hext1 : extends (content a1) blocks) by (eapply extends_back; eauto).
  destruct (save_binary_loop_sim _ _ _ _ _ E Hw Hext1 (length bytes) r [] Hat (le_n _))
    as (taken & r1 & Hptr & Hloop & Hat1).
  unfold load_binary. unfold len at 1. rewrite Nat2Z.id. fold (len bytes).
  rewrite Hloop. cbn [bind app].
  assert (Htail : exists r', read_piece (len rest) r1 = Ok (rest, r')
                             /\ At h blocks s a' r').
  { apply save_tail_cases in H. destruct H as [[Hfit ->]|[Hover (a2 & Hf & ->)]].
    - exact (piece_stays h blocks s blocks_good a1 r1 rest (proj1 G1) Hfit Hext Hat1).
    - refine (piece_after_flush h blocks s blocks_good a1 a2 r1 rest
                (proj1 G1) Hf _ Hext Hat1).
      destruct Ha1 as (_ & Hr & _). lia. }
  destruct Htail as (r' & Hread & Hat'). unfold read_piece in Hread.
  inv_bind Hread. rewrite E0. cbn [bind]. rewrite Hread. cbn [bind].
  exists r'. split; [|exact Hat']. now rewrite Hptr.
Qed.

End Primitives.


(** ** Values saved, values loaded *)

Lemma loads_as_struct {K : KeyOrder} fields ds vs :
  loads_as (TStruct fields) (VStruct ds) (VStruct vs) <-> all_load_as fields ds vs.
Proof.
  cbn [loads_as]. revert ds vs.
  induction fields as [|t ts IH]; intros [|d ds] [|v vs]; cbn [all_load_as]; try tauto.
  rewrite IH. tauto.
Qed.

Lemma map_assign_above {K : KeyOrder} key x m :
  Forall (fun e => key_lt (fst e) key = true /\ key_lt key (fst e) = false) m ->
  map_assign key x m = m ++ [(key, x)].
Proof.
  induction 1 as [|[k' x'] m [H1 H2] _ IH]; cbn [map_assign app]; [reflexivity|].
  cbn [fst] in *. rewrite H2, H1, IH. reflexivity.
Qed.

Section Values.
Context {L : LZ4} {LC : LZ4Correct L} {K : KeyOrder}.
Variable h : list byte.
Variable blocks : list (list byte).
Variable s : list byte.
Hypothesis blocks_good : good_frames [] blocks.

Lemma size_sim n a a' r :
  0 <= n < SIZE_MAX1 ->
  WriterInv h a -> save (size_t_bytes n) a = Ok a' ->
  extends (content a') blocks -> At h blocks s a r ->
  exists bytes r', load sizeof_size_t r = Ok (bytes, r') /\ le_decode bytes = n
                   /\ At h blocks s a' r'.
Proof.
  intros Hn Hw H Hext Hat.
  destruct (save_sim h blocks s blocks_good _ a a' r Hw H Hext Hat) as (r' & Hl & Hat').
  rewrite size_t_bytes_length in Hl. exists (size_t_bytes n), r'.
  split; [exact Hl|]. split; [now apply size_t_roundtrip|exact Hat'].
Qed.

Lemma elems_sim t (IH : value_sim_at h blocks s t) : forall ds vs,
  Forall2 (loads_as t) ds vs ->
  forall a a' r,
    WriterInv h a -> save_values vs a = Ok a' ->
    extends (content a') blocks -> At h blocks s a r ->
    exists r', load_elems t ds r = Ok (vs, r') /\ At h blocks s a' r'.
Proof.
  induction 1 as [|d v ds vs Hdv _ IHl]; intros a a' r Hw H Hext Hat;
    cbn [save_values load_elems] in *.
  - injection H as <-. eauto.
  - inv_bind H. pose proof (save_value_grows h v a x Hw E) as G1.
    pose proof (save_values_grows h vs x a' (proj1 G1) H) as G2.
    destruct (IH d v a x r Hdv Hw E (extends_back h blocks x a' G2 Hext) Hat)
      as (r1 & Hl1 & Hat1).
    destruct (IHl x a' r1 (proj1 G1) H Hext Hat1) as (r' & Hl' & Hat').
    exists r'. rewrite Hl1. cbn [bind]. rewrite Hl'. cbn [bind]. auto.
Qed.

Lemma entries_sim tk tv (IHk : value_sim_at h blocks s tk) (IHv : value_sim_at h blocks s tv) : forall es m,
  Forall (fun e => loads_as tk (default_value tk) (fst e)
                   /\ loads_as tv (default_value tv) (snd e)) es ->
  sorted_entries es ->
  Forall (fun e => Forall (fun e0 => key_lt (fst e0) (fst e) = true
                                     /\ key_lt (fst e) (fst e0) = false) m) es ->
  forall a a' r,
    WriterInv h a -> save_entries es a = Ok a' ->
    extends (content a') blocks -> At h blocks s a r ->
    exists r', load_entries tk tv (length es) m r = Ok (m ++ es, r')
               /\ At h blocks s a' r'.
Proof.
  induction es as [|[k x] es IHes]; intros m Hty Hsorted Habove a a' r Hw H Hext Hat;
    cbn [save_entries load_entries length] in *.
  - injection H as <-. rewrite app_nil_r. eauto.
  - inv_bind H. inv_bind H.
    pose proof (save_value_grows h k a _ Hw E) as G1.
    pose proof (save_value_grows h x _ _ (proj1 G1) E0) as G2.
    pose proof (save_entries_grows h es _ a' (proj1 G2) H) as G3.
    apply Forall_cons_iff in Hty. destruct Hty as [[Hk Hx] Hty]. cbn [fst snd] in *.
    apply Forall_cons_iff in Habove. destruct Habove as [Hm Habove]. cbn [fst] in Hm.
    destruct Hsorted as [Hlater Hsorted].
    assert (Hext2 : extends (content x1) blocks) by (eapply extends_back; eauto).
    assert (Hext1 : extends (content x0) blocks) by (eapply extends_back; eauto).
    destruct (IHk _ k a x0 r Hk Hw E Hext1 Hat) as (r1 & Hl1 & Hat1).
    destruct (IHv _ x x0 x1 r1 Hx (proj1 G1) E0 Hext2 Hat1) as (r2 & Hl2 & Hat2).
    rewrite Hl1. cbn [bind]. rewrite Hl2. cbn [bind].
    rewrite (map_assign_above k x m Hm).
    destruct (IHes (m ++ [(k, x)]) Hty Hsorted) with (a := x1) (a' := a') (r := r2)
      as (r' & Hl' & Hat'); auto.
    + clear - Hlater Habove. induction es as [|e es IH]; [constructor|].
      apply Forall_cons_iff in Hlater. destruct Hlater as [He Hlater].
      apply Forall_cons_iff in Habove. destruct Habove as [Hme Habove].
      constructor; [|now apply IH].
      apply Forall_app. split; [exact Hme|]. constructor; [exact He|constructor].
    + apply G2.
    + exists r'. rewrite <- app_assoc in Hl'. auto.
Qed.

Lemma fields_sim : forall ts, Forall (value_sim_at h blocks s) ts ->
  forall ds vs, all_load_as ts ds vs ->
  forall a a' r,
    WriterInv h a -> save_values vs a = Ok a' ->
    extends (content a') blocks -> At h blocks s a r ->
    exists r', load_values ts ds r = Ok (vs, r') /\ At h blocks s a' r'.
Proof.
  induction 1 as [|t ts Ht _ IHts]; intros [|d ds] [|v vs] Hall a a' r Hw H Hext Hat;
    cbn [all_load_as] in Hall; try contradiction; cbn [save_values load_values] in *.
  - injection H as <-. eauto.
  - destruct Hall as [Hdv Hall]. inv_bind H.
    pose proof (save_value_grows h v a x Hw E) as G1.
    pose proof (save_values_grows h vs x a' (proj1 G1) H) as G2.
    destruct (Ht d v a x r Hdv Hw E (extends_back h blocks x a' G2 Hext) Hat)
      as (r1 & Hl1 & Hat1).
    destruct (IHts ds vs Hall x a' r1 (proj1 G1) H Hext Hat1) as (r' & Hl' & Hat').
    exists r'. rewrite Hl1. cbn [bind]. rewrite Hl'. cbn [bind]. auto.
Qed.

Lemma value_sim t : value_sim_at h blocks s t.
Proof.
  induction t as [size| |t IH|tk tv IHk IHv| | |fields IH] using ty_ind;
    intros d v a a' r Hty Hw H Hext Hat.
  - destruct v; try contradiction. cbn [loads_as] in Hty. subst size.
    cbn [save_value] in H.
    destruct (save_sim h blocks s blocks_good _ a a' r Hw H Hext Hat) as (r' & Hl & Hat').
    exists r'. cbn [load_value]. rewrite Hl. cbn [bind]. auto.
  - destruct v; try contradiction. cbn [loads_as] in Hty. cbn [save_value] in H.
    destruct (save_sim h blocks s blocks_good _ a a' r Hw H Hext Hat) as (r' & Hl & Hat').
    exists r'. cbn [load_value].
    replace (len (int_bytes n)) with sizeof_int in Hl
      by (unfold int_bytes, len; now rewrite le_encode_length).
    rewrite Hl. cbn [bind]. now rewrite int_roundtrip.
  - destruct d; try contradiction; destruct v; try contradiction.
    cbn [loads_as] in Hty. destruct Hty as [Hlen Hall].
    rewrite save_value_vector in H. inv_bind H.
    pose proof (save_grows h _ a x Hw E) as G1.
    pose proof (save_values_grows h _ x a' (proj1 G1) H) as G2.
    destruct (size_sim (len elems0) a x r) as (bytes & r1 & Hl1 & Hdec & Hat1);
      [pose proof (len_nonneg elems0); lia|exact Hw|exact E|
       eapply extends_back; eauto|exact Hat|].
    destruct (elems_sim t IH _ _ Hall x a' r1 (proj1 G1) H Hext Hat1) as (r' & Hl' & Hat').
    exists r'. rewrite load_value_vector, Hl1. cbn [bind]. rewrite Hdec, Hl'.
    cbn [bind]. auto.
  - destruct d as [| | |old| | |]; try contradiction; destruct v; try contradiction;
      cbn [loads_as] in Hty; destruct old; try contradiction.
    destruct Hty as (Hlen & Hsorted & Hall).
    rewrite save_value_map in H. inv_bind H.
    pose proof (save_grows h _ a x Hw E) as G1.
    pose proof (save_entries_grows h _ x a' (proj1 G1) H) as G2.
    destruct (size_sim (len entries) a x r) as (bytes & r1 & Hl1 & Hdec & Hat1);
      [pose proof (len_nonneg entries); lia|exact Hw|exact E|
       eapply extends_back; eauto|exact Hat|].
    destruct (entries_sim tk tv IHk IHv entries [] Hall Hsorted) with (a := x) (a' := a') (r := r1)
      as (r' & Hl' & Hat'); auto.
    + clear. induction entries; constructor; auto.
    + apply G1.
    + exists r'. rewrite load_value_map, Hl1. cbn [bind]. rewrite Hdec.
      unfold len. rewrite Nat2Z.id, Hl'. cbn [bind app]. auto.
  - destruct d; try contradiction; destruct v; try contradiction.
    cbn [loads_as] in Hty. subst. cbn in H. injection H as <-.
    exists r. split; [reflexivity|exact Hat].
  - destruct d; try contradiction; destruct v; try contradiction.
    cbn [loads_as] in Hty. cbn [save_value] in H.
    destruct (save_binary_sim h blocks s blocks_good _ a a' r Hw H Hext Hat)
      as (r' & Hl & Hat').
    exists r'. cbn [load_value]. rewrite Hty, Hl. cbn [bind]. auto.
  - destruct d; try contradiction; destruct v; try contradiction.
    apply loads_as_struct in Hty. rewrite save_value_struct in H.
    destruct (fields_sim fields IH _ _ Hty a a' r Hw H Hext Hat) as (r' & Hl & Hat').
    exists r'. rewrite load_value_struct, Hl. cbn [bind]. auto.
Qed.

Lemma values_sim ts ds vs :
  all_load_as ts ds vs ->
  forall a a' r,
    WriterInv h a -> save_values vs a = Ok a' ->
    extends (content a') blocks -> At h blocks s a r ->
    exists r', load_values ts ds r = Ok (vs, r') /\ At h blocks s a' r'.
Proof.
  apply fields_sim.
  induction ts as [|t ts IHts]; [constructor|constructor; [apply value_sim|exact IHts]].
Qed.

End Values.


(** ** Opening and closing the stream *)

Lemma len_pos {A} (l : list A) : l <> [] -> 0 < len l.
Proof. destruct l; [congruence|]. intros _. rewrite len_cons. pose proof (len_nonneg l). lia. Qed.

Section OpenClose.
Context {L : LZ4} {LC : LZ4Correct L}.

Lemma patched_header_signature h c :
  len h = headSz -> head_signature (patched_header h c) = head_signature h.
Proof.
  intros Hl. unfold head_signature, patched_header, set_first_block_size, set_compression,
    off_signature.
  rewrite !set_field_before; rewrite ?set_field_length; consts; try lia. reflexivity.
Qed.

Lemma patched_header_first_block_size h c :
  len h = headSz -> 0 <= c < SIZE_MAX1 -> head_first_block_size (patched_header h c) = c.
Proof.
  intros Hl Hc. unfold head_first_block_size, patched_header, set_first_block_size.
  rewrite set_field_same.
  - now apply size_t_roundtrip.
  - consts. lia.
  - unfold set_compression. rewrite set_field_length; consts; lia.
Qed.

Lemma open_sim h p0 rest :
  len h = headSz -> is_v10 h = false ->
  good_frames [] (p0 :: rest) -> p0 <> [] ->
  let c0 := LZ4_compress_HC_continue [] p0 (LZ4_COMPRESSBOUND BLOCK_BYTES) in
  let s := stream_of_blocks h (p0 :: rest) ++ size_t_bytes 0 in
  exists r, Load_initBlock (mkFile s 0) = Ok r
            /\ ReaderAt s r [p0] (patched_header h (len c0) ++ p0) 0 rest.
Proof.
  intros Hl Hv (Hlen & Hcomp & _) Hne c0 s.
  set (head := patched_header h (len c0)).
  assert (Hhl : len head = headSz) by now apply patched_header_length.
  assert (Hs : s = head ++ c0 ++ encode_frames [p0] rest ++ size_t_bytes 0).
  { subst s. cbn [stream_of_blocks]. fold c0 head. now rewrite <- !app_assoc. }
  assert (Hc0 : 0 < len c0) by (apply len_pos; exact Hcomp).
  assert (Hp0 : 0 < len p0) by (apply len_pos; exact Hne).
  assert (Hcb : len c0 < LZ4_COMPRESSBOUND BLOCK_BYTES)
    by (apply compressed_below_bound; lia).
  unfold Load_initBlock.
  assert (Hr1 : fread headSz (mkFile s 0) = (Some head, fseek_set (mkFile s 0) (len ([] ++ head)))).
  { rewrite <- Hhl at 1. apply (fread_at _ [] head (c0 ++ encode_frames [p0] rest ++ size_t_bytes 0)).
    - exact Hs.
    - reflexivity.
    - rewrite Hhl. reflexivity. }
  rewrite Hr1.
  assert (Hv' : is_v10 head = false).
  { unfold is_v10 in *. subst head. now rewrite patched_header_signature. }
  rewrite Hv'. unfold loadBlock.
  cbn [l_stream_ compressed_buffer_ lz4StreamDecode].
  subst head. rewrite patched_header_first_block_size
    by (try exact Hl; subst c0; apply compressed_size_fits).
  destruct (Z.geb_spec (len c0) (LZ4_COMPRESSBOUND BLOCK_BYTES)); [lia|].
  destruct (Z.ltb_spec (LZ4_COMPRESSBOUND BLOCK_BYTES) (len c0)); [lia|].
  set (head := patched_header h (len c0)) in *.
  assert (Hr2 : fread (len c0) (fseek_set (mkFile s 0) (len ([] ++ head)))
                = (Some c0, fseek_set (mkFile s 0) (len (([] ++ head) ++ c0)))).
  { rewrite (fread_at _ ([] ++ head) c0 (encode_frames [p0] rest ++ size_t_bytes 0)).
    - reflexivity.
    - cbn [f_data fseek_set app]. exact Hs.
    - reflexivity.
    - exact Hc0. }
  rewrite Hr2. subst c0.
  rewrite decompress_compress by (assumption || lia).
  destruct (Z.leb_spec (len p0) 0); [lia|]. cbn [bind].
  eexists. split; [reflexivity|].
  unfold ReaderAt, with_block, current_format.
  cbn [l_buffer_ block_sz_ ptr_ lz4StreamDecode l_stream_ f_data fseek_set f_pos
       buffer_blocks_ compressed_buffer_ app].
  split; [reflexivity|]. split; [rewrite len_app, Hhl; lia|].
  split; [reflexivity|]. split; [reflexivity|]. split; [split; reflexivity|].
  split; [reflexivity|].
  exists (head ++ LZ4_compress_HC_continue [] p0 (LZ4_COMPRESSBOUND BLOCK_BYTES)).
  split; [|reflexivity]. rewrite Hs, <- !app_assoc. reflexivity.
Qed.

Lemma close_sim s r hist B o :
  ReaderAt s r hist B o [] -> exists r', Load_endBlock r = Ok r'.
Proof.
  intros (_ & _ & _ & _ & [Hbb _] & Hd & pre & Hs & Hpos).
  cbn [encode_frames app] in Hs. unfold Load_endBlock. rewrite Hbb.
  assert (Hr : fread sizeof_size_t (l_stream_ r)
               = (Some (size_t_bytes 0), fseek_set (l_stream_ r) (len (pre ++ size_t_bytes 0)))).
  { apply (fread_at _ pre (size_t_bytes 0) []).
    - now rewrite Hd, Hs, app_nil_r.
    - exact Hpos.
    - reflexivity. }
  rewrite Hr. cbn. eauto.
Qed.

End OpenClose.


(** ** Round trip *)

Section RoundTrip.
Context {L : LZ4} {LC : LZ4Correct L} {K : KeyOrder}.

Lemma header_saved_inv h :
  len h = headSz -> head_compression h = 0 ->
  exists a, save h (Save_initBlock []) = Ok a /\ WriterInv h a
            /\ lz4Stream a = [] /\ flush_src a = [] /\ first_block_ a = true
            /\ offset_ a = headSz.
Proof.
  intros Hl Hc.
  destruct (save_header_inv h Hl Hc) as (a & Hs & Ha & Hb & Hf & Hst & Hz).
  exists a. split; [exact Hs|].
  assert (Ho : offset_ a = headSz) by (destruct Ha as (Ho & _); rewrite Ho, Hb; exact Hl).
  split; [|split; [exact Hz|split; [|split; [exact Hf|exact Ho]]]].
  - unfold WriterInv. rewrite Hst, Hz, Hb, Hf.
    split; [exact Ha|]. split; [exact Hl|]. split; [reflexivity|]. split; [exact I|].
    split; [|discriminate]. intros _. split; [reflexivity|]. now apply slice_0_all.
  - rewrite (flush_src_inv a Ha), Hf, Hb. apply skipn_all2. unfold len, headSz in Hl. lia.
Qed.

(** The stream a whole save writes, in terms of its payloads. *)
Lemma save_archive_stream h values stream :
  len h = headSz -> head_compression h = 0 ->
  save_archive h values = Ok stream ->
  exists a1 an,
    save h (Save_initBlock []) = Ok a1
    /\ save_values values a1 = Ok an
    /\ WriterInv h a1 /\ WriterInv h an
    /\ payloads h values = content an
    /\ good_frames [] (content an)
    /\ stream = stream_of_blocks h (content an) ++ size_t_bytes 0.
Proof.
  intros Hl Hc H.
  destruct (header_saved_inv h Hl Hc) as (a1 & Hs & Hw1 & _).
  unfold save_archive, saved_after in H. rewrite Hs in H. cbn [bind] in H.
  inv_bind H. rename x into an. unfold Save_close in H. inv_bind H. rename x into af.
  injection H as <-.
  pose proof (save_values_grows h values a1 an Hw1 E) as [Hwn _].
  pose proof (WriterInv_flushed h an af Hwn E0) as (_ & _ & Hst & Hg & _).
  pose proof (flushBlock_ok an af E0) as [Ef _].
  assert (Hz : lz4Stream af = content an) by (rewrite Ef; reflexivity).
  exists a1, an. split; [exact Hs|]. split; [exact E|]. split; [exact Hw1|].
  split; [exact Hwn|]. split; [|split].
  - unfold payloads, saved_after. rewrite Hs. cbn [bind]. rewrite E. cbn [bind].
    rewrite E0. exact Hz.
  - rewrite <- Hz. exact Hg.
  - transitivity (s_stream_ af ++ size_t_bytes 0); [reflexivity|].
    rewrite Hst, Hz. reflexivity.
Qed.

Lemma roundtrip_from_payloads (h : list byte) (values : list value)
  (ts : list ty) (ds : list value) (stream : list byte) :
  len h = headSz -> head_compression h = 0 -> is_v10 h = false ->
  all_load_as ts ds values ->
  save_archive h values = Ok stream ->
  hd [] (payloads h values) <> [] ->
  exists compSz,
    load_archive (mkFile stream 0) ts ds = Ok (patched_header h compSz, values)
    /\ head_compression (patched_header h compSz) = 1.
Proof.
  intros Hl Hc Hv Hty Hsave Hne.
  destruct (save_archive_stream h values stream Hl Hc Hsave)
    as (a1 & an & Hs1 & Hsn & Hw1 & Hwn & Hpay & Hgood & ->).
  destruct (header_saved_inv h Hl Hc) as (a1' & Hs1' & _ & Hz1 & Hsrc1 & Hf1 & Ho1).
  rewrite Hs1 in Hs1'. injection Hs1' as <-.
  set (blocks := content an) in *.
  pose proof (save_values_grows h values a1 an Hw1 Hsn) as G.
  assert (Hext1 : extends (content a1) blocks) by apply G.
  destruct (extends_content blocks Hgood a1 Hext1) as (p0 & rest & Hb).
  rewrite Hz1, Hsrc1 in Hb. cbn [app] in Hb.
  rewrite Hpay, Hb in Hne. cbn [hd] in Hne.
  rewrite Hb in Hgood.
  destruct (open_sim h p0 rest Hl Hv Hgood Hne) as (r0 & Hopen & Hr0).
  cbv zeta in Hopen, Hr0. rewrite <- Hb in Hopen, Hr0.
  set (s := stream_of_blocks h blocks ++ size_t_bytes 0) in *.
  set (c0 := LZ4_compress_HC_continue [] p0 (LZ4_COMPRESSBOUND BLOCK_BYTES)) in *.
  assert (Hhl : len (patched_header h (len c0)) = headSz) by now apply patched_header_length.
  destruct (read_in_block s r0 _ _ 0 rest headSz Hr0) as (r1 & Hhead & Hr1);
    [lia|consts; lia|rewrite len_app, Hhl; pose proof (len_nonneg p0); lia|].
  rewrite slice_app_l, slice_0_all in Hhead by (rewrite ?Hhl; consts; lia).
  assert (Hat1 : At h blocks s a1 r1).
  { exists p0, rest. rewrite Hz1, Hsrc1, Hf1, Ho1. cbn [app]. split; [exact Hb|].
    exact Hr1. }
  assert (Hgood' : good_frames [] blocks) by (rewrite Hb; exact Hgood).
  destruct (values_sim h blocks s Hgood' ts ds values Hty a1 an r1 Hw1 Hsn)
    as (rn & Hload & Hatn); [apply extends_refl|exact Hat1|].
  destruct Hatn as (x & rest' & Hbn & Hrn).
  assert (Hx : x = [] /\ rest' = []).
  { unfold blocks, content in Hbn. apply app_inv_head in Hbn.
    injection Hbn as Hx Hr. split; [|now symmetry].
    rewrite <- (app_nil_r (flush_src an)) in Hx at 1. apply app_inv_head in Hx.
    now symmetry. }
  destruct Hx as [-> ->].
  destruct (close_sim s rn _ _ _ Hrn) as (r' & Hclose).
  exists (len c0). split.
  - unfold load_archive. rewrite Hopen. cbn [bind]. change (load headSz r0) with (read_piece headSz r0).
    rewrite Hhead. cbn [bind]. rewrite Hload. cbn [bind]. rewrite Hclose. reflexivity.
  - unfold head_compression, patched_header, set_first_block_size, set_compression.
    rewrite set_field_before, set_field_same;
      rewrite ?set_field_length; consts; try lia.
    reflexivity.
Qed.

End RoundTrip.


(** ** The payload of the first block *)

Lemma hd_extends c1 c2 :
  extends c1 c2 -> hd [] c1 <> [] -> hd [] c2 <> [].
Proof.
  intros (init & last & x & rest & -> & ->). destruct init as [|b init]; cbn [app hd].
  - intros H E. apply app_eq_nil in E. now destruct E.
  - auto.
Qed.

Section FirstBlock.
Context {L : LZ4} {LC : LZ4Correct L} {K : KeyOrder}.

Lemma empty_first_block_rejected h rest :
  len h = headSz -> is_v10 h = false ->
  good_frames [] ([] :: rest) ->
  Load_initBlock (mkFile (stream_of_blocks h ([] :: rest) ++ size_t_bytes 0) 0)
  = Fail (Throw "Invalid index file, cannot decompress block").
Proof.
  intros Hl Hv (Hlen & Hcomp & _).
  set (c0 := LZ4_compress_HC_continue [] [] (LZ4_COMPRESSBOUND BLOCK_BYTES)) in *.
  set (s := stream_of_blocks h ([] :: rest) ++ size_t_bytes 0).
  set (head := patched_header h (len c0)).
  assert (Hhl : len head = headSz) by now apply patched_header_length.
  assert (Hs : s = head ++ c0 ++ encode_frames [[]] rest ++ size_t_bytes 0).
  { subst s. cbn [stream_of_blocks]. fold c0 head. now rewrite <- !app_assoc. }
  assert (Hc0 : 0 < len c0) by (apply len_pos; exact Hcomp).
  assert (Hcb : len c0 < LZ4_COMPRESSBOUND BLOCK_BYTES)
    by (apply compressed_below_bound; lia).
  unfold Load_initBlock.
  assert (Hr1 : fread headSz (mkFile s 0) = (Some head, fseek_set (mkFile s 0) (len ([] ++ head)))).
  { rewrite <- Hhl at 1.
    apply (fread_at _ [] head (c0 ++ encode_frames [[]] rest ++ size_t_bytes 0)).
    - exact Hs.
    - reflexivity.
    - rewrite Hhl. reflexivity. }
  rewrite Hr1.
  assert (Hv' : is_v10 head = false).
  { unfold is_v10 in *. subst head. now rewrite patched_header_signature. }
  rewrite Hv'. unfold loadBlock.
  cbn [l_stream_ compressed_buffer_ lz4StreamDecode].
  subst head. rewrite patched_header_first_block_size
    by (try exact Hl; subst c0; apply compressed_size_fits).
  destruct (Z.geb_spec (len c0) (LZ4_COMPRESSBOUND BLOCK_BYTES)); [lia|].
  destruct (Z.ltb_spec (LZ4_COMPRESSBOUND BLOCK_BYTES) (len c0)); [lia|].
  set (head := patched_header h (len c0)) in *.
  assert (Hr2 : fread (len c0) (fseek_set (mkFile s 0) (len ([] ++ head)))
                = (Some c0, fseek_set (mkFile s 0) (len (([] ++ head) ++ c0)))).
  { rewrite (fread_at _ ([] ++ head) c0 (encode_frames [[]] rest ++ size_t_bytes 0)).
    - reflexivity.
    - cbn [f_data fseek_set app]. exact Hs.
    - reflexivity.
    - exact Hc0. }
  rewrite Hr2. subst c0.
  rewrite decompress_compress by (assumption || (unfold BLOCK_BYTES; cbn; lia)).
  reflexivity.
Qed.

Lemma load_rejects_empty_first_block h values ts ds stream :
  len h = headSz -> head_compression h = 0 -> is_v10 h = false ->
  save_archive h values = Ok stream ->
  hd [] (payloads h values) = [] ->
  load_archive (mkFile stream 0) ts ds
  = Fail (Throw "Invalid index file, cannot decompress block").
Proof.
  intros Hl Hc Hv Hsave Hempty.
  destruct (save_archive_stream h values stream Hl Hc Hsave)
    as (a1 & an & _ & _ & _ & _ & Hpay & Hgood & ->).
  rewrite Hpay in Hempty. unfold content in *.
  destruct (lz4Stream an ++ [flush_src an]) as [|p0 rest] eqn:E.
  - now destruct (lz4Stream an).
  - cbn [hd] in Hempty. subst p0. unfold load_archive.
    rewrite (empty_first_block_rejected h rest Hl Hv Hgood). reflexivity.
Qed.

Lemma piece_in_first_block a bytes :
  header_only a -> 0 < len bytes <= BLOCK_BYTES - headSz ->
  hd [] (content (store a (offset_ a) bytes (len bytes))) <> [].
Proof.
  intros (Ha & Hz & Hf & Ho) Hb. unfold content.
  rewrite flush_src_store by (assumption || (rewrite Ho; lia)).
  change (lz4Stream (store a (offset_ a) bytes (len bytes))) with (lz4Stream a).
  rewrite Hz. cbn [app hd]. intros E. apply app_eq_nil in E. destruct E as [_ ->].
  cbn in Hb. lia.
Qed.

Lemma save_in_first_block a a' bytes :
  header_only a -> 0 < len bytes <= BLOCK_BYTES - headSz ->
  save bytes a = Ok a' -> hd [] (content a') <> [].
Proof.
  intros Hh Hb H. pose proof Hh as (_ & _ & _ & Ho).
  apply save_cases in H. destruct H as [_ [[_ ->]|[Hover _]]].
  - now apply piece_in_first_block.
  - rewrite Ho in Hover. lia.
Qed.

Lemma save_binary_in_first_block a a' bytes :
  header_only a -> 0 < len bytes <= BLOCK_BYTES - headSz ->
  save_binary bytes a = Ok a' -> hd [] (content a') <> [].
Proof.
  intros Hh Hb H. pose proof Hh as (Ha & _ & _ & Ho).
  unfold save_binary in H. inv_bind H. destruct x as [rest a1].
  pose proof (save_binary_loop_keeps _ bytes a (le_n _) Ha) as Hk.
  rewrite E in Hk. cbn [keeps fst snd] in Hk. destruct Hk as (_ & _ & _ & Heq).
  specialize (Heq ltac:(unfold headSz in *; lia)). injection Heq as -> ->.
  apply save_tail_cases in H. destruct H as [[_ ->]|[Hover _]].
  - now apply piece_in_first_block.
  - rewrite Ho in Hover. lia.
Qed.

Lemma first_piece_nonempty h v : forall a a',
  WriterInv h a -> header_only a -> first_piece_fits v = true ->
  save_value v a = Ok a' -> hd [] (content a') <> [].
Proof.
  induction v as [bytes|n|elems _|entries _|p|bytes|fields IH] using value_ind;
    intros a a' Hw Hh Hfit H; cbn [first_piece_fits] in Hfit.
  - apply andb_prop in Hfit. destruct Hfit as [H1 H2].
    apply Z.ltb_lt in H1. apply Z.leb_le in H2.
    exact (save_in_first_block a a' bytes Hh (conj H1 H2) H).
  - refine (save_in_first_block a a' (int_bytes n) Hh _ H).
    unfold int_bytes, len. rewrite le_encode_length. consts. lia.
  - rewrite save_value_vector in H. inv_bind H.
    pose proof (save_grows h _ a x Hw E) as [Hwx _].
    pose proof (save_values_grows h _ x a' Hwx H) as [_ G].
    eapply hd_extends; [exact G|].
    refine (save_in_first_block a x _ Hh _ E). rewrite size_t_bytes_length. consts. lia.
  - rewrite save_value_map in H. inv_bind H.
    pose proof (save_grows h _ a x Hw E) as [Hwx _].
    pose proof (save_entries_grows h _ x a' Hwx H) as [_ G].
    eapply hd_extends; [exact G|].
    refine (save_in_first_block a x _ Hh _ E). rewrite size_t_bytes_length. consts. lia.
  - discriminate.
  - apply andb_prop in Hfit. destruct Hfit as [H1 H2].
    apply Z.ltb_lt in H1. apply Z.leb_le in H2.
    exact (save_binary_in_first_block a a' bytes Hh (conj H1 H2) H).
  - destruct fields as [|f fs]; [discriminate|].
    rewrite save_value_struct in H. cbn [save_values] in H. inv_bind H.
    apply Forall_cons_iff in IH. destruct IH as [IHf _].
    pose proof (save_value_grows h f a x Hw E) as [Hwx _].
    pose proof (save_values_grows h _ x a' Hwx H) as [_ G].
    eapply hd_extends; [exact G|]. exact (IHf a x Hw Hh Hfit E).
Qed.

Lemma first_value_fits h v values :
  len h = headSz -> head_compression h = 0 ->
  first_piece_fits v = true ->
  is_ok (save_archive h (v :: values)) = true ->
  hd [] (payloads h (v :: values)) <> [].
Proof.
  intros Hl Hc Hfit Hok.
  destruct (save_archive h (v :: values)) as [stream|] eqn:Hsave; [|discriminate].
  destruct (save_archive_stream h _ stream Hl Hc Hsave)
    as (a1 & an & Hs1 & Hsn & Hw1 & Hwn & Hpay & _).
  destruct (header_saved_inv h Hl Hc) as (a1' & Hs1' & _ & Hz1 & _ & Hf1 & Ho1).
  rewrite Hs1 in Hs1'. injection Hs1' as <-.
  cbn [save_values] in Hsn. inv_bind Hsn.
  pose proof (save_value_grows h v a1 x Hw1 E) as [Hwx _].
  pose proof (save_values_grows h _ x an Hwx Hsn) as [_ G].
  rewrite Hpay. eapply hd_extends; [exact G|].
  refine (first_piece_nonempty h v a1 x Hw1 _ Hfit E).
  split; [apply Hw1|auto].
Qed.

End FirstBlock.


(** ** The round-trip property *)

Lemma stream_of_ok {L : LZ4} h values :
  is_ok (save_archive h values) = true ->
  save_archive h values = Ok (stream_of h values).
Proof. unfold stream_of. destruct (save_archive h values); [reflexivity|discriminate]. Qed.

Lemma save_rejects_large_scalar {L : LZ4} bytes a :
  BLOCK_BYTES <= len bytes ->
  save bytes a = Fail (AssertFailed "sizeof(val) < BLOCK_BYTES").
Proof.
  intros H. unfold save. destruct (Z.ltb_spec (len bytes) BLOCK_BYTES); [lia|reflexivity].
Qed.

(** The claim as stated fails in two ways.  A fixed array as large as a
    block cannot be saved at all (the assertion of [save]).  And when the
    header is directly followed by a blob longer than a block, the first
    flush compresses an empty payload, which the loader rejects (by
    [load_rejects_empty_first_block] for every codec that meets the
    contract, not only for the reference codec used here). *)
Lemma roundtrip_fails_after_header :
  save_archive header_v11 [VScalar (repeat x00 (Z.to_nat BLOCK_BYTES))]
  = Fail (AssertFailed "sizeof(val) < BLOCK_BYTES")
  /\ len header_v11 = headSz /\ head_compression header_v11 = 0
  /\ is_v10 header_v11 = false
  /\ all_load_as [TBinary] [long_blob] [long_blob]
  /\ is_ok (save_archive header_v11 [long_blob]) = true
  /\ load_archive (mkFile (stream_of header_v11 [long_blob]) 0) [TBinary] [long_blob]
     = Fail (Throw "Invalid index file, cannot decompress block").
Proof.
  assert (Hok : is_ok (save_archive header_v11 [long_blob]) = true)
    by (vm_compute; reflexivity).
  split.
  { destruct (save_header_inv (L := StoredLZ4) header_v11 eq_refl eq_refl) as (a1 & Hs & _).
    unfold save_archive, saved_after. rewrite Hs.
    cbn [bind save_values save_value ar_save SaveArchive_output].
    rewrite save_rejects_large_scalar; [reflexivity|].
    unfold len. rewrite repeat_length, Z2Nat.id; [lia|discriminate]. }
  split; [reflexivity|]. split; [reflexivity|]. split; [reflexivity|].
  split; [cbn; auto|]. split; [exact Hok|].
  apply (load_rejects_empty_first_block (L := StoredLZ4) header_v11 [long_blob]).
  - reflexivity.
  - reflexivity.
  - reflexivity.
  - apply stream_of_ok, Hok.
  - vm_compute. reflexivity.
Qed.

(** C1 (amended): values saved after a header are loaded back equal, also
    when their encoding straddles block boundaries and for blobs of length
    0, 1 or more than a block, provided the header carries a zero
    compression field and no legacy marker and the payload of the first
    block is not empty; the header comes back with its compression flag
    and first-block size patched.  When the payload of the first block is
    empty the load fails.  The payload is not empty as soon as the first
    value starts with a non-empty piece that fits the first block. *)
Theorem save_load_roundtrip {L : LZ4} {LC : LZ4Correct L} {K : KeyOrder}
  (h : list byte) (values : list value) (ts : list ty) (ds : list value)
  (stream : list byte) :
  len h = headSz -> head_compression h = 0 -> is_v10 h = false ->
  all_load_as ts ds values ->
  save_archive h values = Ok stream ->
  (hd [] (payloads h values) <> [] ->
   exists compSz,
     load_archive (mkFile stream 0) ts ds = Ok (patched_header h compSz, values)
     /\ head_compression (patched_header h compSz) = 1)
  /\ (hd [] (payloads h values) = [] ->
      load_archive (mkFile stream 0) ts ds
      = Fail (Throw "Invalid index file, cannot decompress block"))
  /\ (forall v vs, values = v :: vs -> first_piece_fits v = true ->
      hd [] (payloads h values) <> []).
Proof.
  intros Hl Hc Hv Hty Hsave. split; [|split].
  - now apply roundtrip_from_payloads.
  - now apply load_rejects_empty_first_block.
  - intros v vs -> Hfit. apply first_value_fits; try assumption.
    now rewrite Hsave.
Qed.

Lemma sample_values_load_as :
  all_load_as sample_types sample_destinations sample_values.
Proof.
  cbn. unfold SIZE_MAX1.
  repeat match goal with
         | |- _ /\ _ => split
         | |- Forall2 _ _ _ => constructor
         | |- Forall _ _ => constructor
         end; cbn; try reflexivity; try lia; auto.
Qed.

Lemma save_load_roundtrip_witness :
  exists compSz,
    load_archive (mkFile (stream_of header_v11 sample_values) 0)
      sample_types sample_destinations
    = Ok (patched_header header_v11 compSz, sample_values).
Proof.
  assert (Hok : is_ok (save_archive header_v11 sample_values) = true)
    by (vm_compute; reflexivity).
  destruct (proj1 (save_load_roundtrip (L := StoredLZ4) (K := UnsignedKeys)
              header_v11 sample_values sample_types sample_destinations
              (stream_of header_v11 sample_values)
              eq_refl eq_refl eq_refl sample_values_load_as
              (stream_of_ok header_v11 sample_values Hok)))
    as (compSz & H & _).
  - vm_compute. discriminate.
  - exists compSz. exact H.
Defined.

(** A blob longer than a block behind a small scalar: the encoding spans
    three blocks and is loaded back. *)
Example long_blob_roundtrip :
  exists compSz,
    load_archive (mkFile (stream_of header_v11 [VScalar [x01]; long_blob]) 0)
      [TScalar 1; TBinary] [VScalar [x00]; long_blob]
    = Ok (patched_header header_v11 compSz, [VScalar [x01]; long_blob]).
Proof.
  assert (Hok : is_ok (save_archive header_v11 [VScalar [x01]; long_blob]) = true)
    by (vm_compute; reflexivity).
  assert (Hty : all_load_as (K := UnsignedKeys) [TScalar 1; TBinary]
                  [VScalar [x00]; long_blob] [VScalar [x01]; long_blob])
    by (cbn; auto).
  assert (Hne : hd [] (payloads header_v11 [VScalar [x01]; long_blob]) <> [])
    by (apply (first_value_fits (L := StoredLZ4)); try reflexivity; exact Hok).
  destruct (roundtrip_from_payloads (L := StoredLZ4) (K := UnsignedKeys)
              header_v11 [VScalar [x01]; long_blob] [TScalar 1; TBinary]
              [VScalar [x00]; long_blob]
              (stream_of header_v11 [VScalar [x01]; long_blob])
              eq_refl eq_refl eq_refl Hty (stream_of_ok _ _ Hok) Hne)
    as (compSz & H & _).
  exists compSz. exact H.
Qed.


(** ** The blocks of a long blob *)

Lemma slice_then_skipn n (l : list byte) : slice 0 n l ++ skipn (Z.to_nat n) l = l.
Proof. unfold slice. change (Z.to_nat 0) with 0%nat. cbn [skipn]. apply firstn_skipn. Qed.

Section BlobBlocks.
Context {L : LZ4}.

Lemma flushed_then_stored a a1 bytes :
  flushBlock a = Ok a1 -> len bytes <= BLOCK_BYTES ->
  forall a2, a2 = store a1 (offset_ a1) bytes (len bytes) ->
  lz4Stream a2 = lz4Stream a ++ [flush_src a]
  /\ flush_src a2 = bytes
  /\ offset_ a2 = len bytes
  /\ first_block_ a2 = false
  /\ SaveInv a2.
Proof.
  intros Hf Hlen a2 Hdef. pose proof (SaveInv_flushed a a1 Hf) as Ha1.
  pose proof (flushed_offset a a1 Hf) as Ho.
  assert (Ha2 : SaveInv a2) by (subst a2; apply SaveInv_store; [exact Ha1|lia]).
  pose proof (flush_src_store a1 bytes Ha1 ltac:(lia)) as Hsrc.
  apply flushBlock_ok in Hf. destruct Hf as [E _].
  assert (Hs1 : flush_src a1 = []) by (rewrite E; reflexivity).
  rewrite <- Hdef, Hs1 in Hsrc. cbn [app] in Hsrc.
  split; [subst a2 a1; reflexivity|]. split; [exact Hsrc|].
  split; [subst a2; unfold store; cbn [offset_]; lia|].
  split; [subst a2 a1; reflexivity|exact Ha2].
Qed.

Lemma loop_blocks fuel : forall ptr a rest a',
  (length ptr <= fuel)%nat -> SaveInv a ->
  save_binary_loop fuel ptr a = Ok (rest, a') ->
  (len ptr <= BLOCK_BYTES /\ rest = ptr /\ a' = a)
  \/ (BLOCK_BYTES < len ptr
      /\ exists full last,
           ptr = concat full ++ last ++ rest
           /\ Forall (fun b => len b = BLOCK_BYTES) full
           /\ len last = BLOCK_BYTES
           /\ 0 < len rest <= BLOCK_BYTES
           /\ lz4Stream a' = lz4Stream a ++ flush_src a :: full
           /\ flush_src a' = last
           /\ offset_ a' = BLOCK_BYTES
           /\ SaveInv a').
Proof.
  assert (Hbb : 0 < BLOCK_BYTES) by reflexivity.
  induction fuel as [|fuel IH]; intros ptr a rest a' Hfuel Ha H; cbn [save_binary_loop] in H.
  - destruct (Z.gtb_spec (len ptr) BLOCK_BYTES) as [Hgt|Hle]; [discriminate|].
    injection H as <- <-. left. auto.
  - destruct (Z.gtb_spec (len ptr) BLOCK_BYTES) as [Hgt|Hle];
      [|injection H as <- <-; left; auto].
    right. split; [exact Hgt|]. inv_bind H. rename x into a1.
    destruct (loop_chunk a1 ptr (flushed_offset a a1 E) Hgt) as [Est Hlen].
    rewrite Est in H.
    remember (store a1 (offset_ a1) (slice 0 BLOCK_BYTES ptr)
                (len (slice 0 BLOCK_BYTES ptr))) as a2 eqn:Hdef.
    destruct (flushed_then_stored a a1 (slice 0 BLOCK_BYTES ptr) E ltac:(lia) a2 Hdef)
      as (Hz & Hsrc & Ho & Hfb & Ha2).
    assert (Hskip : len (skipn (Z.to_nat BLOCK_BYTES) ptr) = len ptr - BLOCK_BYTES)
      by (apply len_skipn; lia).
    assert (Hf : (length (skipn (Z.to_nat BLOCK_BYTES) ptr) <= fuel)%nat).
    { rewrite length_skipn. unfold len in Hgt. lia. }
    pose proof (slice_then_skipn BLOCK_BYTES ptr) as Hcut.
    destruct (IH _ a2 rest a' Hf Ha2 H) as [(Hle & -> & ->)|(Hgt2 & full & last & Hp & Hall & Hl & Hr & Hz' & Hs' & Ho' & Ha')].
    + exists [], (slice 0 BLOCK_BYTES ptr).
      split; [cbn [concat]; rewrite app_nil_l; symmetry; exact Hcut|].
      split; [constructor|]. split; [exact Hlen|].
      split; [clear - Hskip Hle Hgt Hbb; lia|]. split; [exact Hz|]. split; [exact Hsrc|].
      split; [clear - Ho Hlen; lia|exact Ha2].
    + exists (slice 0 BLOCK_BYTES ptr :: full), last.
      split; [cbn [concat]; rewrite <- app_assoc, <- Hp; symmetry; exact Hcut|].
      split; [constructor; [exact Hlen|exact Hall]|]. split; [exact Hl|].
      split; [exact Hr|]. split; [|split; [exact Hs'|split; [exact Ho'|exact Ha']]].
      rewrite Hz', Hz, Hsrc, <- app_assoc. reflexivity.
Qed.

End BlobBlocks.

Lemma long_blob_cut {L : LZ4} (a a' : SaveArchive) (bytes : list byte) :
  SaveInv a -> BLOCK_BYTES < len bytes ->
  save_binary bytes a = Ok a' ->
  exists full rest,
    bytes = concat full ++ rest
    /\ full <> []
    /\ Forall (fun b => len b = BLOCK_BYTES) full
    /\ 0 < len rest <= BLOCK_BYTES
    /\ lz4Stream a' = lz4Stream a ++ flush_src a :: full
    /\ flush_src a' = rest
    /\ offset_ a' = len rest.
Proof.
  intros Ha Hlong H. unfold save_binary in H. inv_bind H. destruct x as [rest a1].
  destruct (loop_blocks _ bytes a rest a1 (le_n _) Ha E)
    as [(Hle & _)|(_ & full & last & Hp & Hall & Hl & Hr & Hz & Hs & Ho & Ha1)]; [lia|].
  apply save_tail_cases in H. destruct H as [[Hfit _]|(_ & a2 & Hf & ->)]; [lia|].
  destruct (flushed_then_stored a1 a2 rest Hf ltac:(lia) _ eq_refl)
    as (Hz2 & Hsrc & Ho2 & _ & _).
  exists (full ++ [last]), rest.
  split; [rewrite concat_app; cbn [concat]; rewrite app_nil_r, <- app_assoc; exact Hp|].
  split; [now destruct full|].
  split; [apply Forall_app; split; [exact Hall|constructor; [exact Hl|constructor]]|].
  split; [exact Hr|]. split; [|split; [exact Hsrc|exact Ho2]].
  rewrite Hz2, Hz, Hs, <- app_assoc. reflexivity.
Qed.


(** ** Chunking: where the writer puts a piece and where the reader finds it *)

Lemma len_slice_le off n l : len (slice off n l) <= len l.
Proof.
  unfold slice, len. rewrite length_firstn, length_skipn. lia.
Qed.

Lemma flushBlock_total {L : LZ4} {LC : LZ4Correct L} a :
  SaveInv a -> exists a', flushBlock a = Ok a'.
Proof.
  intros Ha. pose proof (flush_src_length a Ha) as Hlen.
  pose proof (len_nonneg (flush_src a)) as Hs0.
  assert (Hcomp : flush_comp a <> []).
  { unfold flush_comp. apply compress_succeeds.
    - destruct Ha as (_ & Hr & _).
      assert (Hle : len (flush_src a) <= BLOCK_BYTES)
        by (destruct (first_block_ a); consts; lia).
      unfold LZ4_COMPRESSBOUND at 1.
      destruct (Z.gtb_spec (len (flush_src a)) LZ4_MAX_INPUT_SIZE);
        [rewrite bound_BLOCK_BYTES; lia|].
      rewrite bound_BLOCK_BYTES.
      assert (len (flush_src a) / 255 < 258)
        by (apply Z.div_lt_upper_bound; unfold BLOCK_BYTES in *; lia).
      unfold BLOCK_BYTES in *. lia.
    - destruct Ha as (_ & Hr & _). unfold LZ4_MAX_INPUT_SIZE.
      destruct (first_block_ a); consts; lia. }
  pose proof (len_pos _ Hcomp) as Hpos.
  destruct Ha as (Ho & Hr & Hf). unfold flush_comp, flush_src in *. unfold flushBlock.
  destruct (first_block_ a).
  - destruct (Hf eq_refl) as [Hh Hc].
    rewrite wrap64_small in * by (consts; lia).
    destruct (Z.ltb_spec (len (s_buffer_ a)) headSz); [consts; lia|].
    destruct (Z.ltb_spec (len (s_buffer_ a)) (headSz + (offset_ a - headSz))); [lia|].
    cbn [orb]. rewrite Hc. cbn [Z.eqb negb].
    destruct (Z.leb_spec
                (len (LZ4_compress_HC_continue (lz4Stream a)
                        (slice headSz (offset_ a - headSz) (s_buffer_ a))
                        (LZ4_COMPRESSBOUND BLOCK_BYTES))) 0); [lia|eauto].
  - destruct (Z.ltb_spec (len (s_buffer_ a)) (offset_ a)); [lia|].
    destruct (Z.leb_spec
                (len (LZ4_compress_HC_continue (lz4Stream a)
                        (slice 0 (offset_ a) (s_buffer_ a))
                        (LZ4_COMPRESSBOUND BLOCK_BYTES))) 0); [lia|eauto].
Qed.

Lemma save_binary_loop_total {L : LZ4} {LC : LZ4Correct L} fuel : forall ptr a,
  (length ptr <= fuel)%nat -> SaveInv a ->
  exists rest a', save_binary_loop fuel ptr a = Ok (rest, a').
Proof.
  induction fuel as [|fuel IH]; intros ptr a Hfuel Ha; cbn [save_binary_loop].
  - destruct (Z.gtb_spec (len ptr) BLOCK_BYTES) as [Hgt|Hle]; [|eauto].
    unfold len, BLOCK_BYTES in Hgt. lia.
  - destruct (Z.gtb_spec (len ptr) BLOCK_BYTES) as [Hgt|Hle]; [|eauto].
    destruct (flushBlock_total a Ha) as (a1 & Hf). rewrite Hf. cbn [bind].
    pose proof (flushed_offset a a1 Hf) as Ho.
    destruct (loop_chunk a1 ptr Ho) as [Est Hlen]; [lia|]. rewrite Est.
    apply IH.
    + rewrite length_skipn. assert (0 < BLOCK_BYTES) by reflexivity.
      unfold len in Hgt. lia.
    + apply SaveInv_store; [eapply SaveInv_flushed; eauto|]. rewrite Ho, Hlen. lia.
Qed.

Lemma save_binary_total {L : LZ4} {LC : LZ4Correct L} bytes a :
  SaveInv a -> exists a', save_binary bytes a = Ok a'.
Proof.
  intros Ha. unfold save_binary.
  destruct (save_binary_loop_total (length bytes) bytes a (le_n _) Ha) as (rest & a1 & E).
  pose proof (save_binary_loop_keeps _ bytes a (le_n _) Ha) as Hk.
  rewrite E in *. cbn [keeps fst snd bind] in *. destruct Hk as (Ha1 & _).
  destruct (Z.gtb_spec (offset_ a1 + len rest) BLOCK_BYTES).
  - destruct (flushBlock_total a1 Ha1) as (a2 & Hf). rewrite Hf. cbn [bind]. eauto.
  - cbn [bind]. eauto.
Qed.

Lemma long_blob_not_in_one_block {L : LZ4} a a' bytes :
  SaveInv a -> save_binary bytes a = Ok a' -> BLOCK_BYTES < len bytes ->
  ~ placed_in_one_block a a' bytes.
Proof.
  intros Ha H Hlong (_ & Hs & _).
  pose proof (save_binary_keeps bytes a Ha) as Hk. rewrite H in Hk.
  destruct Hk as (Ho & Hr & _).
  pose proof (len_slice_le (offset_ a' - len bytes) (len bytes) (s_buffer_ a')) as Hle.
  rewrite Hs in Hle. lia.
Qed.

(** The claim as stated fails for a blob longer than a block: saved behind
    one scalar byte, the blob of 65537 bytes is not held by the active
    block (whose offset stays within the block capacity): it is cut, its
    first 65536 bytes fill a block of their own.  This holds for every
    blob longer than a block (lemma above). *)
Lemma long_blob_spans_blocks :
  let a := state_after header_v11 [VScalar [x01]] in
  let blob := repeat x07 (Z.to_nat (BLOCK_BYTES + 1)) in
  len blob = BLOCK_BYTES + 1
  /\ exists a',
       save_binary blob a = Ok a'
       /\ offset_ a' <= BLOCK_BYTES
       /\ ~ placed_in_one_block a a' blob.
Proof.
  cbv zeta.
  assert (Hl : len (repeat x07 (Z.to_nat (BLOCK_BYTES + 1))) = BLOCK_BYTES + 1).
  { unfold len. rewrite repeat_length. apply Z2Nat.id. discriminate. }
  assert (Ha : SaveInv (state_after header_v11 [VScalar [x01]])).
  { unfold SaveInv. repeat split; try (vm_compute; congruence).
    all: vm_compute; reflexivity. }
  split; [exact Hl|].
  destruct (save_binary_total (L := StoredLZ4) (repeat x07 (Z.to_nat (BLOCK_BYTES + 1)))
              _ Ha) as (a' & H).
  exists a'. split; [exact H|]. split.
  - pose proof (save_binary_keeps (L := StoredLZ4)
                  (repeat x07 (Z.to_nat (BLOCK_BYTES + 1))) _ Ha) as Hk.
    rewrite H in Hk. apply Hk.
  - apply (long_blob_not_in_one_block _ _ _ Ha H). rewrite Hl. lia.
Qed.

Section Chunking.
Context {L : LZ4} {LC : LZ4Correct L}.

Lemma placed a a' bytes :
  SaveInv a ->
  (offset_ a + len bytes <= BLOCK_BYTES /\ a' = store a (offset_ a) bytes (len bytes))
  \/ (BLOCK_BYTES < offset_ a + len bytes
      /\ exists a1, flushBlock a = Ok a1 /\ a' = store a1 (offset_ a1) bytes (len bytes)) ->
  len bytes <= BLOCK_BYTES ->
  placed_in_one_block a a' bytes.
Proof.
  intros Ha H Hlen. pose proof (len_nonneg bytes) as Hb0.
  destruct H as [[Hfit ->]|[Hover (a1 & Hf & ->)]].
  - pose proof (SaveInv_store a bytes Ha Hfit) as (_ & Hr & _).
    destruct Ha as (Ho & _). unfold placed_in_one_block, store in *.
    cbn [offset_ s_buffer_ lz4Stream] in *. split; [exact Hr|]. split; [|left; auto].
    rewrite Ho, memcpy_at_end.
    replace (len (s_buffer_ a) + len bytes - len bytes) with (len (s_buffer_ a)) by lia.
    rewrite <- (app_nil_r bytes) at 2. apply slice_mid.
  - pose proof (flushBlock_ok a a1 Hf) as [E _]. subst a1.
    unfold placed_in_one_block, store, memcpy_at.
    cbn [offset_ s_buffer_ lz4Stream Z.to_nat firstn app]. rewrite Z.add_0_l.
    split; [lia|]. split; [|right; auto].
    rewrite Z.sub_diag. now apply slice_0_all.
Qed.

Lemma At_facts h blocks s a r :
  At h blocks s a r ->
  ptr_ r = offset_ a /\ length (lz4StreamDecode r) = S (length (lz4Stream a)).
Proof.
  intros (x & rest & _ & (_ & _ & Hp & Hh & _)). split; [exact Hp|].
  rewrite Hh, length_app. cbn [length]. lia.
Qed.

Lemma extends_length c1 c2 : extends c1 c2 -> (length c1 <= length c2)%nat.
Proof.
  intros (init & last & x & rest & -> & ->). rewrite !length_app. cbn [length]. lia.
Qed.

Lemma follows h blocks s a a' r r' :
  grows h a a' -> At h blocks s a r -> At h blocks s a' r' ->
  reader_follows h blocks s a a' r r'.
Proof.
  intros [_ G] H H'. destruct (At_facts _ _ _ _ _ H) as [Hp Hn].
  destruct (At_facts _ _ _ _ _ H') as [Hp' Hn'].
  apply extends_length in G. unfold content in G. rewrite !length_app in G.
  cbn [length] in G.
  unfold reader_follows. split; [exact H'|]. split; [exact Hp|]. split; [exact Hp'|].
  rewrite Hn, Hn'. lia.
Qed.

(** C9 (amended): after every save or save_binary the write offset is at
    most the block capacity; a scalar, or a blob of at most one block,
    that does not fit the active block is preceded by a flush, so it
    occupies contiguous bytes of exactly one block; a blob longer than a
    block is cut into chunks of BLOCK_BYTES bytes that each fill a block
    of their own, followed by its remainder in the active block; the
    reader, asked for the same piece, finds it: it stays in the active
    block when the writer did, moves on by as many blocks as the writer
    flushed, and ends with its cursor at the writer's offset. *)
Theorem chunking_agreement (h : list byte) (blocks : list (list byte)) (s : list byte)
  (a a' : SaveArchive) (r : LoadArchive) (bytes : list byte) :
  WriterInv h a -> good_frames [] blocks ->
  At h blocks s a r -> extends (content a') blocks ->
  (save bytes a = Ok a' ->
   placed_in_one_block a a' bytes
   /\ exists r', load (len bytes) r = Ok (bytes, r')
                 /\ reader_follows h blocks s a a' r r')
  /\ (save_binary bytes a = Ok a' ->
      0 <= offset_ a' <= BLOCK_BYTES
      /\ (len bytes <= BLOCK_BYTES -> placed_in_one_block a a' bytes)
      /\ (BLOCK_BYTES < len bytes -> cut_into_blocks a a' bytes)
      /\ exists r', load_binary (len bytes) r = Ok (bytes, r')
                    /\ reader_follows h blocks s a a' r r').
Proof.
  intros Hw Hgood Hat Hext. split; intros H.
  - split.
    + pose proof (save_cases bytes a a' H) as [Hlt Hc].
      apply placed; [apply Hw|exact Hc|lia].
    + destruct (save_sim h blocks s Hgood bytes a a' r Hw H Hext Hat) as (r' & Hl & Hat').
      exists r'. split; [exact Hl|].
      apply follows; [exact (save_grows h bytes a a' Hw H)|exact Hat|exact Hat'].
  - pose proof (save_binary_grows h bytes a a' Hw H) as G.
    split; [apply G|]. split.
    + intros Hlen. unfold save_binary in H. inv_bind H. destruct x as [rest a1].
      pose proof (save_binary_loop_keeps _ bytes a (le_n _) (proj1 Hw)) as Hk.
      rewrite E in Hk. cbn [keeps fst snd] in Hk. destruct Hk as (_ & _ & _ & Heq).
      specialize (Heq Hlen). apply (f_equal fst) in Heq as Hrest.
      apply (f_equal snd) in Heq. cbn [fst snd] in *. subst rest a1.
      apply placed; [apply Hw|now apply save_tail_cases|exact Hlen].
    + split; [intros Hlong; exact (long_blob_cut a a' bytes (proj1 Hw) Hlong H)|].
      destruct (save_binary_sim h blocks s Hgood bytes a a' r Hw H Hext Hat)
        as (r' & Hl & Hat').
      exists r'. split; [exact Hl|]. apply follows; assumption.
Qed.

End Chunking.

Ltac by_computation :=
  vm_compute; first [reflexivity | congruence | intuition congruence].

(** ** When a save fails *)

Section SaveOutcome.
Context {L : LZ4} {LC : LZ4Correct L}.

Lemma save_outcome_bind fits1 fits2 (r : result SaveArchive) k :
  save_outcome fits1 r ->
  (forall a, SaveInv a -> save_outcome fits2 (k a)) ->
  save_outcome (fits1 && fits2) (bind r k).
Proof.
  destruct fits1; cbn [save_outcome andb].
  - intros (a' & -> & Ha') Hk. cbn [bind]. now apply Hk.
  - intros -> _. reflexivity.
Qed.

Lemma save_outcome_scalar bytes a :
  SaveInv a -> save_outcome (len bytes <? BLOCK_BYTES) (save bytes a).
Proof.
  intros Ha. destruct (Z.ltb_spec (len bytes) BLOCK_BYTES) as [Hlt|Hge]; cbn [save_outcome].
  - pose proof (save_keeps bytes a Ha) as Hk. unfold save in *.
    destruct (Z.ltb_spec (len bytes) BLOCK_BYTES); [|lia]. cbn [negb] in *.
    destruct (offset_ a + len bytes >? BLOCK_BYTES).
    + destruct (flushBlock_total a Ha) as (a1 & E). rewrite E in *. cbn [bind keeps] in *.
      eauto.
    + cbn [bind keeps] in *. eauto.
  - now apply save_rejects_large_scalar.
Qed.

Lemma save_outcome_binary bytes a :
  SaveInv a -> save_outcome true (save_binary bytes a).
Proof.
  intros Ha. destruct (save_binary_total bytes a Ha) as (a' & E).
  pose proof (save_binary_keeps bytes a Ha) as Hk. rewrite E in *. cbn [keeps] in Hk.
  exists a'. auto.
Qed.

Lemma save_value_outcome v : forall a,
  SaveInv a -> save_outcome (scalars_fit v) (save_value v a).
Proof.
  induction v as [bytes|n|elems IH|entries IH|p|bytes|fields IH] using value_ind;
    intros a Ha.
  - apply save_outcome_scalar, Ha.
  - apply (save_outcome_scalar (int_bytes n) a Ha).
  - rewrite save_value_vector. cbn [scalars_fit].
    apply (save_outcome_bind true); [apply (save_outcome_scalar (size_t_bytes _) a Ha)|].
    clear a Ha. induction IH as [|x l Hx _ IHl]; intros a Ha; cbn [save_values forallb].
    + exists a. auto.
    + apply save_outcome_bind; [apply Hx, Ha|exact IHl].
  - rewrite save_value_map. cbn [scalars_fit].
    apply (save_outcome_bind true); [apply (save_outcome_scalar (size_t_bytes _) a Ha)|].
    clear a Ha. induction IH as [|[k x] l [Hk Hx] _ IHl]; intros a Ha;
      cbn [save_entries forallb fst snd].
    + exists a. auto.
    + rewrite <- andb_assoc. apply save_outcome_bind; [apply Hk, Ha|]. intros a1 Ha1.
      apply save_outcome_bind; [apply Hx, Ha1|exact IHl].
  - exists a. auto.
  - apply save_outcome_binary, Ha.
  - rewrite save_value_struct. cbn [scalars_fit].
    induction IH as [|x l Hx _ IHl] in a, Ha |- *; cbn [save_values forallb].
    + exists a. auto.
    + apply save_outcome_bind; [apply Hx, Ha|]. intros a1 Ha1. now apply IHl.
Qed.

Lemma save_values_outcome vs : forall a,
  SaveInv a -> save_outcome (forallb scalars_fit vs) (save_values vs a).
Proof.
  induction vs as [|v vs IH]; intros a Ha; cbn [save_values forallb].
  - exists a. auto.
  - apply save_outcome_bind; [now apply save_value_outcome|exact IH].
Qed.

End SaveOutcome.

(** X1: with a codec that meets the LZ4 contract, a whole save that starts
    with a header (80 bytes, compression field 0) succeeds exactly when
    every object handed to [save] is smaller than a block; otherwise it
    stops at the assertion [sizeof(val) < BLOCK_BYTES].  No flush ever
    throws and blobs of any length are accepted. *)
Theorem save_fails_only_on_large_scalar {L : LZ4} {LC : LZ4Correct L}
  (h : list byte) (values : list value) :
  len h = headSz -> head_compression h = 0 ->
  (forallb scalars_fit values = true ->
   exists stream, save_archive h values = Ok stream)
  /\ (forallb scalars_fit values = false ->
      save_archive h values = Fail too_large).
Proof.
  intros Hl Hc.
  destruct (save_header_inv h Hl Hc) as (a1 & Hs & Ha1 & _).
  pose proof (save_values_outcome values a1 Ha1) as Ho.
  unfold save_archive, saved_after. rewrite Hs. cbn [bind].
  split; intros Hf; rewrite Hf in Ho; cbn [save_outcome] in Ho.
  - destruct Ho as (an & -> & Han). cbn [bind]. unfold Save_close.
    destruct (flushBlock_total an Han) as (af & ->). cbn [bind]. eauto.
  - rewrite Ho. reflexivity.
Qed.

Lemma save_fails_only_on_large_scalar_witness :
  (exists stream,
     save_archive (L := StoredLZ4) header_v11 [VBinary [x01]; VEnum 3] = Ok stream)
  /\ head_compression header_v11 = 0.
Proof.
  split; [|reflexivity].
  apply (save_fails_only_on_large_scalar (L := StoredLZ4) header_v11
           [VBinary [x01]; VEnum 3]); reflexivity.
Defined.

(** ** Saving behind what the stream already holds *)

Section OnStream.
Context {L : LZ4}.
Variable stream0 : list byte.

Lemma result_map_bind {A B} (f : A -> A) (g : B -> B) (r : result A) (k : A -> result B) :
  (forall a, k (f a) = result_map g (k a)) ->
  bind (result_map f r) k = result_map g (bind r k).
Proof. intros Hk. destruct r as [a|e]; cbn [result_map bind]; [apply Hk|reflexivity]. Qed.

Lemma flushBlock_on a :
  flushBlock (on_stream stream0 a) = result_map (on_stream stream0) (flushBlock a).
Proof.
  unfold flushBlock, on_stream.
  cbn [first_block_ s_buffer_ offset_ lz4Stream s_stream_ s_other_half].
  destruct (first_block_ a).
  - destruct (_ || _); [reflexivity|]. destruct (negb _); [reflexivity|].
    destruct (_ <=? 0); [reflexivity|]. cbn [result_map]. unfold fwrite.
    cbn [s_stream_ s_buffer_ s_other_half offset_ first_block_ lz4Stream].
    now rewrite app_assoc.
  - destruct (_ <? _); [reflexivity|]. destruct (_ <=? 0); [reflexivity|].
    cbn [result_map]. unfold fwrite.
    cbn [s_stream_ s_buffer_ s_other_half offset_ first_block_ lz4Stream].
    now rewrite app_assoc.
Qed.

Lemma store_on a at_ src n :
  store (on_stream stream0 a) at_ src n = on_stream stream0 (store a at_ src n).
Proof. reflexivity. Qed.

Lemma flush_if_on (c : bool) a (k : SaveArchive -> result SaveArchive) :
  (forall b, k (on_stream stream0 b) = result_map (on_stream stream0) (k b)) ->
  bind (if c then flushBlock (on_stream stream0 a) else Ok (on_stream stream0 a)) k
  = result_map (on_stream stream0) (bind (if c then flushBlock a else Ok a) k).
Proof.
  intros Hk. destruct c.
  - rewrite flushBlock_on. now apply result_map_bind.
  - cbn [bind]. apply Hk.
Qed.

Lemma save_on bytes a :
  save bytes (on_stream stream0 a) = result_map (on_stream stream0) (save bytes a).
Proof.
  unfold save. destruct (negb _); [reflexivity|].
  change (offset_ (on_stream stream0 a)) with (offset_ a).
  apply flush_if_on. intros b. reflexivity.
Qed.

Lemma save_binary_loop_on fuel : forall ptr a,
  save_binary_loop fuel ptr (on_stream stream0 a)
  = result_map (fun r => (fst r, on_stream stream0 (snd r))) (save_binary_loop fuel ptr a).
Proof.
  induction fuel as [|fuel IH]; intros ptr a; cbn [save_binary_loop].
  - destruct (_ >? _); reflexivity.
  - destruct (_ >? _); [|reflexivity].
    rewrite flushBlock_on. destruct (flushBlock a) as [a1|e]; cbn [result_map bind];
      [|reflexivity].
    rewrite store_on. rewrite <- IH. cbn [save_binary_loop]. reflexivity.
Qed.

Lemma save_binary_on bytes a :
  save_binary bytes (on_stream stream0 a)
  = result_map (on_stream stream0) (save_binary bytes a).
Proof.
  unfold save_binary. rewrite save_binary_loop_on.
  destruct (save_binary_loop _ bytes a) as [[rest a1]|e]; cbn [result_map bind fst snd];
    [|reflexivity].
  change (offset_ (on_stream stream0 a1)) with (offset_ a1).
  apply flush_if_on. intros b. reflexivity.
Qed.

Lemma save_value_on v : forall a,
  save_value v (on_stream stream0 a) = result_map (on_stream stream0) (save_value v a).
Proof.
  induction v as [bytes|n|elems IH|entries IH|p|bytes|fields IH] using value_ind;
    intros a.
  - apply save_on.
  - apply (save_on (int_bytes n)).
  - rewrite !save_value_vector. cbn [ar_save SaveArchive_output]. rewrite save_on.
    apply result_map_bind. clear a.
    induction IH as [|x l Hx _ IHl]; intros a; cbn [save_values]; [reflexivity|].
    rewrite Hx. now apply result_map_bind.
  - rewrite !save_value_map. cbn [ar_save SaveArchive_output]. rewrite save_on.
    apply result_map_bind. clear a.
    induction IH as [|[k x] l [Hk Hx] _ IHl]; intros a; cbn [save_entries]; [reflexivity|].
    cbn [fst snd] in *. rewrite Hk. apply result_map_bind. intros a1.
    rewrite Hx. now apply result_map_bind.
  - reflexivity.
  - apply save_binary_on.
  - rewrite !save_value_struct.
    induction IH as [|x l Hx _ IHl] in a |- *; cbn [save_values]; [reflexivity|].
    rewrite Hx. now apply result_map_bind.
Qed.

Lemma save_values_on vs : forall a,
  save_values vs (on_stream stream0 a) = result_map (on_stream stream0) (save_values vs a).
Proof.
  induction vs as [|v vs IH]; intros a; cbn [save_values]; [reflexivity|].
  rewrite save_value_on. now apply result_map_bind.
Qed.

Lemma Save_close_on a :
  Save_close (on_stream stream0 a) = result_map (app stream0) (Save_close a).
Proof.
  unfold Save_close. rewrite flushBlock_on.
  destruct (flushBlock a) as [a1|e]; cbn [result_map bind]; [|reflexivity].
  unfold Save_endBlock, fwrite, on_stream. cbn [s_stream_]. now rewrite app_assoc.
Qed.

End OnStream.

Lemma save_archive_on_app {L : LZ4} (stream0 h : list byte) (values : list value) :
  save_archive_on stream0 h values = result_map (app stream0) (save_archive h values).
Proof.
  unfold save_archive_on, save_archive, saved_after.
  assert (E : Save_initBlock stream0 = on_stream stream0 (Save_initBlock [])).
  { unfold Save_initBlock, on_stream. cbn [s_stream_]. now rewrite app_nil_r. }
  rewrite E, save_on.
  destruct (save h (Save_initBlock [])) as [a1|e]; cbn [result_map bind]; [|reflexivity].
  rewrite save_values_on.
  destruct (save_values values a1) as [an|e]; cbn [result_map bind]; [|reflexivity].
  apply Save_close_on.
Qed.

(** X2: a SaveArchive constructed on a stream that already holds data (and
    is positioned behind it) only appends to it: a whole save on such a
    stream fails exactly when the save on an empty stream fails, with the
    same failure, and otherwise leaves the previous content followed by
    the bytes it writes on an empty stream. *)
Theorem save_appends_to_stream {L : LZ4} (stream0 h : list byte) (values : list value) :
  save_archive_on stream0 h values = result_map (app stream0) (save_archive h values).
Proof. exact (save_archive_on_app stream0 h values). Qed.

(** ** The legacy path *)

Section Legacy.
Context {L : LZ4}.

(** [initBlock] on a legacy file, up to the call of the decompressor. *)
Lemma legacy_decode pre head comp :
  len head = headSz -> is_v10 head = true ->
  len (pre ++ head ++ comp) < SIZE_MAX1 ->
  let expected := wrap64 (head_first_block_size head - headSz) in
  Load_initBlock (file_at pre head comp)
  = if negb (head_compression head =? 1)
    then Fail (Throw "Compression type not supported")
    else
      if negb (wrap64 (match LZ4_decompress_safe comp expected with
                       | Some out => len out
                       | None => LZ4_decompress_safe_error comp expected
                       end) =? expected)
      then Fail (Throw "Unexpected decompression size")
      else
        match LZ4_decompress_safe comp expected with
        | None => Fail Undefined
        | Some out =>
            if wrap64 (expected + headSz) <? headSz + len out then Fail Undefined
            else Ok {| l_stream_ := fseek_set (file_at pre head comp)
                                      (len (pre ++ head ++ comp));
                       l_buffer_ := head ++ out;
                       l_other_half := false;
                       ptr_ := 0;
                       block_sz_ := wrap64 (expected + headSz);
                       buffer_blocks_ := false;
                       compressed_buffer_ := None;
                       lz4StreamDecode := [] |}
        end.
Proof.
  intros Hl Hv Hsz expected.
  pose proof (len_nonneg pre) as Hp0. pose proof (len_nonneg comp) as Hc0.
  rewrite !len_app, Hl, SIZE_MAX1_val in Hsz.
  assert (Hr : fread headSz (file_at pre head comp)
               = (Some head, fseek_set (file_at pre head comp) (len (pre ++ head)))).
  { rewrite <- Hl at 1. apply (fread_at _ pre head comp);
      [reflexivity|reflexivity|rewrite Hl; reflexivity]. }
  rewrite (initBlock_v10 _ _ _ Hr Hv). unfold decompressAndLoadV10.
  change (fseek_set (file_at pre head comp) (ftell (file_at pre head comp)))
    with (file_at pre head comp).
  assert (Hfs : wrap64 (file_end (file_at pre head comp) - ftell (file_at pre head comp))
                = len (head ++ comp)).
  { unfold file_end, ftell, file_at. cbn [f_data f_pos]. rewrite !len_app, Hl.
    replace (len pre + (headSz + len comp) - len pre) with (headSz + len comp) by lia.
    apply wrap64_small. consts. lia. }
  rewrite Hfs.
  assert (Hr2 : fread (len (head ++ comp)) (file_at pre head comp)
                = (Some (head ++ comp),
                   fseek_set (file_at pre head comp) (len (pre ++ head ++ comp)))).
  { apply (fread_at _ pre (head ++ comp) []).
    - unfold file_at. cbn [f_data]. now rewrite app_nil_r.
    - reflexivity.
    - rewrite len_app, Hl. consts. lia. }
  rewrite Hr2. rewrite len_app, Hl.
  destruct (Z.ltb_spec (headSz + len comp) headSz); [lia|].
  replace (headSz + len comp - headSz) with (len comp) by lia.
  rewrite (wrap64_small (len comp)) by (consts; lia).
  assert (Hcf : head_compression (head ++ comp) = head_compression head).
  { unfold head_compression. rewrite slice_app_l; [reflexivity|consts; lia..]. }
  assert (Hff : head_first_block_size (head ++ comp) = head_first_block_size head).
  { unfold head_first_block_size. rewrite slice_app_l; [reflexivity|consts; lia..]. }
  rewrite Hcf, Hff. fold expected.
  destruct (negb (head_compression head =? 1)); [reflexivity|].
  rewrite slice_app_r by lia. rewrite Hl, Z.sub_diag, slice_0_all by reflexivity.
  cbv zeta.
  destruct (negb (_ =? expected)); [reflexivity|].
  destruct (LZ4_decompress_safe comp expected) as [out|]; [|reflexivity].
  destruct (_ <? headSz + len out); [reflexivity|].
  rewrite slice_app_l, slice_0_all by (rewrite ?Hl; consts; lia).
  assert (Hw : wrap64 (len comp + headSz + ftell (file_at pre head comp))
               = len (pre ++ head ++ comp)).
  { unfold ftell, file_at. cbn [f_pos]. rewrite !len_app, Hl.
    replace (len comp + headSz + len pre) with (len pre + (headSz + len comp)) by lia.
    apply wrap64_small. consts. lia. }
  rewrite Hw. destruct (negb _); reflexivity.
Qed.

Lemma first_block_size_range head :
  len head = headSz -> 0 <= head_first_block_size head < SIZE_MAX1.
Proof.
  intros Hl. unfold head_first_block_size.
  pose proof (le_decode_range (slice off_first_block_size 8 head)) as Hrg.
  rewrite len_slice in Hrg by (consts; lia). exact Hrg.
Qed.

Lemma legacy_open pre head comp payload :
  len head = headSz -> is_v10 head = true -> head_compression head = 1 ->
  head_first_block_size head = headSz + len payload ->
  len (pre ++ head ++ comp) < SIZE_MAX1 ->
  LZ4_decompress_safe comp (len payload) = Some payload ->
  exists a, Load_initBlock (file_at pre head comp) = Ok a
            /\ LegacyAt (head ++ payload) a /\ ptr_ a = 0.
Proof.
  intros Hl Hv Hc Hfb Hsz Hdec. pose proof (len_nonneg payload) as Hy0.
  pose proof (first_block_size_range head Hl) as Hrg. rewrite Hfb, SIZE_MAX1_val in Hrg.
  rewrite (legacy_decode pre head comp Hl Hv Hsz). cbv zeta. rewrite Hc, Hfb.
  cbn [Z.eqb Pos.eqb negb].
  replace (headSz + len payload - headSz) with (len payload) by lia.
  rewrite (wrap64_small (len payload)) by (consts; lia).
  rewrite Hdec, (wrap64_small (len payload)) by (consts; lia).
  rewrite Z.eqb_refl. cbn [negb].
  rewrite (wrap64_small (len payload + headSz)) by (consts; lia).
  destruct (Z.ltb_spec (len payload + headSz) (headSz + len payload)); [lia|].
  eexists. split; [reflexivity|]. unfold LegacyAt.
  cbn [l_buffer_ block_sz_ ptr_ buffer_blocks_ l_stream_].
  rewrite len_app, Hl.
  split; [|reflexivity].
  split; [reflexivity|]. split; [lia|]. split; [consts; lia|]. split; reflexivity.
Qed.

End Legacy.

Lemma firstn_plus {A} (a b : nat) : forall l : list A,
  firstn (a + b) l = firstn a l ++ firstn b (skipn a l).
Proof.
  induction a as [|a IH]; intros l; [reflexivity|].
  destruct l as [|x l]; cbn [Nat.add firstn skipn app].
  - now rewrite firstn_nil.
  - now rewrite IH.
Qed.

Lemma slice_split off n m l :
  0 <= off -> 0 <= n -> 0 <= m ->
  slice off (n + m) l = slice off n l ++ slice (off + n) m l.
Proof.
  intros Ho Hn Hm. unfold slice.
  rewrite (Z2Nat.inj_add n m), (Z2Nat.inj_add off n) by assumption.
  rewrite firstn_plus, skipn_skipn. do 3 f_equal. apply Nat.add_comm.
Qed.

Section LegacyReads.
Context {L : LZ4}.
Variable buf : list byte.

Lemma legacy_read a n :
  LegacyAt buf a -> 0 <= n -> ptr_ a + n <= len buf ->
  exists a', load n a = Ok (slice (ptr_ a) n buf, a')
             /\ LegacyAt buf a' /\ ptr_ a' = ptr_ a + n.
Proof.
  intros (Hb & Hsz & Hp & Hbb & Hend) Hn Hfit. unfold load, preparePtr. rewrite Hsz.
  destruct (Z.leb_spec (ptr_ a + n) (len buf)); [|lia]. cbn [bind]. unfold fetch.
  rewrite Hsz. destruct (Z.ltb_spec (len buf) (ptr_ a + n)); [lia|].
  eexists. split; [rewrite Hb; reflexivity|]. split; [|reflexivity].
  unfold LegacyAt. cbn [l_buffer_ block_sz_ ptr_ buffer_blocks_ l_stream_].
  repeat split; try assumption; lia.
Qed.

Lemma legacy_prepare_past a n :
  LegacyAt buf a -> len buf < ptr_ a + n -> preparePtr n a = Fail past_end.
Proof.
  intros (Hb & Hsz & Hp & Hbb & Hend) Hpast. unfold preparePtr. rewrite Hsz.
  destruct (Z.leb_spec (ptr_ a + n) (len buf)); [lia|].
  pose proof (fread_fails sizeof_size_t (l_stream_ a)) as Hf.
  destruct (fread sizeof_size_t (l_stream_ a)) as [r f]. cbn [fst] in Hf.
  rewrite Hf by (rewrite Hend; consts; lia). reflexivity.
Qed.

Lemma legacy_read_past a n :
  LegacyAt buf a -> len buf < ptr_ a + n -> load n a = Fail past_end.
Proof. intros Ha Hpast. unfold load. now rewrite legacy_prepare_past. Qed.

Lemma legacy_chunks fuel : forall size acc a,
  LegacyAt buf a -> 0 <= size <= Z.of_nat fuel -> ptr_ a + size <= len buf ->
  exists rest a',
    load_binary_loop fuel size acc a
    = Ok (rest, acc ++ slice (ptr_ a) (size - rest) buf, a')
    /\ LegacyAt buf a' /\ ptr_ a' = ptr_ a + (size - rest)
    /\ 0 <= rest <= BLOCK_BYTES /\ rest <= size.
Proof.
  assert (Hbb : 0 < BLOCK_BYTES) by reflexivity.
  assert (Hstop : forall size acc a, LegacyAt buf a -> 0 <= size <= BLOCK_BYTES ->
            exists rest a',
              Ok (size, acc, a) = Ok (rest, acc ++ slice (ptr_ a) (size - rest) buf, a')
              /\ LegacyAt buf a' /\ ptr_ a' = ptr_ a + (size - rest)
              /\ 0 <= rest <= BLOCK_BYTES /\ rest <= size).
  { intros size acc a Ha Hs. exists size, a. rewrite Z.sub_diag, Z.add_0_r. split.
    - unfold slice. cbn [Z.to_nat firstn]. now rewrite app_nil_r.
    - split; [exact Ha|]. split; [reflexivity|lia]. }
  induction fuel as [|fuel IH]; intros size acc a Ha Hs Hfit; cbn [load_binary_loop].
  - destruct (Z.gtb_spec size BLOCK_BYTES) as [Hgt|Hle]; [cbn in Hs; lia|].
    apply Hstop; [exact Ha|lia].
  - destruct (Z.gtb_spec size BLOCK_BYTES) as [Hgt|Hle]; [|apply Hstop; [exact Ha|lia]].
    assert (Hp0 : 0 <= ptr_ a) by (destruct Ha as (_ & _ & ? & _); lia).
    destruct (legacy_read a BLOCK_BYTES Ha) as (a1 & Hr & Ha1 & Hp1); [lia|lia|].
    unfold load in Hr. destruct (preparePtr BLOCK_BYTES a) as [a0|]; [|discriminate].
    cbn [bind] in *. rewrite Hr. cbn [bind].
    destruct (IH (size - BLOCK_BYTES) (acc ++ slice (ptr_ a) BLOCK_BYTES buf) a1 Ha1)
      as (rest & a' & Hl & Ha' & Hp' & Hrest & Hrs); [lia|rewrite Hp1; lia|].
    exists rest, a'. rewrite Hl.
    split; [|split; [exact Ha'|split; [lia|split; [exact Hrest|lia]]]].
    rewrite <- app_assoc, Hp1, <- slice_split by lia.
    replace (BLOCK_BYTES + (size - BLOCK_BYTES - rest)) with (size - rest) by lia.
    reflexivity.
Qed.

Lemma legacy_read_binary a size :
  LegacyAt buf a -> 0 <= size -> ptr_ a + size <= len buf ->
  exists a', load_binary size a = Ok (slice (ptr_ a) size buf, a')
             /\ LegacyAt buf a' /\ ptr_ a' = ptr_ a + size.
Proof.
  intros Ha Hs Hfit. unfold load_binary.
  assert (Hp0 : 0 <= ptr_ a) by (destruct Ha as (_ & _ & ? & _); lia).
  destruct (legacy_chunks (Z.to_nat size) size [] a Ha) as (rest & a1 & Hl & Ha1 & Hp1 & Hr & Hrs);
    [lia|exact Hfit|].
  rewrite Hl. cbn [bind app].
  destruct (legacy_read a1 rest Ha1) as (a2 & Hr2 & Ha2 & Hp2); [lia|lia|].
  unfold load in Hr2. destruct (preparePtr rest a1) as [a0|]; [|discriminate].
  cbn [bind] in *. rewrite Hr2. cbn [bind].
  exists a2. split; [|split; [exact Ha2|lia]].
  rewrite Hp1, <- slice_split by lia.
  replace (size - rest + rest) with size by lia. reflexivity.
Qed.

Lemma legacy_chunks_past fuel : forall size acc a,
  LegacyAt buf a -> 0 <= size <= Z.of_nat fuel -> len buf < ptr_ a + size ->
  load_binary_loop fuel size acc a = Fail past_end
  \/ exists rest acc' a',
       load_binary_loop fuel size acc a = Ok (rest, acc', a')
       /\ LegacyAt buf a' /\ len buf < ptr_ a' + rest.
Proof.
  assert (Hbb : 0 < BLOCK_BYTES) by reflexivity.
  induction fuel as [|fuel IH]; intros size acc a Ha Hs Hpast; cbn [load_binary_loop].
  - destruct (Z.gtb_spec size BLOCK_BYTES) as [Hgt|Hle]; [cbn in Hs; lia|].
    right. exists size, acc, a. auto.
  - destruct (Z.gtb_spec size BLOCK_BYTES) as [Hgt|Hle];
      [|right; exists size, acc, a; auto].
    destruct (Z_le_gt_dec (ptr_ a + BLOCK_BYTES) (len buf)) as [Hin|Hout].
    + destruct (legacy_read a BLOCK_BYTES Ha) as (a1 & Hr & Ha1 & Hp1); [lia|lia|].
      unfold load in Hr. destruct (preparePtr BLOCK_BYTES a) as [a0|]; [|discriminate].
      cbn [bind] in *. rewrite Hr. cbn [bind].
      apply IH; [exact Ha1|lia|rewrite Hp1; lia].
    + left. rewrite legacy_prepare_past by (assumption || lia). reflexivity.
Qed.

Lemma legacy_read_binary_past a size :
  LegacyAt buf a -> 0 <= size -> len buf < ptr_ a + size ->
  load_binary size a = Fail past_end.
Proof.
  intros Ha Hs Hpast. unfold load_binary.
  destruct (legacy_chunks_past (Z.to_nat size) size [] a Ha) as [->|(rest & acc' & a1 & -> & Ha1 & Hp1)];
    [lia|exact Hpast|reflexivity|].
  cbn [bind]. now rewrite legacy_prepare_past.
Qed.

Lemma legacy_close a :
  LegacyAt buf a ->
  exists a', Load_endBlock a = Ok a' /\ l_stream_ a' = l_stream_ a.
Proof.
  intros (_ & _ & _ & Hbb & _). unfold Load_endBlock. rewrite Hbb.
  eexists. split; reflexivity.
Qed.

End LegacyReads.

(** X3: a legacy file (signature markers '1' and '0', compression flag 1,
    first_block_size equal to header size plus the size of the
    decompressed body) is decoded in one shot: the archive holds the header
    followed by the whole body and the stream is left at its end.  From
    then on a scalar or a blob that lies within these bytes is copied out
    of them and the cursor advances by its size, a scalar or blob that
    reaches beyond them fails with "Requested to read next block past end
    of file", and closing the archive reads no sentinel. *)
Theorem legacy_load {L : LZ4} (pre head comp payload : list byte) :
  len head = headSz -> is_v10 head = true -> head_compression head = 1 ->
  head_first_block_size head = headSz + len payload ->
  len (pre ++ head ++ comp) < SIZE_MAX1 ->
  LZ4_decompress_safe comp (len payload) = Some payload ->
  let buf := head ++ payload in
  (exists a, Load_initBlock (file_at pre head comp) = Ok a
             /\ LegacyAt buf a /\ ptr_ a = 0)
  /\ (forall a n, LegacyAt buf a -> 0 <= n ->
      (ptr_ a + n <= len buf ->
       exists a', load n a = Ok (slice (ptr_ a) n buf, a')
                  /\ LegacyAt buf a' /\ ptr_ a' = ptr_ a + n)
      /\ (ptr_ a + n <= len buf ->
          exists a', load_binary n a = Ok (slice (ptr_ a) n buf, a')
                     /\ LegacyAt buf a' /\ ptr_ a' = ptr_ a + n)
      /\ (len buf < ptr_ a + n ->
          load n a = Fail past_end /\ load_binary n a = Fail past_end))
  /\ (forall a, LegacyAt buf a ->
      exists a', Load_endBlock a = Ok a' /\ l_stream_ a' = l_stream_ a).
Proof.
  intros Hl Hv Hc Hfb Hsz Hdec buf.
  split; [now apply legacy_open|]. split.
  - intros a n Ha Hn. split; [|split].
    + now apply legacy_read.
    + now apply legacy_read_binary.
    + intros Hp. split;
        [now apply (legacy_read_past buf)|now apply (legacy_read_binary_past buf)].
  - intros a. apply (legacy_close buf).
Qed.



Lemma legacy_load_witness :
  let head := set_first_block_size 83 (set_compression 1 header_v10) in
  let body := [x01; x02; x03] in
  exists a, Load_initBlock (L := StoredLZ4) (file_at [x2a] head (x00 :: body)) = Ok a
            /\ LegacyAt (head ++ body) a /\ ptr_ a = 0.
Proof.
  cbv zeta.
  refine (proj1 (legacy_load (L := StoredLZ4) [x2a]
                   (set_first_block_size 83 (set_compression 1 header_v10))
                   [x00; x01; x02; x03] [x01; x02; x03] _ _ _ _ _ _)).
  - vm_compute. reflexivity.
  - vm_compute. reflexivity.
  - vm_compute. reflexivity.
  - vm_compute. reflexivity.
  - vm_compute. reflexivity.
  - vm_compute. reflexivity.
Defined.

(** ** Reading on after everything was loaded *)

Section PastEnd.
Context {L : LZ4} {LC : LZ4Correct L} {K : KeyOrder}.

(** After the header and the values were loaded the reader stands at the
    end of the last block, in front of the sentinel. *)
Lemma reader_at_end h values ts ds stream :
  len h = headSz -> head_compression h = 0 -> is_v10 h = false ->
  all_load_as ts ds values ->
  save_archive h values = Ok stream ->
  hd [] (payloads h values) <> [] ->
  exists hist B,
    ReaderAt stream (reader_after stream ts ds) hist B (len B) [].
Proof.
  intros Hl Hc Hv Hty Hsave Hne.
  destruct (save_archive_stream h values stream Hl Hc Hsave)
    as (a1 & an & Hs1 & Hsn & Hw1 & Hwn & Hpay & Hgood & ->).
  destruct (header_saved_inv h Hl Hc) as (a1' & Hs1' & _ & Hz1 & Hsrc1 & Hf1 & Ho1).
  rewrite Hs1 in Hs1'. injection Hs1' as <-.
  set (blocks := content an) in *.
  pose proof (save_values_grows h values a1 an Hw1 Hsn) as G.
  assert (Hext1 : extends (content a1) blocks) by apply G.
  destruct (extends_content blocks Hgood a1 Hext1) as (p0 & rest & Hb).
  rewrite Hz1, Hsrc1 in Hb. cbn [app] in Hb.
  rewrite Hpay, Hb in Hne. cbn [hd] in Hne.
  rewrite Hb in Hgood.
  destruct (open_sim h p0 rest Hl Hv Hgood Hne) as (r0 & Hopen & Hr0).
  cbv zeta in Hopen, Hr0. rewrite <- Hb in Hopen, Hr0.
  set (s := stream_of_blocks h blocks ++ size_t_bytes 0) in *.
  set (c0 := LZ4_compress_HC_continue [] p0 (LZ4_COMPRESSBOUND BLOCK_BYTES)) in *.
  assert (Hhl : len (patched_header h (len c0)) = headSz) by now apply patched_header_length.
  destruct (read_in_block s r0 _ _ 0 rest headSz Hr0) as (r1 & Hhead & Hr1);
    [lia|consts; lia|rewrite len_app, Hhl; pose proof (len_nonneg p0); lia|].
  assert (Hat1 : At h blocks s a1 r1).
  { exists p0, rest. rewrite Hz1, Hsrc1, Hf1, Ho1. cbn [app]. split; [exact Hb|].
    exact Hr1. }
  assert (Hgood' : good_frames [] blocks) by (rewrite Hb; exact Hgood).
  destruct (values_sim h blocks s Hgood' ts ds values Hty a1 an r1 Hw1 Hsn)
    as (rn & Hload & Hatn); [apply extends_refl|exact Hat1|].
  destruct Hatn as (x & rest' & Hbn & Hrn).
  assert (Hx : x = [] /\ rest' = []).
  { unfold blocks, content in Hbn. apply app_inv_head in Hbn.
    injection Hbn as Hx Hr. split; [|now symmetry].
    rewrite <- (app_nil_r (flush_src an)) in Hx at 1. apply app_inv_head in Hx.
    now symmetry. }
  destruct Hx as [-> ->]. rewrite app_nil_r in Hrn.
  assert (Hafter : reader_after s ts ds = rn).
  { unfold reader_after. rewrite Hopen. cbn [bind].
    change (load headSz r0) with (read_piece headSz r0).
    rewrite Hhead. cbn [bind]. rewrite Hload. reflexivity. }
  rewrite Hafter.
  pose proof (flush_src_length an (proj1 Hwn)) as Hfl.
  destruct (first_block_ an) eqn:Hfirst.
  - eexists _, _. replace (len _) with (offset_ an); [exact Hrn|].
    rewrite len_app, patched_header_length, Hfl by exact Hl. lia.
  - eexists _, _. replace (len _) with (offset_ an); [exact Hrn|]. rewrite Hfl. lia.
Qed.

Lemma prepare_past_end s r hist B n :
  ReaderAt s r hist B (len B) [] -> 0 < n -> preparePtr n r = Fail past_end.
Proof.
  intros (_ & Hsz & Hp & _ & [Hbb _] & Hd & pre & Hs & Hpos) Hn.
  cbn [encode_frames app] in Hs. unfold preparePtr. rewrite Hp, Hsz.
  destruct (Z.leb_spec (len B + n) (len B)); [lia|].
  assert (Hr : fread sizeof_size_t (l_stream_ r)
               = (Some (size_t_bytes 0), fseek_set (l_stream_ r) (len (pre ++ size_t_bytes 0)))).
  { apply (fread_at _ pre (size_t_bytes 0) []).
    - now rewrite Hd, Hs, app_nil_r.
    - exact Hpos.
    - reflexivity. }
  rewrite Hr. reflexivity.
Qed.

End PastEnd.

(** X5: once the header and all the values of a saved archive have been
    loaded back, the archive holds nothing more: loading one more scalar
    or one more blob of at least one byte meets the zero-length sentinel
    and fails with "Requested to read next block past end of file". *)
Theorem read_past_end {L : LZ4} {LC : LZ4Correct L} {K : KeyOrder}
  (h : list byte) (values : list value) (ts : list ty) (ds : list value)
  (stream : list byte) (n : Z) :
  len h = headSz -> head_compression h = 0 -> is_v10 h = false ->
  all_load_as ts ds values ->
  save_archive h values = Ok stream ->
  hd [] (payloads h values) <> [] ->
  0 < n ->
  load n (reader_after stream ts ds) = Fail past_end
  /\ load_binary n (reader_after stream ts ds) = Fail past_end.
Proof.
  intros Hl Hc Hv Hty Hsave Hne Hn.
  destruct (reader_at_end h values ts ds stream Hl Hc Hv Hty Hsave Hne) as (hist & B & Hr).
  split.
  - unfold load. now rewrite (prepare_past_end _ _ _ _ n Hr Hn).
  - unfold load_binary.
    destruct (Z.to_nat n) as [|fuel] eqn:Hfuel; [lia|]. cbn [load_binary_loop].
    destruct (Z.gtb_spec n BLOCK_BYTES).
    + rewrite (prepare_past_end _ _ _ _ BLOCK_BYTES Hr) by reflexivity. reflexivity.
    + cbn [bind]. now rewrite (prepare_past_end _ _ _ _ n Hr Hn).
Qed.

Lemma read_past_end_witness :
  load 1 (reader_after (L := StoredLZ4) (stream_of header_v11 sample_values)
            sample_types sample_destinations)
  = Fail past_end.
Proof.
  refine (proj1 (read_past_end (L := StoredLZ4) (K := UnsignedKeys) header_v11
                   sample_values sample_types sample_destinations
                   (stream_of header_v11 sample_values) 1 _ _ _ _ _ _ _)).
  - reflexivity.
  - reflexivity.
  - reflexivity.
  - exact sample_values_load_as.
  - apply stream_of_ok. vm_compute. reflexivity.
  - vm_compute. discriminate.
  - reflexivity.
Defined.

(** ** Loading a map into a map that is not empty *)

Lemma save_values_app {A} {OA : OutputArchive A} (xs ys : list value) : forall a,
  save_values (xs ++ ys) a = (a1 <- save_values xs a ;; save_values ys a1).
Proof.
  induction xs as [|x xs IH]; intros a; cbn [app save_values bind]; [reflexivity|].
  destruct (save_value x a) as [a1|]; cbn [bind]; [apply IH|reflexivity].
Qed.

Lemma load_values_app {L : LZ4} {K : KeyOrder} ts1 : forall ds1 ts2 ds2 xs a a1,
  load_values ts1 ds1 a = Ok (xs, a1) ->
  load_values (ts1 ++ ts2) (ds1 ++ ds2) a
  = (' (ys, a2) <- load_values ts2 ds2 a1 ;; Ok (xs ++ ys, a2)).
Proof.
  induction ts1 as [|t ts1 IH]; intros [|d ds1] ts2 ds2 xs a a1 H;
    cbn [load_values app] in *; try discriminate.
  - injection H as <- <-. destruct (load_values ts2 ds2 a) as [[ys a2]|]; reflexivity.
  - inv_bind H. destruct x as [x a']. inv_bind H. destruct x0 as [xs' a''].
    injection H as <- <-. rewrite E. cbn [bind].
    rewrite (IH ds1 ts2 ds2 xs' a' a'' E0).
    destruct (load_values ts2 ds2 a'') as [[ys a2]|]; reflexivity.
Qed.

Section MapMerge.
Context {L : LZ4} {LC : LZ4Correct L} {K : KeyOrder}.
Variable h : list byte.
Variable blocks : list (list byte).
Variable s : list byte.
Hypothesis blocks_good : good_frames [] blocks.

Lemma entries_assign_sim tk tv : forall es m,
  Forall (fun e => loads_as tk (default_value tk) (fst e)
                   /\ loads_as tv (default_value tv) (snd e)) es ->
  forall a a' r,
    WriterInv h a -> save_entries es a = Ok a' ->
    extends (content a') blocks -> At h blocks s a r ->
    exists r', load_entries tk tv (length es) m r = Ok (assign_all es m, r')
               /\ At h blocks s a' r'.
Proof.
  induction es as [|[k x] es IHes]; intros m Hty a a' r Hw H Hext Hat;
    cbn [save_entries load_entries length assign_all fold_left] in *.
  - injection H as <-. eauto.
  - inv_bind H. inv_bind H.
    pose proof (save_value_grows h k a _ Hw E) as G1.
    pose proof (save_value_grows h x _ _ (proj1 G1) E0) as G2.
    pose proof (save_entries_grows h es _ a' (proj1 G2) H) as G3.
    apply Forall_cons_iff in Hty. destruct Hty as [[Hk Hx] Hty]. cbn [fst snd] in *.
    assert (Hext2 : extends (content x1) blocks) by (eapply extends_back; eauto).
    assert (Hext1 : extends (content x0) blocks) by (eapply extends_back; eauto).
    destruct (value_sim h blocks s blocks_good tk _ k a x0 r Hk Hw E Hext1 Hat)
      as (r1 & Hl1 & Hat1).
    destruct (value_sim h blocks s blocks_good tv _ x x0 x1 r1 Hx (proj1 G1) E0 Hext2 Hat1)
      as (r2 & Hl2 & Hat2).
    rewrite Hl1. cbn [bind]. rewrite Hl2. cbn [bind].
    apply (IHes (map_assign k x m) Hty x1 a' r2 (proj1 G2) H Hext Hat2).
Qed.

Lemma map_assign_sim tk tv entries old a a' r :
  len entries < SIZE_MAX1 ->
  Forall (fun e => loads_as tk (default_value tk) (fst e)
                   /\ loads_as tv (default_value tv) (snd e)) entries ->
  WriterInv h a -> save_value (VMap entries) a = Ok a' ->
  extends (content a') blocks -> At h blocks s a r ->
  exists r', load_value (TMap tk tv) (VMap old) r = Ok (VMap (assign_all entries old), r')
             /\ At h blocks s a' r'.
Proof.
  intros Hlen Hall Hw H Hext Hat.
  rewrite save_value_map in H. inv_bind H.
  pose proof (save_grows h _ a x Hw E) as G1.
  pose proof (save_entries_grows h _ x a' (proj1 G1) H) as G2.
  destruct (size_sim h blocks s blocks_good (len entries) a x r)
    as (bytes & r1 & Hl1 & Hdec & Hat1);
    [pose proof (len_nonneg entries); lia|exact Hw|exact E|
     eapply extends_back; eauto|exact Hat|].
  destruct (entries_assign_sim tk tv entries old Hall x a' r1 (proj1 G1) H Hext Hat1)
    as (r' & Hl' & Hat').
  exists r'. rewrite load_value_map, Hl1. cbn [bind]. rewrite Hdec.
  unfold len. rewrite Nat2Z.id, Hl'. cbn [bind]. auto.
Qed.

End MapMerge.

Section WholeArchive.
Context {L : LZ4} {LC : LZ4Correct L} {K : KeyOrder}.

(** A saved archive, opened: the reader that has loaded the header stands
    where the writer stood after saving it. *)
Lemma archive_opened h values stream :
  len h = headSz -> head_compression h = 0 -> is_v10 h = false ->
  save_archive h values = Ok stream ->
  hd [] (payloads h values) <> [] ->
  exists a1 an r0 r1 compSz,
    save h (Save_initBlock []) = Ok a1
    /\ save_values values a1 = Ok an
    /\ WriterInv h a1 /\ WriterInv h an
    /\ good_frames [] (content an)
    /\ Load_initBlock (mkFile stream 0) = Ok r0
    /\ load headSz r0 = Ok (patched_header h compSz, r1)
    /\ At h (content an) stream a1 r1
    /\ slice 0 headSz stream = patched_header h compSz.
Proof.
  intros Hl Hc Hv Hsave Hne.
  destruct (save_archive_stream h values stream Hl Hc Hsave)
    as (a1 & an & Hs1 & Hsn & Hw1 & Hwn & Hpay & Hgood & ->).
  destruct (header_saved_inv h Hl Hc) as (a1' & Hs1' & _ & Hz1 & Hsrc1 & Hf1 & Ho1).
  rewrite Hs1 in Hs1'. injection Hs1' as <-.
  set (blocks := content an) in *.
  pose proof (save_values_grows h values a1 an Hw1 Hsn) as G.
  assert (Hext1 : extends (content a1) blocks) by apply G.
  destruct (extends_content blocks Hgood a1 Hext1) as (p0 & rest & Hb).
  rewrite Hz1, Hsrc1 in Hb. cbn [app] in Hb.
  rewrite Hpay, Hb in Hne. cbn [hd] in Hne.
  assert (Hgood' : good_frames [] blocks) by exact Hgood.
  rewrite Hb in Hgood.
  destruct (open_sim h p0 rest Hl Hv Hgood Hne) as (r0 & Hopen & Hr0).
  cbv zeta in Hopen, Hr0. rewrite <- Hb in Hopen, Hr0.
  set (s := stream_of_blocks h blocks ++ size_t_bytes 0) in *.
  set (c0 := LZ4_compress_HC_continue [] p0 (LZ4_COMPRESSBOUND BLOCK_BYTES)) in *.
  assert (Hhl : len (patched_header h (len c0)) = headSz) by now apply patched_header_length.
  destruct (read_in_block s r0 _ _ 0 rest headSz Hr0) as (r1 & Hhead & Hr1);
    [lia|consts; lia|rewrite len_app, Hhl; pose proof (len_nonneg p0); lia|].
  rewrite slice_app_l, slice_0_all in Hhead by (rewrite ?Hhl; consts; lia).
  exists a1, an, r0, r1, (len c0).
  split; [exact Hs1|]. split; [exact Hsn|]. split; [exact Hw1|]. split; [exact Hwn|].
  split; [exact Hgood'|]. split; [exact Hopen|]. split; [exact Hhead|]. split.
  - exists p0, rest. rewrite Hz1, Hsrc1, Hf1, Ho1. cbn [app]. split; [exact Hb|exact Hr1].
  - subst s. rewrite Hb. cbn [stream_of_blocks]. fold c0.
    rewrite <- !app_assoc, slice_app_l, slice_0_all by (rewrite ?Hhl; consts; lia).
    reflexivity.
Qed.

Lemma archive_closed h an stream rn :
  At h (content an) stream an rn -> exists r', Load_endBlock rn = Ok r'.
Proof.
  intros (x & rest' & Hbn & Hrn).
  assert (Hx : x = [] /\ rest' = []).
  { unfold content in Hbn. apply app_inv_head in Hbn.
    injection Hbn as Hx Hr. split; [|now symmetry].
    rewrite <- (app_nil_r (flush_src an)) in Hx at 1. apply app_inv_head in Hx.
    now symmetry. }
  destruct Hx as [-> ->]. exact (close_sim stream rn _ _ _ Hrn).
Qed.

End WholeArchive.

(** X6: the loader of std::map does not clear its destination: when the
    last value of an archive is a map, loading it into a map that already
    holds entries assigns the stored entries, in stored order, over what
    the map holds ([map_val[key] = value]); the values before it come back
    as saved. *)
Theorem map_load_merges {L : LZ4} {LC : LZ4Correct L} {K : KeyOrder}
  (h : list byte) (before : list value) (entries old : list (value * value))
  (ts : list ty) (ds : list value) (tk tv : ty) (stream : list byte) :
  len h = headSz -> head_compression h = 0 -> is_v10 h = false ->
  all_load_as ts ds before ->
  len entries < SIZE_MAX1 ->
  Forall (fun e => loads_as tk (default_value tk) (fst e)
                   /\ loads_as tv (default_value tv) (snd e)) entries ->
  save_archive h (before ++ [VMap entries]) = Ok stream ->
  hd [] (payloads h (before ++ [VMap entries])) <> [] ->
  exists compSz,
    load_archive (mkFile stream 0) (ts ++ [TMap tk tv]) (ds ++ [VMap old])
    = Ok (patched_header h compSz, before ++ [VMap (assign_all entries old)]).
Proof.
  intros Hl Hc Hv Hty Hlen Hall Hsave Hne.
  destruct (archive_opened h _ stream Hl Hc Hv Hsave Hne)
    as (a1 & an & r0 & r1 & compSz & Hs1 & Hsn & Hw1 & Hwn & Hgood & Hopen & Hhead & Hat1 & _).
  rewrite save_values_app in Hsn. inv_bind Hsn. rename x into am.
  cbn [save_values] in Hsn. inv_bind Hsn. injection Hsn as ->.
  pose proof (save_values_grows h before a1 am Hw1 E) as G1.
  pose proof (save_value_grows h _ am an (proj1 G1) E0) as G2.
  destruct (values_sim h (content an) stream Hgood ts ds before Hty a1 am r1 Hw1 E)
    as (rm & Hload & Hatm); [apply G2|exact Hat1|].
  destruct (map_assign_sim h (content an) stream Hgood tk tv entries old am an rm
              Hlen Hall (proj1 G1) E0) as (rn & Hmap & Hatn);
    [apply extends_refl|exact Hatm|].
  destruct (archive_closed h an stream rn Hatn) as (r' & Hclose).
  exists compSz. unfold load_archive. rewrite Hopen. cbn [bind]. rewrite Hhead. cbn [bind].
  rewrite (load_values_app ts ds [TMap tk tv] [VMap old] before r1 rm Hload).
  cbn [load_values]. rewrite Hmap. cbn [bind]. rewrite Hclose. reflexivity.
Qed.

Lemma map_load_merges_witness :
  let entries := [(VScalar [x02], VEnum 20); (VScalar [x05], VEnum 50)] in
  let old := [(VScalar [x01], VEnum 1); (VScalar [x02], VEnum 2)] in
  exists compSz,
    load_archive (L := StoredLZ4)
      (mkFile (stream_of header_v11 [VEnum 7; VMap entries]) 0)
      [TEnum; TMap (TScalar 1) TEnum] [VEnum 0; VMap old]
    = Ok (patched_header header_v11 compSz,
          [VEnum 7;
           VMap [(VScalar [x01], VEnum 1); (VScalar [x02], VEnum 20);
                 (VScalar [x05], VEnum 50)]]).
Proof.
  cbv zeta.
  apply (map_load_merges (L := StoredLZ4) (K := UnsignedKeys) header_v11 [VEnum 7]
           [(VScalar [x02], VEnum 20); (VScalar [x05], VEnum 50)]
           [(VScalar [x01], VEnum 1); (VScalar [x02], VEnum 2)]
           [TEnum] [VEnum 0] (TScalar 1) TEnum).
  - reflexivity.
  - reflexivity.
  - reflexivity.
  - cbn. lia.
  - vm_compute. reflexivity.
  - repeat constructor; cbn; lia.
  - apply stream_of_ok. vm_compute. reflexivity.
  - vm_compute. discriminate.
Defined.

(** ** Loads on related streams *)

Lemma rel_result_bind {X Y} (RX : X -> X -> Prop) (RY : Y -> Y -> Prop) Allowed
  (r r' : result X) (k k' : X -> result Y) :
  rel_result RX Allowed r r' ->
  (forall x x', RX x x' -> rel_result RY Allowed (k x) (k' x')) ->
  rel_result RY Allowed (bind r k) (bind r' k').
Proof.
  destruct r as [x|f]; [|intros; exact I].
  destruct r' as [x'|f']; cbn [rel_result bind]; [auto|].
  intros Hf _. destruct (k x); [exact Hf|exact I].
Qed.

Section LoadRel.
Context {L : LZ4} {K : KeyOrder}.
Variable R : LoadArchive -> LoadArchive -> Prop.
Variable Allowed : failure -> Prop.
Hypothesis Hload : forall n a a', R a a' ->
  rel_result (with_value R) Allowed (load n a) (load n a').
Hypothesis Hbinary : forall n a a', R a a' ->
  rel_result (with_value R) Allowed (load_binary n a) (load_binary n a').

Lemma rel_bind_value {X Y} (r r' : result (X * LoadArchive))
  (k k' : X * LoadArchive -> result (Y * LoadArchive)) :
  rel_result (with_value R) Allowed r r' ->
  (forall x a a', R a a' -> rel_result (with_value R) Allowed (k (x, a)) (k' (x, a'))) ->
  rel_result (with_value R) Allowed (bind r k) (bind r' k').
Proof.
  intros Hr Hk. apply (rel_result_bind (with_value R)); [exact Hr|].
  intros [x a] [x' a'] [Hx Ha]. cbn [fst snd] in *. subst x'. now apply Hk.
Qed.

Lemma rel_ret {X} (x : X) a a' :
  R a a' -> rel_result (with_value R) Allowed (Ok (x, a)) (Ok (x, a')).
Proof. intros Ha. split; [reflexivity|exact Ha]. Qed.

Lemma load_value_rel t : forall d a a',
  R a a' -> rel_result (with_value R) Allowed (load_value t d a) (load_value t d a').
Proof.
  induction t as [size| |t IH|tk tv IHk IHv| | |fields IH] using ty_ind;
    intros d a a' Ha.
  - cbn [load_value]. apply rel_bind_value; [now apply Hload|].
    intros x b b' Hb. now apply rel_ret.
  - cbn [load_value]. apply rel_bind_value; [now apply Hload|].
    intros x b b' Hb. now apply rel_ret.
  - destruct d; try exact I. rewrite !load_value_vector.
    apply rel_bind_value; [now apply Hload|]. intros bytes b b' Hb.
    apply rel_bind_value; [|intros x c c' Hc; now apply rel_ret].
    generalize (resize elems (le_decode bytes) (default_value t)). intros ds.
    revert b b' Hb. induction ds as [|d ds IHd]; intros b b' Hb; cbn [load_elems].
    + now apply rel_ret.
    + apply rel_bind_value; [now apply IH|]. intros x c c' Hc.
      apply rel_bind_value; [now apply IHd|]. intros xs e e' He. now apply rel_ret.
  - destruct d; try exact I. rewrite !load_value_map.
    apply rel_bind_value; [now apply Hload|]. intros bytes b b' Hb.
    apply rel_bind_value; [|intros x c c' Hc; now apply rel_ret].
    generalize (Z.to_nat (le_decode bytes)). intros n.
    revert entries b b' Hb. induction n as [|n IHn]; intros m b b' Hb; cbn [load_entries].
    + now apply rel_ret.
    + apply rel_bind_value; [now apply IHk|]. intros key c c' Hc.
      apply rel_bind_value; [now apply IHv|]. intros x e e' He. now apply IHn.
  - destruct d; try exact I. cbn [load_value load_ptr bind]. now apply rel_ret.
  - destruct d; try exact I. cbn [load_value].
    apply rel_bind_value; [now apply Hbinary|]. intros x b b' Hb. now apply rel_ret.
  - destruct d as [| | | | | |old]; try exact I. rewrite !load_value_struct.
    apply rel_bind_value; [|intros x c c' Hc; now apply rel_ret].
    revert old a a' Ha. induction IH as [|t ts Ht _ IHts]; intros [|d ds] a a' Ha;
      cbn [load_values]; try exact I.
    + now apply rel_ret.
    + apply rel_bind_value; [now apply Ht|]. intros x c c' Hc.
      apply rel_bind_value; [now apply IHts|]. intros xs e e' He. now apply rel_ret.
Qed.

Lemma load_values_rel ts : forall ds a a',
  R a a' -> rel_result (with_value R) Allowed (load_values ts ds a) (load_values ts ds a').
Proof.
  induction ts as [|t ts IH]; intros [|d ds] a a' Ha; cbn [load_values]; try exact I.
  - now apply rel_ret.
  - apply rel_bind_value; [now apply load_value_rel|]. intros x c c' Hc.
    apply rel_bind_value; [now apply IH|]. intros xs e e' He. now apply rel_ret.
Qed.

End LoadRel.
Section StreamRel.
Context {L : LZ4} {K : KeyOrder}.
Variable RF : FILE -> FILE -> Prop.
Variable Trunc : Prop.

(** What is read from the first stream is read from the second, unless
    the second is a truncated one and ends before. *)
Hypothesis Hfread : forall n f f' bytes f1,
  RF f f' -> fread n f = (Some bytes, f1) ->
  (exists f1', fread n f' = (Some bytes, f1') /\ RF f1 f1')
  \/ (Trunc /\ fst (fread n f') = None).

Let R := same_but_stream RF.
Let Allowed := fun f => Trunc /\ io_error f.

Ltac same_state a a' H :=
  destruct a as [f buf oh p sz bb cb hist], a' as [f' buf' oh' p' sz' bb' cb' hist'];
  unfold R, same_but_stream in H;
  cbn [l_stream_ l_buffer_ l_other_half ptr_ block_sz_ buffer_blocks_
       compressed_buffer_ lz4StreamDecode] in H;
  destruct H as (-> & -> & -> & -> & -> & -> & -> & H).

Ltac same_state_anon a a' H :=
  destruct a as [g gbuf goh gp gsz gbb gcb ghist],
    a' as [g' gbuf' goh' gp' gsz' gbb' gcb' ghist'];
  unfold R, same_but_stream in H;
  cbn [l_stream_ l_buffer_ l_other_half ptr_ block_sz_ buffer_blocks_
       compressed_buffer_ lz4StreamDecode] in H;
  destruct H as (-> & -> & -> & -> & -> & -> & -> & H).

Lemma R_intro f f' buf oh p sz bb cb hist :
  RF f f' -> R (mkLoad f buf oh p sz bb cb hist) (mkLoad f' buf oh p sz bb cb hist).
Proof. intros H. unfold R, same_but_stream. cbn. auto 10. Qed.

Lemma loadBlock_rel compSz a a' :
  R a a' -> rel_result (with_value R) Allowed (loadBlock compSz a) (loadBlock compSz a').
Proof.
  intros H. same_state a a' H. unfold loadBlock.
  cbn [l_stream_ l_buffer_ l_other_half ptr_ block_sz_ buffer_blocks_
       compressed_buffer_ lz4StreamDecode].
  destruct (compSz >=? _); [exact I|]. destruct cb as [capacity|]; [|exact I].
  destruct (capacity <? compSz); [exact I|].
  destruct (fread compSz f) as [[comp|] f1] eqn:E; [|exact I].
  destruct (Hfread compSz f f' comp f1 H E) as [(f1' & E' & H1)|[Ht E']].
  - rewrite E'. destruct (LZ4_decompress_safe_continue hist comp BLOCK_BYTES) as [dec|];
      [|exact I].
    destruct (len dec <=? 0); [exact I|].
    split; [reflexivity|]. now apply R_intro.
  - destruct (fread compSz f') as [r' f1']. cbn [fst] in E'. subst r'.
    destruct (LZ4_decompress_safe_continue hist comp BLOCK_BYTES) as [dec|]; [|exact I].
    destruct (len dec <=? 0); [exact I|].
    split; [exact Ht|]. right. left. reflexivity.
Qed.

Lemma preparePtr_rel size a a' :
  R a a' -> rel_result R Allowed (preparePtr size a) (preparePtr size a').
Proof.
  intros H. pose proof H as H0. same_state a a' H. unfold preparePtr.
  cbn [l_stream_ l_buffer_ l_other_half ptr_ block_sz_ buffer_blocks_
       compressed_buffer_ lz4StreamDecode].
  destruct (p + size <=? sz); [exact H0|].
  destruct (fread sizeof_size_t f) as [[prefix|] f1] eqn:E; [|exact I].
  destruct (le_decode prefix <=? 0) eqn:Ez; [exact I|].
  destruct (Hfread _ f f' prefix f1 H E) as [(f1' & E' & H1)|[Ht E']].
  - rewrite E', Ez. cbn [orb negb Z.eqb Pos.eqb].
    apply (rel_result_bind (with_value R)).
    + apply loadBlock_rel. now apply R_intro.
    + intros [dec b] [dec' b'] [Hd Hb]. cbn [fst snd] in *. subst dec'.
      same_state_anon b b' Hb. unfold with_block.
      cbn [l_stream_ l_buffer_ l_other_half ptr_ block_sz_ buffer_blocks_
           compressed_buffer_ lz4StreamDecode rel_result].
      now apply R_intro.
  - destruct (fread sizeof_size_t f') as [r' f1']. cbn [fst] in E'. subst r'.
    cbn [orb negb Z.eqb Z.leb Z.compare].
    match goal with |- rel_result _ _ ?x _ => destruct x end; [|exact I].
    split; [exact Ht|]. right. right. left. reflexivity.
Qed.

Lemma fetch_rel n a a' :
  R a a' -> rel_result (with_value R) Allowed (fetch n a) (fetch n a').
Proof.
  intros H. same_state a a' H. unfold fetch.
  cbn [l_stream_ l_buffer_ l_other_half ptr_ block_sz_ buffer_blocks_
       compressed_buffer_ lz4StreamDecode].
  destruct (sz <? p + n); [exact I|]. split; [reflexivity|]. now apply R_intro.
Qed.

Lemma load_rel n a a' :
  R a a' -> rel_result (with_value R) Allowed (load n a) (load n a').
Proof.
  intros H. unfold load. apply (rel_result_bind R); [now apply preparePtr_rel|].
  intros b b' Hb. now apply fetch_rel.
Qed.

Lemma load_binary_loop_rel fuel : forall size acc a a',
  R a a' ->
  rel_result (with_value R) Allowed
    (load_binary_loop fuel size acc a) (load_binary_loop fuel size acc a').
Proof.
  induction fuel as [|fuel IH]; intros size acc a a' H; cbn [load_binary_loop].
  - destruct (size >? BLOCK_BYTES); [exact I|]. split; [reflexivity|exact H].
  - destruct (size >? BLOCK_BYTES); [|split; [reflexivity|exact H]].
    apply (rel_result_bind R); [now apply preparePtr_rel|]. intros b b' Hb.
    apply (rel_result_bind (with_value R)); [now apply fetch_rel|].
    intros [chunk c] [chunk' c'] [Hc Hcc]. cbn [fst snd] in *. subst chunk'.
    now apply IH.
Qed.

Lemma load_binary_rel n a a' :
  R a a' -> rel_result (with_value R) Allowed (load_binary n a) (load_binary n a').
Proof.
  intros H. unfold load_binary.
  apply (rel_result_bind (with_value R)); [now apply load_binary_loop_rel|].
  intros [[rest acc] b] [[rest' acc'] b'] [Hx Hb]. cbn [fst snd] in *.
  injection Hx as <- <-.
  apply (rel_result_bind R); [now apply preparePtr_rel|]. intros c c' Hc.
  apply (rel_result_bind (with_value R)); [now apply fetch_rel|].
  intros [tail e] [tail' e'] [Ht He]. cbn [fst snd] in *. subst tail'.
  split; [reflexivity|exact He].
Qed.

Lemma Load_initBlock_rel f f' head f1 :
  RF f f' -> fread headSz f = (Some head, f1) -> is_v10 head = false ->
  rel_result R Allowed (Load_initBlock f) (Load_initBlock f').
Proof.
  intros H E Hv. unfold Load_initBlock. rewrite E, Hv.
  destruct (Hfread _ f f' head f1 H E) as [(f1' & E' & H1)|[Ht E']].
  - rewrite E', Hv.
    apply (rel_result_bind (with_value R)).
    + apply loadBlock_rel. now apply R_intro.
    + intros [dec b] [dec' b'] [Hd Hb]. cbn [fst snd] in *. subst dec'.
      same_state_anon b b' Hb. unfold with_block.
      cbn [l_stream_ l_buffer_ l_other_half ptr_ block_sz_ buffer_blocks_
           compressed_buffer_ lz4StreamDecode rel_result].
      now apply R_intro.
  - destruct (fread headSz f') as [r' f1']. cbn [fst] in E'. subst r'.
    match goal with |- rel_result _ _ ?x _ => destruct x end; [|exact I].
    split; [exact Ht|]. left. reflexivity.
Qed.

Lemma Load_endBlock_rel a a' :
  R a a' -> rel_result R Allowed (Load_endBlock a) (Load_endBlock a').
Proof.
  intros H. same_state a a' H. unfold Load_endBlock.
  cbn [l_stream_ l_buffer_ l_other_half ptr_ block_sz_ buffer_blocks_
       compressed_buffer_ lz4StreamDecode].
  destruct bb; [|now apply R_intro].
  destruct (fread sizeof_size_t f) as [[zero|] f1] eqn:E; [|exact I].
  destruct (negb (le_decode zero =? 0)) eqn:Ez; [exact I|].
  destruct (Hfread _ f f' zero f1 H E) as [(f1' & E' & H1)|[Ht E']].
  - rewrite E', Ez. now apply R_intro.
  - destruct (fread sizeof_size_t f') as [r' f1']. cbn [fst] in E'. subst r'.
    split; [exact Ht|]. right. right. right. reflexivity.
Qed.

Lemma load_archive_file_rel f f' head f1 ts ds :
  RF f f' -> fread headSz f = (Some head, f1) -> is_v10 head = false ->
  rel_result (with_file RF) Allowed
    (load_archive_file f ts ds) (load_archive_file f' ts ds).
Proof.
  intros H E Hv. unfold load_archive_file.
  apply (rel_result_bind R); [now apply (Load_initBlock_rel f f' head f1)|].
  intros a a' Ha.
  apply (rel_result_bind (with_value R)); [now apply load_rel|].
  intros [h b] [h' b'] [Hh Hb]. cbn [fst snd] in *. subst h'.
  apply (rel_result_bind (with_value R)).
  { apply (load_values_rel R Allowed); [apply load_rel|apply load_binary_rel|exact Hb]. }
  intros [xs c] [xs' c'] [Hx Hc]. cbn [fst snd] in *. subst xs'.
  apply (rel_result_bind R); [now apply Load_endBlock_rel|].
  intros e e' He. split; [reflexivity|]. apply He.
Qed.

End StreamRel.
(** ** Truncated streams and streams inside larger files *)

Lemma slice_firstn k off n l :
  0 <= off -> 0 <= n -> off + n <= len (firstn k l) ->
  slice off n (firstn k l) = slice off n l.
Proof.
  unfold slice, len. intros Ho Hn Hfit. rewrite length_firstn in Hfit.
  rewrite skipn_firstn_comm, firstn_firstn. f_equal. lia.
Qed.

Lemma fread_truncated k n f f' bytes f1 :
  truncated_to k f f' -> fread n f = (Some bytes, f1) ->
  (exists f1', fread n f' = (Some bytes, f1') /\ truncated_to k f1 f1')
  \/ (True /\ fst (fread n f') = None).
Proof.
  intros (Hp & H0 & Hin & Hd) E. apply fread_some in E.
  destruct E as (Hn & Hfit & -> & ->).
  destruct (Z_le_gt_dec (f_pos f' + n) (file_end f')) as [Hle|Hgt].
  - left. rewrite fread_succeeds by lia. eexists. split.
    + rewrite Hp, Hd. rewrite slice_firstn; [reflexivity|lia|lia|].
      unfold file_end in Hle. rewrite Hd, Hp in Hle. exact Hle.
    + unfold truncated_to, file_end. cbn [fseek_set f_pos f_data].
      unfold file_end in *. repeat split; try lia. exact Hd.
  - right. split; [exact I|]. apply fread_fails. lia.
Qed.

Lemma fread_embedded pre suf n f f' bytes f1 :
  embedded_in pre suf f f' -> fread n f = (Some bytes, f1) ->
  (exists f1', fread n f' = (Some bytes, f1') /\ embedded_in pre suf f1 f1')
  \/ (False /\ fst (fread n f') = None).
Proof.
  intros (Hd & Hp & H0) E. apply fread_some in E.
  destruct E as (Hn & Hfit & -> & ->). left.
  pose proof (len_nonneg pre). pose proof (len_nonneg suf).
  unfold file_end in Hfit.
  rewrite fread_succeeds; [|exact Hn|unfold file_end; rewrite Hd, Hp, !len_app; lia].
  eexists. split.
  - rewrite Hd, Hp. rewrite slice_app_r by lia.
    replace (len pre + f_pos f - len pre) with (f_pos f) by lia.
    rewrite slice_app_l by lia. reflexivity.
  - unfold embedded_in. cbn [fseek_set f_pos f_data]. repeat split; try lia. exact Hd.
Qed.

Lemma load_archive_of_file {L : LZ4} {K : KeyOrder} f ts ds :
  load_archive f ts ds = result_map fst (load_archive_file f ts ds).
Proof.
  unfold load_archive, load_archive_file.
  destruct (Load_initBlock f) as [a|]; [|reflexivity]. cbn [bind].
  destruct (load headSz a) as [[h a1]|]; [|reflexivity]. cbn [bind].
  destruct (load_values ts ds a1) as [[xs a2]|]; [|reflexivity]. cbn [bind].
  destruct (Load_endBlock a2) as [a3|]; reflexivity.
Qed.
Section SavedThenLoaded.
Context {L : LZ4} {LC : LZ4Correct L} {K : KeyOrder}.

(** The round trip, with the stream as the load leaves it: every byte was
    consumed. *)
Lemma saved_archive_loads_file h values ts ds stream :
  len h = headSz -> head_compression h = 0 -> is_v10 h = false ->
  all_load_as ts ds values ->
  save_archive h values = Ok stream ->
  hd [] (payloads h values) <> [] ->
  exists compSz,
    load_archive_file (mkFile stream 0) ts ds
    = Ok (patched_header h compSz, values, mkFile stream (len stream))
    /\ slice 0 headSz stream = patched_header h compSz.
Proof.
  intros Hl Hc Hv Hty Hsave Hne.
  destruct (archive_opened h _ stream Hl Hc Hv Hsave Hne)
    as (a1 & an & r0 & r1 & compSz & Hs1 & Hsn & Hw1 & Hwn & Hgood & Hopen & Hhead & Hat1
        & Hslice).
  destruct (values_sim h (content an) stream Hgood ts ds values Hty a1 an r1 Hw1 Hsn)
    as (rn & Hload & Hatn); [apply extends_refl|exact Hat1|].
  destruct Hatn as (x & rest' & Hbn & Hrn).
  assert (Hx : x = [] /\ rest' = []).
  { unfold content in Hbn. apply app_inv_head in Hbn.
    injection Hbn as Hx Hr. split; [|now symmetry].
    rewrite <- (app_nil_r (flush_src an)) in Hx at 1. apply app_inv_head in Hx.
    now symmetry. }
  destruct Hx as [-> ->].
  destruct Hrn as (_ & _ & _ & _ & [Hbb _] & Hd & pre & Hs & Hpos).
  cbn [encode_frames app] in Hs.
  assert (Hr : fread sizeof_size_t (l_stream_ rn)
               = (Some (size_t_bytes 0), fseek_set (l_stream_ rn) (len (pre ++ size_t_bytes 0)))).
  { apply (fread_at _ pre (size_t_bytes 0) []).
    - now rewrite Hd, Hs, app_nil_r.
    - exact Hpos.
    - reflexivity. }
  exists compSz. split.
  - unfold load_archive_file. rewrite Hopen. cbn [bind]. rewrite Hhead. cbn [bind].
    rewrite Hload. cbn [bind]. unfold Load_endBlock. rewrite Hbb, Hr.
    change (le_decode (size_t_bytes 0)) with 0. cbn [Z.eqb negb bind l_stream_].
    unfold fseek_set. rewrite Hd, <- Hs. reflexivity.
  - exact Hslice.
Qed.

End SavedThenLoaded.

(** X7: a truncated archive is never accepted: loading any proper prefix
    of the stream written by a whole save fails, with one of the
    exceptions raised when the stream ends too early (header, block, next
    block, or end marker missing). *)
Theorem truncated_archive_rejected {L : LZ4} {LC : LZ4Correct L} {K : KeyOrder}
  (h : list byte) (values : list value) (ts : list ty) (ds : list value)
  (stream : list byte) (k : nat) :
  len h = headSz -> head_compression h = 0 -> is_v10 h = false ->
  all_load_as ts ds values ->
  save_archive h values = Ok stream ->
  hd [] (payloads h values) <> [] ->
  (k < length stream)%nat ->
  exists f, load_archive (mkFile (firstn k stream) 0) ts ds = Fail f /\ io_error f.
Proof.
  intros Hl Hc Hv Hty Hsave Hne Hk.
  destruct (saved_archive_loads_file h values ts ds stream Hl Hc Hv Hty Hsave Hne)
    as (compSz & Hfull & Hslice).
  assert (Hrel : truncated_to k (mkFile stream 0) (mkFile (firstn k stream) 0)).
  { unfold truncated_to, file_end. cbn [f_pos f_data].
    pose proof (len_nonneg (firstn k stream)). auto with zarith. }
  assert (Hr : fread headSz (mkFile stream 0)
               = (Some (patched_header h compSz), fseek_set (mkFile stream 0) (0 + headSz))).
  { unfold load_archive_file, Load_initBlock in Hfull.
    destruct (fread headSz (mkFile stream 0)) as [[head|] f1] eqn:E; [|discriminate].
    apply fread_some in E. destruct E as (_ & _ & -> & ->). cbn [f_pos f_data].
    now rewrite Hslice. }
  assert (Hv' : is_v10 (patched_header h compSz) = false).
  { unfold is_v10 in *. now rewrite patched_header_signature. }
  pose proof (load_archive_file_rel (truncated_to k) True (fread_truncated k)
                _ _ _ _ ts ds Hrel Hr Hv') as H.
  rewrite Hfull in H. rewrite load_archive_of_file.
  destruct (load_archive_file (mkFile (firstn k stream) 0) ts ds) as [[x fend]|f];
    cbn [rel_result result_map] in *.
  - exfalso. destruct H as (_ & Hp & _ & Hin & Hd). cbn [snd f_pos f_data] in *.
    unfold file_end in Hin. rewrite Hd, Hp in Hin. unfold len in Hin.
    rewrite length_firstn in Hin. lia.
  - exists f. split; [reflexivity|apply H].
Qed.

Lemma truncated_archive_rejected_witness :
  exists f, load_archive (L := StoredLZ4)
              (mkFile (firstn 100 (stream_of header_v11 sample_values)) 0)
              sample_types sample_destinations = Fail f
            /\ io_error f.
Proof.
  apply (truncated_archive_rejected (L := StoredLZ4) (K := UnsignedKeys) header_v11
           sample_values sample_types sample_destinations
           (stream_of header_v11 sample_values) 100).
  - reflexivity.
  - reflexivity.
  - reflexivity.
  - exact sample_values_load_as.
  - apply stream_of_ok. vm_compute. reflexivity.
  - vm_compute. discriminate.
  - vm_compute. lia.
Defined.

(** ** Archives inside larger files *)

Lemma embedded_load {L : LZ4} {K : KeyOrder} pre s suf ts ds h xs fend :
  is_v10 (slice 0 headSz s) = false ->
  load_archive_file (mkFile s 0) ts ds = Ok (h, xs, fend) ->
  exists fend',
    load_archive_file (mkFile (pre ++ s ++ suf) (len pre)) ts ds = Ok (h, xs, fend')
    /\ embedded_in pre suf fend fend'.
Proof.
  intros Hv Hfull.
  assert (Hrel : embedded_in pre suf (mkFile s 0) (mkFile (pre ++ s ++ suf) (len pre))).
  { unfold embedded_in. cbn [f_pos f_data]. repeat split; lia. }
  assert (Hr : fread headSz (mkFile s 0)
               = (Some (slice 0 headSz s), fseek_set (mkFile s 0) (0 + headSz))).
  { unfold load_archive_file, Load_initBlock in Hfull.
    destruct (fread headSz (mkFile s 0)) as [[head|] f1] eqn:E; [|discriminate].
    apply fread_some in E. destruct E as (_ & _ & -> & ->). reflexivity. }
  pose proof (load_archive_file_rel (embedded_in pre suf) False (fread_embedded pre suf)
                _ _ _ _ ts ds Hrel Hr Hv) as H.
  rewrite Hfull in H.
  destruct (load_archive_file (mkFile (pre ++ s ++ suf) (len pre)) ts ds) as [[x fend']|f];
    cbn [rel_result] in H.
  - destruct H as [Hx Hf]. cbn [fst snd] in *. subst x. eauto.
  - destruct H as [[] _].
Qed.

(** X8: a current-format load does not depend on where the archive lies in
    the file: when it succeeds on a stream read from its start, it
    succeeds with the same header and values on any file that holds the
    same bytes between other data, once the file is positioned at their
    start; it consumes the same number of bytes. *)
Theorem load_position_independent {L : LZ4} {K : KeyOrder}
  (pre s suf : list byte) (ts : list ty) (ds : list value)
  (h : list byte) (xs : list value) (fend : FILE) :
  is_v10 (slice 0 headSz s) = false ->
  load_archive_file (mkFile s 0) ts ds = Ok (h, xs, fend) ->
  exists fend',
    load_archive_file (mkFile (pre ++ s ++ suf) (len pre)) ts ds = Ok (h, xs, fend')
    /\ f_pos fend' = len pre + f_pos fend
    /\ f_data fend' = pre ++ f_data fend ++ suf.
Proof.
  intros Hv Hfull.
  destruct (embedded_load pre s suf ts ds h xs fend Hv Hfull) as (fend' & H & Hd & Hp & _).
  exists fend'. auto.
Qed.

Lemma load_position_independent_witness :
  let s := stream_of header_v11 sample_values in
  exists fend',
    load_archive_file (L := StoredLZ4) (mkFile ([x2a; x2b] ++ s ++ [x2c]) 2)
      sample_types sample_destinations
    = Ok (patched_header header_v11 38, sample_values, fend')
    /\ f_pos fend' = 2 + len s.
Proof.
  cbv zeta.
  destruct (load_position_independent (L := StoredLZ4) (K := UnsignedKeys)
              [x2a; x2b] (stream_of header_v11 sample_values) [x2c]
              sample_types sample_destinations
              (patched_header header_v11 38) sample_values
              (mkFile (stream_of header_v11 sample_values)
                 (len (stream_of header_v11 sample_values))))
    as (fend' & H & Hp & _).
  - vm_compute. reflexivity.
  - vm_compute. reflexivity.
  - exists fend'. split; [exact H|exact Hp].
Defined.

(** X9: archives compose with the data around them: what a whole save
    appends to a stream that already holds [stream0] is loaded back, from
    the position where the save started and whatever follows in the file,
    as the header (patched) and the values saved; the load leaves the file
    positioned right behind the archive. *)
Theorem archive_between_data {L : LZ4} {LC : LZ4Correct L} {K : KeyOrder}
  (stream0 suf h : list byte) (values : list value) (ts : list ty) (ds : list value)
  (written : list byte) :
  len h = headSz -> head_compression h = 0 -> is_v10 h = false ->
  all_load_as ts ds values ->
  save_archive_on stream0 h values = Ok written ->
  hd [] (payloads h values) <> [] ->
  exists compSz,
    load_archive_file (mkFile (written ++ suf) (len stream0)) ts ds
    = Ok (patched_header h compSz, values, mkFile (written ++ suf) (len written)).
Proof.
  intros Hl Hc Hv Hty Hsave Hne.
  rewrite save_archive_on_app in Hsave.
  destruct (save_archive h values) as [out|] eqn:Hout; [|discriminate].
  cbn [result_map] in Hsave. injection Hsave as <-.
  destruct (saved_archive_loads_file h values ts ds out Hl Hc Hv Hty Hout Hne)
    as (compSz & Hfull & Hslice).
  assert (Hv' : is_v10 (slice 0 headSz out) = false).
  { rewrite Hslice. unfold is_v10 in *. now rewrite patched_header_signature. }
  destruct (embedded_load stream0 out suf ts ds _ _ _ Hv' Hfull)
    as (fend' & H & Hd & Hp & _).
  exists compSz. rewrite <- app_assoc, H. do 2 f_equal.
  destruct fend' as [d p]. cbn [f_data f_pos] in *. subst d p.
  now rewrite len_app.
Qed.

Lemma archive_between_data_witness :
  exists compSz,
    load_archive_file (L := StoredLZ4)
      (mkFile (([x2a; x2b] ++ stream_of header_v11 sample_values) ++ [x2c]) 2)
      sample_types sample_destinations
    = Ok (patched_header header_v11 compSz, sample_values,
          mkFile (([x2a; x2b] ++ stream_of header_v11 sample_values) ++ [x2c])
            (len ([x2a; x2b] ++ stream_of header_v11 sample_values))).
Proof.
  apply (archive_between_data (L := StoredLZ4) (K := UnsignedKeys) [x2a; x2b] [x2c]
           header_v11 sample_values sample_types sample_destinations).
  - reflexivity.
  - reflexivity.
  - reflexivity.
  - exact sample_values_load_as.
  - vm_compute. reflexivity.
  - vm_compute. discriminate.
Defined.

(** X10: a blob longer than a block never shares a block with what was
    saved before it.  [save_binary] flushes the active block as it is,
    cuts the blob into blocks of exactly BLOCK_BYTES bytes, each flushed
    in turn, and leaves the remainder, between 1 and BLOCK_BYTES bytes, as
    the content of the active block. *)
Theorem long_blob_blocks {L : LZ4} (a a' : SaveArchive) (bytes : list byte) :
  SaveInv a -> BLOCK_BYTES < len bytes ->
  save_binary bytes a = Ok a' ->
  exists full rest,
    bytes = concat full ++ rest
    /\ full <> []
    /\ Forall (fun b => len b = BLOCK_BYTES) full
    /\ 0 < len rest <= BLOCK_BYTES
    /\ lz4Stream a' = lz4Stream a ++ flush_src a :: full
    /\ flush_src a' = rest
    /\ offset_ a' = len rest.
Proof. exact (long_blob_cut a a' bytes). Qed.

Lemma long_blob_blocks_witness :
  let a := state_after header_v11 [VScalar [x01]] in
  let blob := repeat x07 (Z.to_nat (BLOCK_BYTES + 1)) in
  exists a' full rest,
    save_binary (L := StoredLZ4) blob a = Ok a'
    /\ blob = concat full ++ rest
    /\ lz4Stream a' = lz4Stream a ++ flush_src a :: full
    /\ flush_src a' = rest.
Proof.
  cbv zeta.
  assert (Hl : len (repeat x07 (Z.to_nat (BLOCK_BYTES + 1))) = BLOCK_BYTES + 1).
  { unfold len. rewrite repeat_length. apply Z2Nat.id. discriminate. }
  assert (Ha : SaveInv (state_after header_v11 [VScalar [x01]])).
  { unfold SaveInv. repeat split; try (vm_compute; congruence).
    all: vm_compute; reflexivity. }
  destruct (save_binary_total (L := StoredLZ4) (repeat x07 (Z.to_nat (BLOCK_BYTES + 1)))
              _ Ha) as (a' & H).
  destruct (long_blob_blocks (L := StoredLZ4) _ a' _ Ha ltac:(rewrite Hl; lia) H)
    as (full & rest & Hb & _ & _ & _ & Hz & Hs & _).
  exists a', full, rest. auto.
Defined.

(** ** The blocks hold the serialized bytes *)

Section Flat.
Context {L : LZ4}.

Lemma flat_stored a bytes :
  SaveInv a -> offset_ a + len bytes <= BLOCK_BYTES ->
  flat (store a (offset_ a) bytes (len bytes)) = flat a ++ bytes.
Proof.
  intros Ha Hfit. unfold flat, content.
  rewrite (flush_src_store a bytes Ha Hfit).
  change (lz4Stream (store a (offset_ a) bytes (len bytes))) with (lz4Stream a).
  rewrite !concat_app. cbn [concat]. now rewrite !app_nil_r, app_assoc.
Qed.

Lemma flat_flushed_stored a a1 bytes :
  flushBlock a = Ok a1 -> len bytes <= BLOCK_BYTES ->
  flat (store a1 (offset_ a1) bytes (len bytes)) = flat a ++ bytes.
Proof.
  intros Hf Hlen.
  destruct (flushed_then_stored a a1 bytes Hf Hlen _ eq_refl) as (Hz & Hs & _).
  unfold flat, content. rewrite Hz, Hs, !concat_app. cbn [concat].
  now rewrite !app_nil_r.
Qed.

Lemma flat_tail rest a a' :
  SaveInv a -> len rest <= BLOCK_BYTES ->
  (a2 <- (if offset_ a + len rest >? BLOCK_BYTES then flushBlock a else Ok a) ;;
   Ok (store a2 (offset_ a2) rest (len rest))) = Ok a' ->
  flat a' = flat a ++ rest.
Proof.
  intros Ha Hlen H. apply save_tail_cases in H.
  destruct H as [[Hfit ->]|(_ & a1 & Hf & ->)].
  - now apply flat_stored.
  - now apply flat_flushed_stored.
Qed.

Lemma flat_save bytes a a' :
  SaveInv a -> save bytes a = Ok a' -> flat a' = flat a ++ bytes.
Proof.
  intros Ha H. pose proof (save_cases bytes a a' H) as [Hlt _].
  unfold save in H. destruct (negb _); [discriminate|].
  apply (flat_tail bytes a a' Ha); [lia|exact H].
Qed.

Lemma flat_save_binary bytes a a' :
  SaveInv a -> save_binary bytes a = Ok a' -> flat a' = flat a ++ bytes.
Proof.
  intros Ha H. destruct (Z_le_gt_dec (len bytes) BLOCK_BYTES) as [Hle|Hgt].
  - unfold save_binary in H. inv_bind H. destruct x as [rest a1].
    destruct (loop_blocks _ bytes a rest a1 (le_n _) Ha E) as [(_ & -> & ->)|(Hlong & _)];
      [|lia].
    now apply (flat_tail bytes a a' Ha).
  - destruct (long_blob_cut a a' bytes Ha ltac:(lia) H)
      as (full & rest & Hb & _ & _ & _ & Hz & Hs & _).
    unfold flat, content. rewrite Hz, Hs, Hb.
    rewrite !concat_app. cbn [concat]. now rewrite !app_nil_r, <- !app_assoc.
Qed.

Lemma sink_value v : forall a a',
  SaveInv a -> save_value v a = Ok a' ->
  SaveInv a' /\ save_value (OA := ByteSink) v (flat a) = Ok (flat a').
Proof.
  assert (Hs : forall bytes a a', SaveInv a -> save bytes a = Ok a' ->
            SaveInv a' /\ ar_save (OutputArchive := ByteSink) bytes (flat a) = Ok (flat a')).
  { intros bytes a a' Ha H. pose proof (save_keeps bytes a Ha) as Hk. rewrite H in Hk.
    split; [exact Hk|]. cbn [ar_save ByteSink]. now rewrite (flat_save bytes a a' Ha H). }
  induction v as [bytes|n|elems IH|entries IH|p|bytes|fields IH] using value_ind;
    intros a a' Ha H.
  - now apply Hs.
  - now apply (Hs (int_bytes n)).
  - rewrite save_value_vector in *. inv_bind H.
    destruct (Hs _ _ _ Ha E) as [Hx Ex]. rewrite Ex. cbn [bind].
    clear E Ex Ha a. revert x Hx H.
    induction IH as [|v l Hv _ IHl]; intros a Ha H; cbn [save_values] in *.
    + injection H as <-. auto.
    + inv_bind H. destruct (Hv _ _ Ha E) as [Hx Ex]. rewrite Ex. cbn [bind]. now apply IHl.
  - rewrite save_value_map in *. inv_bind H.
    destruct (Hs _ _ _ Ha E) as [Hx Ex]. rewrite Ex. cbn [bind].
    clear E Ex Ha a. revert x Hx H.
    induction IH as [|[k v] l [Hk Hv] _ IHl]; intros a Ha H; cbn [save_entries] in *.
    + injection H as <-. auto.
    + cbn [fst snd] in *. inv_bind H. inv_bind H.
      destruct (Hk _ _ Ha E) as [Hx Ex]. rewrite Ex. cbn [bind].
      destruct (Hv _ _ Hx E0) as [Hx0 Ex0]. rewrite Ex0. cbn [bind]. now apply IHl.
  - cbn in H. injection H as <-. auto.
  - cbn [save_value] in *. pose proof (save_binary_keeps bytes a Ha) as Hk.
    cbn [ar_save_binary SaveArchive_output] in H. rewrite H in Hk.
    split; [exact Hk|]. cbn [ar_save_binary ByteSink].
    now rewrite (flat_save_binary bytes a a' Ha H).
  - rewrite save_value_struct in *.
    revert a Ha H.
    induction IH as [|v l Hv _ IHl]; intros a Ha H; cbn [save_values] in *.
    + injection H as <-. auto.
    + inv_bind H. destruct (Hv _ _ Ha E) as [Hx Ex]. rewrite Ex. cbn [bind]. now apply IHl.
Qed.

Lemma sink_values vs : forall a a',
  SaveInv a -> save_values vs a = Ok a' ->
  SaveInv a' /\ save_values (OA := ByteSink) vs (flat a) = Ok (flat a').
Proof.
  induction vs as [|v vs IH]; intros a a' Ha H; cbn [save_values] in *.
  - injection H as <-. auto.
  - inv_bind H. destruct (sink_value v _ _ Ha E) as [Hx Ex]. rewrite Ex. cbn [bind].
    now apply IH.
Qed.

End Flat.
Lemma good_frames_bounds {L : LZ4} blocks : forall hist,
  good_frames hist blocks -> Forall (fun b => len b <= BLOCK_BYTES) blocks.
Proof.
  induction blocks as [|b bs IH]; intros hist H; [constructor|].
  destruct H as (Hb & _ & Hbs). constructor; [exact Hb|]. now apply (IH (hist ++ [b])).
Qed.

(** X11: the layout of an archive.  The stream written by a whole save is
    the header (compression flag set, size of the first compressed block
    filled in), the first compressed block, then every further block
    behind its 8-byte length, then the zero sentinel.  There is at least
    one block, no block holds more than BLOCK_BYTES bytes, and the blocks,
    put end to end, are exactly the bytes handed to the archive for the
    values, in order: block boundaries carry no information. *)
Theorem archive_layout {L : LZ4} (h : list byte) (values : list value)
  (stream : list byte) :
  len h = headSz -> head_compression h = 0 ->
  save_archive h values = Ok stream ->
  let blocks := payloads h values in
  stream = stream_of_blocks h blocks ++ size_t_bytes 0
  /\ blocks <> []
  /\ Forall (fun b => len b <= BLOCK_BYTES) blocks
  /\ save_values (OA := ByteSink) values [] = Ok (concat blocks).
Proof.
  intros Hl Hc Hsave blocks.
  destruct (save_archive_stream h values stream Hl Hc Hsave)
    as (a1 & an & Hs1 & Hsn & Hw1 & Hwn & Hpay & Hgood & ->).
  destruct (header_saved_inv h Hl Hc) as (a1' & Hs1' & _ & Hz1 & Hsrc1 & _).
  rewrite Hs1 in Hs1'. injection Hs1' as <-.
  subst blocks. rewrite Hpay.
  split; [reflexivity|]. split; [unfold content; now destruct (lz4Stream an)|].
  split; [exact (good_frames_bounds _ _ Hgood)|].
  destruct (sink_values values a1 an (proj1 Hw1) Hsn) as [_ Hsink].
  assert (Hflat : flat a1 = []) by (unfold flat, content; rewrite Hz1, Hsrc1; reflexivity).
  rewrite Hflat in Hsink. exact Hsink.
Qed.

Lemma archive_layout_witness :
  let stream := stream_of (L := StoredLZ4) header_v11 sample_values in
  let blocks := payloads (L := StoredLZ4) header_v11 sample_values in
  stream = stream_of_blocks header_v11 blocks ++ size_t_bytes 0
  /\ save_values (OA := ByteSink) sample_values [] = Ok (concat blocks).
Proof.
  cbv zeta.
  destruct (archive_layout (L := StoredLZ4) header_v11 sample_values
              (stream_of header_v11 sample_values) eq_refl eq_refl)
    as (H1 & _ & _ & H2).
  - apply stream_of_ok. vm_compute. reflexivity.
  - split; [exact H1|exact H2].
Defined.

(** ** Values in a legacy file *)

Lemma sink_value_appends v s :
  exists e, save_value (OA := ByteSink) v s = Ok (s ++ e).
Proof.
  pose proof (save_value_keeps (OA := ByteSink) (fun s' => exists e, s' = s ++ e)
                (fun _ => True)) as H.
  specialize (H ltac:(intros bytes a [e ->]; exists (e ++ bytes); now rewrite app_assoc)
                ltac:(intros p a Ha; exact Ha)
                ltac:(intros bytes a [e ->]; exists (e ++ bytes); now rewrite app_assoc)
                v s ltac:(exists []; now rewrite app_nil_r)).
  destruct (save_value v s) as [s'|f]; cbn [keeps] in H.
  - destruct H as [e ->]. eauto.
  - exfalso. now apply H.
Qed.

Section LegacyValues.
Context {L : LZ4} {K : KeyOrder}.
Variable buf : list byte.

Lemma remaining_fits r x w :
  Remaining buf r (x ++ w) -> 0 <= ptr_ r /\ ptr_ r + len x <= len buf.
Proof.
  intros [(_ & _ & Hp & _) Hs]. split; [lia|].
  apply (f_equal (@len byte)) in Hs. rewrite len_skipn, len_app in Hs by lia.
  pose proof (len_nonneg w). lia.
Qed.

Lemma remaining_moved r r' x w :
  Remaining buf r (x ++ w) -> LegacyAt buf r' -> ptr_ r' = ptr_ r + len x ->
  slice (ptr_ r) (len x) buf = x /\ Remaining buf r' w.
Proof.
  intros Hr Ha' Hp'. destruct (remaining_fits r x w Hr) as [H0 Hfit].
  destruct Hr as [_ Hs]. pose proof (len_nonneg x). split.
  - unfold slice. rewrite Hs. unfold len. rewrite Nat2Z.id, firstn_app, firstn_all.
    rewrite Nat.sub_diag. cbn [firstn]. apply app_nil_r.
  - split; [exact Ha'|]. rewrite Hp', Z2Nat.inj_add, Nat.add_comm, <- skipn_skipn, Hs by lia.
    unfold len. rewrite Nat2Z.id, skipn_app, skipn_all, Nat.sub_diag. reflexivity.
Qed.

Lemma remaining_read r x w :
  Remaining buf r (x ++ w) ->
  exists r', load (len x) r = Ok (x, r') /\ Remaining buf r' w.
Proof.
  intros Hr. destruct (remaining_fits r x w Hr) as [H0 Hfit].
  destruct (legacy_read buf r (len x) (proj1 Hr) (len_nonneg x) Hfit) as (r' & Hl & Ha' & Hp').
  destruct (remaining_moved r r' x w Hr Ha' Hp') as [Hx Hr'].
  exists r'. rewrite Hl, Hx. auto.
Qed.

Lemma remaining_read_binary r x w :
  Remaining buf r (x ++ w) ->
  exists r', load_binary (len x) r = Ok (x, r') /\ Remaining buf r' w.
Proof.
  intros Hr. destruct (remaining_fits r x w Hr) as [H0 Hfit].
  destruct (legacy_read_binary buf r (len x) (proj1 Hr) (len_nonneg x) Hfit)
    as (r' & Hl & Ha' & Hp').
  destruct (remaining_moved r r' x w Hr Ha' Hp') as [Hx Hr'].
  exists r'. rewrite Hl, Hx. auto.
Qed.

(** Saving a size into the sink, then loading it. *)
Lemma legacy_size n e w r :
  0 <= n < SIZE_MAX1 ->
  Remaining buf r ((size_t_bytes n ++ e) ++ w) ->
  exists bytes r', load sizeof_size_t r = Ok (bytes, r') /\ le_decode bytes = n
                   /\ Remaining buf r' (e ++ w).
Proof.
  intros Hn Hr. rewrite <- app_assoc in Hr.
  destruct (remaining_read r _ _ Hr) as (r' & Hl & Hr').
  rewrite size_t_bytes_length in Hl. exists (size_t_bytes n), r'.
  split; [exact Hl|]. split; [now apply size_t_roundtrip|exact Hr'].
Qed.

End LegacyValues.
Lemma sink_values_append vs : forall s,
  exists e, save_values (OA := ByteSink) vs s = Ok (s ++ e).
Proof.
  induction vs as [|v vs IH]; intros s; cbn [save_values].
  - exists []. now rewrite app_nil_r.
  - destruct (sink_value_appends v s) as [e1 ->]. cbn [bind].
    destruct (IH (s ++ e1)) as [e2 ->]. exists (e1 ++ e2). now rewrite app_assoc.
Qed.

Lemma sink_entries_append es : forall s,
  exists e, save_entries (OA := ByteSink) es s = Ok (s ++ e).
Proof.
  induction es as [|[k x] es IH]; intros s; cbn [save_entries].
  - exists []. now rewrite app_nil_r.
  - destruct (sink_value_appends k s) as [e1 ->]. cbn [bind].
    destruct (sink_value_appends x (s ++ e1)) as [e2 ->]. cbn [bind].
    destruct (IH ((s ++ e1) ++ e2)) as [e3 ->]. exists (e1 ++ e2 ++ e3).
    now rewrite !app_assoc.
Qed.

(** The bytes of a sequence are those of its first value, then the rest. *)
Lemma sink_values_cons v vs s e :
  save_values (OA := ByteSink) (v :: vs) s = Ok (s ++ e) ->
  exists e1 e2,
    e = e1 ++ e2
    /\ save_value (OA := ByteSink) v s = Ok (s ++ e1)
    /\ save_values (OA := ByteSink) vs (s ++ e1) = Ok ((s ++ e1) ++ e2).
Proof.
  cbn [save_values]. destruct (sink_value_appends v s) as [e1 H1]. rewrite H1. cbn [bind].
  destruct (sink_values_append vs (s ++ e1)) as [e2 H2]. rewrite H2.
  intros E. injection E as E. rewrite <- app_assoc in E. apply app_inv_head in E.
  exists e1, e2. auto.
Qed.

Lemma sink_entries_cons k x es s e :
  save_entries (OA := ByteSink) ((k, x) :: es) s = Ok (s ++ e) ->
  exists e1 e2 e3,
    e = e1 ++ e2 ++ e3
    /\ save_value (OA := ByteSink) k s = Ok (s ++ e1)
    /\ save_value (OA := ByteSink) x (s ++ e1) = Ok ((s ++ e1) ++ e2)
    /\ save_entries (OA := ByteSink) es ((s ++ e1) ++ e2) = Ok (((s ++ e1) ++ e2) ++ e3).
Proof.
  cbn [save_entries]. destruct (sink_value_appends k s) as [e1 H1]. rewrite H1. cbn [bind].
  destruct (sink_value_appends x (s ++ e1)) as [e2 H2]. rewrite H2. cbn [bind].
  destruct (sink_entries_append es ((s ++ e1) ++ e2)) as [e3 H3]. rewrite H3.
  intros E. injection E as E. rewrite <- !app_assoc in E. apply app_inv_head in E.
  exists e1, e2, e3. auto.
Qed.

Section LegacySim.
Context {L : LZ4} {K : KeyOrder}.
Variable buf : list byte.

Lemma legacy_elems t (IH : legacy_sim_at buf t) : forall ds vs,
  Forall2 (loads_as t) ds vs ->
  forall s e w r,
    save_values (OA := ByteSink) vs s = Ok (s ++ e) ->
    Remaining buf r (e ++ w) ->
    exists r', load_elems t ds r = Ok (vs, r') /\ Remaining buf r' w.
Proof.
  induction 1 as [|d v ds vs Hdv _ IHl]; intros s e w r H Hr; cbn [load_elems].
  - cbn [save_values] in H. injection H as H.
    rewrite <- (app_nil_r s) in H at 1. apply app_inv_head in H. subst e. eauto.
  - destruct (sink_values_cons v vs s e H) as (e1 & e2 & -> & H1 & H2).
    rewrite <- app_assoc in Hr.
    destruct (IH d v s e1 _ r Hdv H1 Hr) as (r1 & Hl1 & Hr1).
    destruct (IHl _ e2 w r1 H2 Hr1) as (r' & Hl' & Hr').
    exists r'. rewrite Hl1. cbn [bind]. rewrite Hl'. cbn [bind]. auto.
Qed.

Lemma legacy_fields : forall ts, Forall (legacy_sim_at buf) ts ->
  forall ds vs, all_load_as ts ds vs ->
  forall s e w r,
    save_values (OA := ByteSink) vs s = Ok (s ++ e) ->
    Remaining buf r (e ++ w) ->
    exists r', load_values ts ds r = Ok (vs, r') /\ Remaining buf r' w.
Proof.
  induction 1 as [|t ts Ht _ IHl]; intros [|d ds] [|v vs] Hty s e w r H Hr;
    cbn [all_load_as load_values] in *; try contradiction.
  - cbn [save_values] in H. injection H as H.
    rewrite <- (app_nil_r s) in H at 1. apply app_inv_head in H. subst e. eauto.
  - destruct Hty as [Hdv Hty].
    destruct (sink_values_cons v vs s e H) as (e1 & e2 & -> & H1 & H2).
    rewrite <- app_assoc in Hr.
    destruct (Ht d v s e1 _ r Hdv H1 Hr) as (r1 & Hl1 & Hr1).
    destruct (IHl ds vs Hty _ e2 w r1 H2 Hr1) as (r' & Hl' & Hr').
    exists r'. rewrite Hl1. cbn [bind]. rewrite Hl'. cbn [bind]. auto.
Qed.

Lemma legacy_entries tk tv (IHk : legacy_sim_at buf tk) (IHv : legacy_sim_at buf tv) :
  forall es m,
  Forall (fun e => loads_as tk (default_value tk) (fst e)
                   /\ loads_as tv (default_value tv) (snd e)) es ->
  sorted_entries es ->
  Forall (fun e => Forall (fun e0 => key_lt (fst e0) (fst e) = true
                                     /\ key_lt (fst e) (fst e0) = false) m) es ->
  forall s e w r,
    save_entries (OA := ByteSink) es s = Ok (s ++ e) ->
    Remaining buf r (e ++ w) ->
    exists r', load_entries tk tv (length es) m r = Ok (m ++ es, r')
               /\ Remaining buf r' w.
Proof.
  induction es as [|[k x] es IHes]; intros m Hty Hsorted Habove s e w r H Hr;
    cbn [load_entries length].
  - cbn [save_entries] in H. injection H as H.
    rewrite <- (app_nil_r s) in H at 1. apply app_inv_head in H. subst e.
    rewrite app_nil_r. eauto.
  - destruct (sink_entries_cons k x es s e H) as (e1 & e2 & e3 & -> & H1 & H2 & H3).
    apply Forall_cons_iff in Hty. destruct Hty as [[Hk Hx] Hty]. cbn [fst snd] in *.
    apply Forall_cons_iff in Habove. destruct Habove as [Hm Habove]. cbn [fst] in Hm.
    destruct Hsorted as [Hlater Hsorted].
    rewrite <- !app_assoc in Hr.
    destruct (IHk _ k s e1 _ r Hk H1 Hr) as (r1 & Hl1 & Hr1).
    destruct (IHv _ x _ e2 _ r1 Hx H2 Hr1) as (r2 & Hl2 & Hr2).
    rewrite Hl1. cbn [bind]. rewrite Hl2. cbn [bind].
    rewrite (map_assign_above k x m Hm).
    destruct (IHes (m ++ [(k, x)]) Hty Hsorted) with (s := (s ++ e1) ++ e2) (e := e3)
      (w := w) (r := r2) as (r' & Hl' & Hr'); auto.
    + clear - Hlater Habove. induction es as [|e es IH]; [constructor|].
      apply Forall_cons_iff in Hlater. destruct Hlater as [He Hlater].
      apply Forall_cons_iff in Habove. destruct Habove as [Hme Habove].
      constructor; [|now apply IH].
      apply Forall_app. split; [exact Hme|]. constructor; [exact He|constructor].
    + exists r'. rewrite <- app_assoc in Hl'. auto.
Qed.

Lemma legacy_value t : legacy_sim_at buf t.
Proof.
  induction t as [size| |t IH|tk tv IHk IHv| | |fields IH] using ty_ind;
    intros d v s e w r Hty H Hr.
  - destruct v; try contradiction. cbn [loads_as] in Hty. subst size.
    cbn [save_value ar_save ar_save_pointer ar_save_binary ByteSink] in H. injection H as H. apply app_inv_head in H. subst e.
    destruct (remaining_read buf r _ _ Hr) as (r' & Hl & Hr').
    exists r'. cbn [load_value]. rewrite Hl. cbn [bind]. auto.
  - destruct v; try contradiction. cbn [loads_as] in Hty.
    cbn [save_value ar_save ar_save_pointer ar_save_binary ByteSink] in H. injection H as H. apply app_inv_head in H. subst e.
    destruct (remaining_read buf r _ _ Hr) as (r' & Hl & Hr').
    replace (len (int_bytes n)) with sizeof_int in Hl
      by (unfold int_bytes, len; now rewrite le_encode_length).
    exists r'. cbn [load_value]. rewrite Hl. cbn [bind]. now rewrite int_roundtrip.
  - destruct d; try contradiction; destruct v; try contradiction.
    cbn [loads_as] in Hty. destruct Hty as [Hlen Hall].
    rewrite save_value_vector in H. cbn [ar_save ByteSink bind] in H.
    destruct (sink_values_append elems0 (s ++ size_t_bytes (len elems0))) as [e2 H2].
    rewrite H2 in H. injection H as H. rewrite <- app_assoc in H.
    apply app_inv_head in H. subst e.
    destruct (legacy_size buf (len elems0) e2 w r) as (bytes & r1 & Hl1 & Hdec & Hr1);
      [pose proof (len_nonneg elems0); lia|exact Hr|].
    destruct (legacy_elems t IH _ _ Hall _ e2 w r1 H2 Hr1) as (r' & Hl' & Hr').
    exists r'. rewrite load_value_vector, Hl1. cbn [bind]. rewrite Hdec, Hl'.
    cbn [bind]. auto.
  - destruct d as [| | |old| | |]; try contradiction; destruct v; try contradiction;
      cbn [loads_as] in Hty; destruct old; try contradiction.
    destruct Hty as (Hlen & Hsorted & Hall).
    rewrite save_value_map in H. cbn [ar_save ByteSink bind] in H.
    destruct (sink_entries_append entries (s ++ size_t_bytes (len entries))) as [e2 H2].
    rewrite H2 in H. injection H as H. rewrite <- app_assoc in H.
    apply app_inv_head in H. subst e.
    destruct (legacy_size buf (len entries) e2 w r) as (bytes & r1 & Hl1 & Hdec & Hr1);
      [pose proof (len_nonneg entries); lia|exact Hr|].
    destruct (legacy_entries tk tv IHk IHv entries [] Hall Hsorted) with
      (s := s ++ size_t_bytes (len entries)) (e := e2) (w := w) (r := r1)
      as (r' & Hl' & Hr'); auto.
    + clear. induction entries; constructor; auto.
    + exists r'. rewrite load_value_map, Hl1. cbn [bind]. rewrite Hdec.
      unfold len. rewrite Nat2Z.id, Hl'. cbn [bind app]. auto.
  - destruct d; try contradiction; destruct v; try contradiction.
    cbn [loads_as] in Hty. subst. cbn [save_value ar_save ar_save_pointer ar_save_binary ByteSink] in H. injection H as H.
    rewrite <- (app_nil_r s) in H at 1. apply app_inv_head in H. subst e.
    exists r. split; [reflexivity|exact Hr].
  - destruct d; try contradiction; destruct v; try contradiction.
    cbn [loads_as] in Hty. cbn [save_value ar_save ar_save_pointer ar_save_binary ByteSink] in H. injection H as H. apply app_inv_head in H. subst e.
    destruct (remaining_read_binary buf r _ _ Hr) as (r' & Hl & Hr').
    exists r'. cbn [load_value]. rewrite Hty, Hl. cbn [bind]. auto.
  - destruct d; try contradiction; destruct v; try contradiction.
    apply loads_as_struct in Hty. rewrite save_value_struct in H.
    destruct (legacy_fields fields IH _ _ Hty s e w r H Hr) as (r' & Hl & Hr').
    exists r'. rewrite load_value_struct, Hl. cbn [bind]. auto.
Qed.

Lemma legacy_values ts ds vs :
  all_load_as ts ds vs ->
  forall s e w r,
    save_values (OA := ByteSink) vs s = Ok (s ++ e) ->
    Remaining buf r (e ++ w) ->
    exists r', load_values ts ds r = Ok (vs, r') /\ Remaining buf r' w.
Proof.
  apply legacy_fields. clear. induction ts; constructor; [apply legacy_value|assumption].
Qed.

End LegacySim.
(** X12: the legacy format holds the same serialized bytes as the blocks
    of the current one, in a single compressed body: a legacy file whose
    body decompresses to the bytes handed to an archive for a sequence of
    values loads as its header (unchanged) and these values. *)
Theorem legacy_values_loaded {L : LZ4} {K : KeyOrder}
  (pre head comp payload : list byte) (values : list value)
  (ts : list ty) (ds : list value) :
  len head = headSz -> is_v10 head = true -> head_compression head = 1 ->
  head_first_block_size head = headSz + len payload ->
  len (pre ++ head ++ comp) < SIZE_MAX1 ->
  LZ4_decompress_safe comp (len payload) = Some payload ->
  all_load_as ts ds values ->
  save_values (OA := ByteSink) values [] = Ok payload ->
  load_archive (file_at pre head comp) ts ds = Ok (head, values).
Proof.
  intros Hl Hv Hc Hfb Hsz Hdec Hty Hsink.
  destruct (legacy_open pre head comp payload Hl Hv Hc Hfb Hsz Hdec) as (a & Hopen & Ha & Hp).
  pose proof (len_nonneg payload) as Hy.
  destruct (legacy_read (head ++ payload) a headSz Ha) as (a1 & Hhead & Ha1 & Hp1);
    [consts; lia|rewrite Hp, len_app, Hl; lia|].
  rewrite Hp in Hhead, Hp1.
  rewrite slice_app_l, slice_0_all in Hhead by (rewrite ?Hl; consts; lia).
  assert (Hr1 : Remaining (head ++ payload) a1 (payload ++ [])).
  { split; [exact Ha1|]. rewrite Hp1, app_nil_r. cbn [Z.add].
    rewrite <- Hl. unfold len. rewrite Nat2Z.id, skipn_app, skipn_all, Nat.sub_diag.
    reflexivity. }
  destruct (legacy_values (head ++ payload) ts ds values Hty [] payload [] a1 Hsink Hr1)
    as (a2 & Hload & Ha2 & _).
  destruct (legacy_close (head ++ payload) a2 Ha2) as (a3 & Hclose & _).
  unfold load_archive. rewrite Hopen. cbn [bind]. rewrite Hhead. cbn [bind].
  rewrite Hload. cbn [bind]. rewrite Hclose. reflexivity.
Qed.

Lemma legacy_values_loaded_witness :
  let body := serialized sample_values in
  let head := legacy_header header_v10 body in
  load_archive (L := StoredLZ4) (file_at [x2a] head (x00 :: body))
    sample_types sample_destinations
  = Ok (head, sample_values).
Proof.
  cbv zeta.
  apply (legacy_values_loaded (L := StoredLZ4) (K := UnsignedKeys) [x2a]
           (legacy_header header_v10 (serialized sample_values))
           (x00 :: serialized sample_values) (serialized sample_values)).
  - vm_compute. reflexivity.
  - vm_compute. reflexivity.
  - vm_compute. reflexivity.
  - vm_compute. reflexivity.
  - vm_compute. reflexivity.
  - vm_compute. reflexivity.
  - exact sample_values_load_as.
  - vm_compute. reflexivity.
Defined.

(** ** A header with the compression flag set *)

Section FlagSetHeader.
Context {L : LZ4}.

Lemma flush_flag_set a : FlagSet a -> flushBlock a = Fail flag_set.
Proof.
  intros (Hf & Ho & Hr & Hc). unfold flushBlock. rewrite Hf.
  rewrite wrap64_small by (consts; lia).
  destruct (Z.ltb_spec (len (s_buffer_ a)) headSz); [lia|].
  destruct (Z.ltb_spec (len (s_buffer_ a)) (headSz + (offset_ a - headSz))); [lia|].
  cbn [orb]. destruct (Z.eqb_spec (head_compression (slice 0 headSz (s_buffer_ a))) 0);
    [contradiction|reflexivity].
Qed.

Lemma stops_bind (r : result SaveArchive) k :
  stops_at_flag r -> (forall a, FlagSet a -> stops_at_flag (k a)) ->
  stops_at_flag (bind r k).
Proof.
  intros [(a' & -> & Ha')| ->] Hk; cbn [bind]; [now apply Hk|now right].
Qed.

Lemma stops_tail rest a :
  FlagSet a -> len rest <= BLOCK_BYTES ->
  stops_at_flag
    (a2 <- (if offset_ a + len rest >? BLOCK_BYTES then flushBlock a else Ok a) ;;
     Ok (store a2 (offset_ a2) rest (len rest))).
Proof.
  intros Ha Hlen. destruct (Z.gtb_spec (offset_ a + len rest) BLOCK_BYTES) as [Hgt|Hle].
  - rewrite (flush_flag_set a Ha). now right.
  - cbn [bind]. left. eexists. split; [reflexivity|].
    destruct Ha as (Hf & Ho & Hr & Hc). unfold FlagSet, store.
    cbn [first_block_ offset_ s_buffer_]. pose proof (len_nonneg rest).
    rewrite Ho, memcpy_at_end, len_app. split; [exact Hf|]. split; [reflexivity|].
    split; [lia|]. rewrite slice_app_l by (consts; lia). exact Hc.
Qed.

Lemma stops_save bytes a :
  FlagSet a -> len bytes < BLOCK_BYTES -> stops_at_flag (save bytes a).
Proof.
  intros Ha Hlt. unfold save. destruct (Z.ltb_spec (len bytes) BLOCK_BYTES); [|lia].
  cbn [negb]. apply stops_tail; [exact Ha|lia].
Qed.

Lemma stops_save_binary bytes a : FlagSet a -> stops_at_flag (save_binary bytes a).
Proof.
  intros Ha. unfold save_binary.
  destruct (length bytes) as [|fuel] eqn:Hfuel; cbn [save_binary_loop].
  - destruct (Z.gtb_spec (len bytes) BLOCK_BYTES) as [Hgt|Hle].
    + unfold len in Hgt. rewrite Hfuel in Hgt. discriminate.
    + cbn [bind]. now apply stops_tail.
  - destruct (Z.gtb_spec (len bytes) BLOCK_BYTES) as [Hgt|Hle].
    + rewrite (flush_flag_set a Ha). now right.
    + cbn [bind]. now apply stops_tail.
Qed.

Lemma stops_value v : forall a,
  scalars_fit v = true -> FlagSet a -> stops_at_flag (save_value v a).
Proof.
  assert (Hsz : forall n a, FlagSet a -> stops_at_flag (save (size_t_bytes n) a)).
  { intros n a Ha. apply stops_save; [exact Ha|]. rewrite size_t_bytes_length. reflexivity. }
  induction v as [bytes|n|elems IH|entries IH|p|bytes|fields IH] using value_ind;
    intros a Hfit Ha; cbn [scalars_fit] in Hfit.
  - apply stops_save; [exact Ha|]. now apply Z.ltb_lt.
  - apply (stops_save (int_bytes n)); [exact Ha|].
    unfold int_bytes, len. rewrite le_encode_length. reflexivity.
  - rewrite save_value_vector. apply stops_bind; [now apply Hsz|].
    clear a Ha. induction IH as [|x l Hx _ IHl]; intros a Ha; cbn [save_values].
    + left. eauto.
    + cbn [forallb] in Hfit. apply andb_prop in Hfit. destruct Hfit as [Hfx Hfl].
      apply stops_bind; [now apply Hx|now apply IHl].
  - rewrite save_value_map. apply stops_bind; [now apply Hsz|].
    clear a Ha. induction IH as [|[k x] l [Hk Hx] _ IHl]; intros a Ha; cbn [save_entries].
    + left. eauto.
    + cbn [forallb fst snd] in *. apply andb_prop in Hfit. destruct Hfit as [Hfe Hfl].
      apply andb_prop in Hfe. destruct Hfe as [Hfk Hfx].
      apply stops_bind; [now apply Hk|]. intros a1 Ha1.
      apply stops_bind; [now apply Hx|now apply IHl].
  - left. exists a. auto.
  - now apply stops_save_binary.
  - rewrite save_value_struct.
    induction IH as [|x l Hx _ IHl] in a, Ha, Hfit |- *; cbn [save_values].
    + left. eauto.
    + cbn [forallb] in Hfit. apply andb_prop in Hfit. destruct Hfit as [Hfx Hfl].
      apply stops_bind; [now apply Hx|]. intros a1 Ha1. now apply IHl.
Qed.

Lemma stops_values vs : forall a,
  forallb scalars_fit vs = true -> FlagSet a -> stops_at_flag (save_values vs a).
Proof.
  induction vs as [|v vs IH]; intros a Hfit Ha; cbn [save_values].
  - left. eauto.
  - cbn [forallb] in Hfit. apply andb_prop in Hfit. destruct Hfit as [Hfv Hfl].
    apply stops_bind; [now apply stops_value|]. intros a1 Ha1. now apply IH.
Qed.

End FlagSetHeader.

(** X13: the compression field of the header saved first has to be zero:
    when it is not (as in a header that a load returned, where it is 1), a
    whole save of values whose scalars are smaller than a block always
    fails the assertion [head->compression == 0], at the first flush, which
    happens at destruction at the latest. *)
Theorem flagged_header_rejected {L : LZ4} (h : list byte) (values : list value) :
  len h = headSz -> head_compression h <> 0 ->
  forallb scalars_fit values = true ->
  save_archive h values = Fail flag_set.
Proof.
  intros Hl Hc Hfit. unfold save_archive, saved_after.
  assert (Hs : exists a1, save h (Save_initBlock []) = Ok a1 /\ FlagSet a1).
  { unfold save, Save_initBlock. rewrite Hl.
    change (negb (headSz <? BLOCK_BYTES)) with false. cbn [offset_].
    change (0 + headSz >? BLOCK_BYTES) with false. cbn [bind].
    eexists. split; [reflexivity|].
    unfold FlagSet, store, memcpy_at.
    cbn [s_buffer_ offset_ first_block_ Z.to_nat firstn app].
    rewrite Hl. split; [reflexivity|]. split; [reflexivity|]. split; [consts; lia|].
    rewrite slice_0_all by (symmetry; exact Hl). exact Hc. }
  destruct Hs as (a1 & -> & Ha1). cbn [bind].
  destruct (stops_values values a1 Hfit Ha1) as [(an & -> & Han)| ->]; cbn [bind].
  - unfold Save_close. now rewrite (flush_flag_set an Han).
  - reflexivity.
Qed.

Lemma flagged_header_rejected_witness :
  save_archive (L := StoredLZ4) (patched_header header_v11 38) sample_values
  = Fail flag_set.
Proof.
  apply (flagged_header_rejected (L := StoredLZ4) (patched_header header_v11 38)
           sample_values).
  - vm_compute. reflexivity.
  - vm_compute. discriminate.
  - vm_compute. reflexivity.
Defined.

(** ** The count of a SizeArchive *)

Lemma sink_value_length v : forall s s',
  save_value (OA := ByteSink) v s = Ok s' -> len s' = len s + encoded_size v.
Proof.
  intros s s' H.
  assert (G : True /\ len s' = len s + cost 0 v).
  { pose proof I as Ht. revert s s' Ht H.
    apply (save_value_account (OA := ByteSink) (fun _ => True)
             (fun n a a' => len a' = len a + n) 0).
    - intros; lia.
    - intros; lia.
    - intros bytes a a' _ E. cbn in E. injection E as <-. split; [exact I|apply len_app].
    - intros p a a' _ E. cbn in E. injection E as <-. split; [exact I|lia].
    - intros bytes a a' _ E. cbn in E. injection E as <-. split; [exact I|apply len_app]. }
  destruct G as [_ Hlen]. unfold cost in Hlen. lia.
Qed.

Lemma serialized_length vs : len (serialized vs) = total (map encoded_size vs).
Proof.
  unfold serialized.
  assert (H : forall s, exists s', save_values (OA := ByteSink) vs s = Ok s'
                                   /\ len s' = len s + total (map encoded_size vs)).
  { induction vs as [|v vs IH]; intros s; cbn [save_values map total fold_right].
    - exists s. split; [reflexivity|lia].
    - destruct (sink_value_appends v s) as [e1 H1]. rewrite H1. cbn [bind].
      apply sink_value_length in H1. destruct (IH (s ++ e1)) as (s' & -> & Hl).
      exists s'. split; [reflexivity|]. unfold total in *. lia. }
  destruct (H []) as (s' & -> & Hl). rewrite Hl. reflexivity.
Qed.

Lemma size_archive_values vs : forall s,
  0 <= size_ s < SIZE_MAX1 ->
  exists s', save_values vs s = Ok s'
             /\ 0 <= size_ s' < SIZE_MAX1
             /\ size_ s' = wrap64 (size_ s + total (map (cost sizeof_ptr) vs)).
Proof.
  induction vs as [|v vs IH]; intros s Hs; cbn [save_values map total fold_right].
  - exists s. split; [reflexivity|]. split; [exact Hs|].
    rewrite Z.add_0_r. symmetry. apply Z.mod_small. exact Hs.
  - destruct (size_archive_runs v s) as [s1 H1]. rewrite H1. cbn [bind].
    destruct (size_archive_total v s s1 Hs H1) as [Hr1 E1].
    destruct (IH s1 Hr1) as (s' & -> & Hr' & E'). exists s'.
    split; [reflexivity|]. split; [exact Hr'|]. rewrite E', E1. unfold total.
    rewrite wrap64_add_l. f_equal. lia.
Qed.

(** X14: a SizeArchive never fails, whatever the sizes of the values, and
    counts additively: after visiting a sequence of values from a count
    [c], [size()] is [c] plus the number of serialized bytes of the values
    plus 8 for every pointer-typed field, modulo 2^64; after [reset()] it
    counts like a new archive. *)
Theorem size_archive_counts (vs : list value) (s : SizeArchive) :
  0 <= size_ s < SIZE_MAX1 ->
  (exists s',
     save_values vs s = Ok s'
     /\ Size_size s'
        = wrap64 (Size_size s + len (serialized vs)
                  + sizeof_ptr * total (map pointer_fields vs)))
  /\ save_values vs (Size_reset s) = save_values vs SizeArchive_new.
Proof.
  intros Hs. split; [|reflexivity].
  destruct (size_archive_values vs s Hs) as (s' & H & _ & E).
  exists s'. split; [exact H|]. unfold Size_size. rewrite E, serialized_length. f_equal.
  rewrite <- Z.add_assoc. f_equal. clear. unfold cost.
  induction vs as [|v vs IH]; cbn [map total fold_right]; [lia|].
  unfold total in *. lia.
Qed.

Lemma size_archive_counts_witness :
  exists s',
    save_values [VScalar [x01; x02]; VPointer 7; VVector [VEnum 5]]
      {| size_ := 2 ^ 64 - 1 |} = Ok s'
    /\ Size_size s' = 21.
Proof.
  destruct (proj1 (size_archive_counts [VScalar [x01; x02]; VPointer 7; VVector [VEnum 5]]
                     {| size_ := 2 ^ 64 - 1 |} ltac:(vm_compute; split; congruence)))
    as (s' & H & E).
  exists s'. split; [exact H|]. rewrite E. vm_compute. reflexivity.
Defined.

(** ** The staging buffer of the writer *)

(** X15: the staging buffer of a SaveArchive is never overrun.  Every
    frame that a flush assembles in it (on the first flush the 80-byte
    header followed by the compressed block, later the 8-byte length
    followed by the compressed block) and then writes to the stream fits
    the LZ4_COMPRESSBOUND(BLOCK_BYTES) + sizeof(size_t) bytes allocated:
    the first block holds at most BLOCK_BYTES - 80 bytes of payload. *)
Theorem staging_buffer_suffices {L : LZ4} {LC : LZ4Correct L} (a a' : SaveArchive) :
  SaveInv a -> flushBlock a = Ok a' ->
  s_stream_ a' = s_stream_ a ++ flush_frame a
  /\ len (flush_frame a) <= staging_capacity
  /\ (first_block_ a = true -> len (flush_src a) <= BLOCK_BYTES - headSz).
Proof.
  intros Ha H. pose proof (flush_src_length a Ha) as Hlen.
  pose proof (len_nonneg (flush_src a)) as H0.
  apply flushBlock_ok in H. destruct H as [-> _]. cbn [s_stream_].
  split; [reflexivity|].
  pose proof (compress_worst_case (lz4Stream a) (flush_src a)
                (LZ4_COMPRESSBOUND BLOCK_BYTES)) as Hw.
  fold (flush_comp a) in Hw.
  destruct Ha as (Ho & Hr & Hf). unfold flush_frame, staging_capacity.
  rewrite bound_BLOCK_BYTES.
  assert (Hdiv : len (flush_src a) / 255 < 258).
  { apply Z.div_lt_upper_bound; [lia|]. destruct (first_block_ a); consts; lia. }
  destruct (first_block_ a).
  - destruct (Hf eq_refl) as [Hh _]. split; [|intros _; consts; lia].
    rewrite len_app, patched_header_length by (apply len_slice; consts; lia).
    consts. lia.
  - split; [|discriminate]. rewrite len_app, size_t_bytes_length. consts. lia.
Qed.

Lemma staging_buffer_suffices_witness :
  let a := state_after (L := StoredLZ4) header_v11 sample_values in
  len (flush_frame a) <= staging_capacity.
Proof.
  cbv zeta.
  refine (proj1 (proj2 (staging_buffer_suffices (L := StoredLZ4)
                          (state_after header_v11 sample_values)
                          (flushed (state_after header_v11 sample_values)) _ _))).
  - unfold SaveInv. repeat split; try (vm_compute; congruence).
    all: vm_compute; reflexivity.
  - vm_compute. reflexivity.
Defined.

(** ** A blob longer than a block, saved and loaded across block boundaries *)

Lemma save_archive_runs {L : LZ4} {LC : LZ4Correct L} h values :
  len h = headSz -> head_compression h = 0 ->
  forallb scalars_fit values = true ->
  exists stream, save_archive h values = Ok stream.
Proof.
  intros Hl Hc Hfit.
  destruct (save_header_inv h Hl Hc) as (a1 & Hs & Ha1 & _).
  pose proof (save_values_outcome values a1 Ha1) as Ho.
  rewrite Hfit in Ho. destruct Ho as (an & Hn & Han).
  unfold save_archive, saved_after. rewrite Hs. cbn [bind]. rewrite Hn. cbn [bind].
  unfold Save_close. destruct (flushBlock_total an Han) as (af & ->). cbn [bind]. eauto.
Qed.

(** A one-byte scalar and a blob saved after a header: the writer before
    and after the blob, and the reader that has loaded the scalar. *)
Lemma scalar_then_blob {L : LZ4} {LC : LZ4Correct L} {K : KeyOrder} h x blob :
  len h = headSz -> head_compression h = 0 -> is_v10 h = false ->
  let values := [VScalar [x]; VBinary blob] in
  let s := stream_of h values in
  let a := state_after h [VScalar [x]] in
  let a' := state_after h values in
  let r := reader_after s [TScalar 1] [VScalar [x00]] in
  WriterInv h a
  /\ good_frames [] (content a')
  /\ At h (content a') s a r
  /\ save_binary blob a = Ok a'
  /\ forall r', load_binary (len blob) r = Ok (blob, r') ->
                reader_after s [TScalar 1; TBinary] [VScalar [x00]; VBinary blob] = r'.
Proof.
  intros Hl Hc Hv values.
  destruct (save_archive_runs h values Hl Hc eq_refl) as (stream & Hsave).
  assert (Hs : stream_of h values = stream) by (unfold stream_of; now rewrite Hsave).
  assert (Hne : hd [] (payloads h values) <> []).
  { apply first_value_fits; [exact Hl|exact Hc|reflexivity|].
    change (is_ok (save_archive h values) = true). now rewrite Hsave. }
  destruct (archive_opened h values stream Hl Hc Hv Hsave Hne)
    as (a1 & an & r0 & r1 & compSz & Hs1 & Hsn & Hw1 & Hwn & Hgood & Hopen & Hhead & Hat1 & _).
  unfold values in Hsn. cbn [save_values] in Hsn. inv_bind Hsn. rename x0 into am.
  inv_bind Hsn. injection Hsn as ->.
  change (save_value (VBinary blob) am) with (save_binary blob am) in E0.
  pose proof (save_value_grows h _ a1 am Hw1 E) as G1.
  pose proof (save_binary_grows h blob am an (proj1 G1) E0) as G2.
  assert (Ea : state_after h [VScalar [x]] = am).
  { unfold state_after, saved_after. rewrite Hs1. cbn [bind save_values]. now rewrite E. }
  assert (Ea' : state_after h values = an).
  { unfold state_after, saved_after, values. rewrite Hs1. cbn [bind save_values].
    rewrite E. cbn [bind].
    change (save_value (VBinary blob) am) with (save_binary blob am). now rewrite E0. }
  assert (Hsv : save_values [VScalar [x]] a1 = Ok am)
    by (cbn [save_values]; now rewrite E).
  destruct (values_sim h (content an) stream Hgood [TScalar 1] [VScalar [x00]] [VScalar [x]]
              (conj eq_refl I) a1 am r1 Hw1 Hsv (proj2 G2) Hat1)
    as (rm & Hload & Hatm).
  assert (Er : reader_after stream [TScalar 1] [VScalar [x00]] = rm).
  { unfold reader_after. rewrite Hopen. cbn [bind]. rewrite Hhead. cbn [bind].
    now rewrite Hload. }
  cbv zeta. rewrite Hs, Ea, Ea', Er.
  split; [exact (proj1 G1)|]. split; [exact Hgood|]. split; [exact Hatm|].
  split; [exact E0|]. intros r' Hlb.
  unfold reader_after. rewrite Hopen. cbn [bind]. rewrite Hhead. cbn [bind].
  change (load_values [TScalar 1; TBinary] [VScalar [x00]; VBinary blob] r1)
    with (load_values ([TScalar 1] ++ [TBinary]) ([VScalar [x00]] ++ [VBinary blob]) r1).
  rewrite (load_values_app [TScalar 1] [VScalar [x00]] [TBinary] [VBinary blob]
             [VScalar [x]] r1 rm Hload).
  cbn [load_values load_value]. rewrite Hlb. reflexivity.
Qed.

Lemma chunking_agreement_witness :
  (let h := header_v11 in
   let before := [VScalar [x01; x02]] in
   let bytes := [x05; x06; x07] in
   let all := before ++ [VScalar bytes] in
   let s := stream_of h all in
   let a := state_after h before in
   let a' := state_after h all in
   let r := reader_after s [TScalar 2] [VScalar []] in
   let r' := reader_after s [TScalar 2; TScalar 3] [VScalar []; VScalar []] in
   save bytes a = Ok a'
   /\ placed_in_one_block a a' bytes
   /\ load (len bytes) r = Ok (bytes, r')
   /\ ptr_ r' = offset_ a')
  /\
  (let h := header_v11 in
   let blob := repeat x07 (Z.to_nat (BLOCK_BYTES + 1)) in
   let values := [VScalar [x01]; VBinary blob] in
   let s := stream_of (L := StoredLZ4) h values in
   let a := state_after (L := StoredLZ4) h [VScalar [x01]] in
   let a' := state_after (L := StoredLZ4) h values in
   let r := reader_after (L := StoredLZ4) s [TScalar 1] [VScalar [x00]] in
   let r' := reader_after (L := StoredLZ4) s [TScalar 1; TBinary] [VScalar [x00]; VBinary blob] in
   BLOCK_BYTES < len blob
   /\ save_binary blob a = Ok a'
   /\ cut_into_blocks a a' blob
   /\ load_binary (len blob) r = Ok (blob, r')
   /\ ptr_ r' = offset_ a'
   /\ (length (lz4StreamDecode r) + 2 <= length (lz4StreamDecode r'))%nat).
Proof.
  split.
  - cbv zeta.
    set (h := header_v11). set (bytes := [x05; x06; x07]).
    set (all := [VScalar [x01; x02]] ++ [VScalar bytes]).
    set (a := state_after h [VScalar [x01; x02]]). set (a' := state_after h all).
    set (s := stream_of h all). set (blocks := payloads h all).
    set (r := reader_after s [TScalar 2] [VScalar []]).
    assert (Hsave : save bytes a = Ok a') by by_computation.
    assert (Hw : WriterInv h a).
    { unfold WriterInv, SaveInv. repeat split; try by_computation.
      all: intros _; by_computation. }
    assert (Hgood : good_frames [] blocks).
    { repeat split; by_computation. }
    assert (Hext : extends (content a') blocks).
    { exists [], (flush_src a'), [], []. split; by_computation. }
    assert (Hat : At h blocks s a r).
    { exists bytes, []. split; [by_computation|].
      unfold ReaderAt, current_format. repeat split; try by_computation.
      exists (firstn (Z.to_nat (f_pos (l_stream_ r))) s). split; by_computation. }
    destruct (chunking_agreement h blocks s a a' r bytes Hw Hgood Hat Hext) as [Hs _].
    destruct (Hs Hsave) as (Hplaced & r' & Hload & Hfollow).
    split; [exact Hsave|]. split; [exact Hplaced|].
    assert (Hr' : load (len bytes) r
                  = Ok (bytes, reader_after s [TScalar 2; TScalar 3] [VScalar []; VScalar []]))
      by by_computation.
    split; [exact Hr'|]. by_computation.
  - cbv zeta. set (blob := repeat x07 (Z.to_nat (BLOCK_BYTES + 1))).
    assert (Hlong : BLOCK_BYTES < len blob).
    { unfold blob, len. rewrite repeat_length, Z2Nat.id by discriminate. lia. }
    destruct (scalar_then_blob (L := StoredLZ4) (K := UnsignedKeys) header_v11 x01 blob
                eq_refl eq_refl eq_refl) as (Hw & Hgood & Hat & Hsave & Hafter).
    destruct (proj2 (chunking_agreement (L := StoredLZ4) _ _ _ _ _ _ blob
                       Hw Hgood Hat (extends_refl _ _)) Hsave)
      as (_ & _ & Hcut & r1 & Hlb & Hfollow).
    specialize (Hcut Hlong). rewrite (Hafter r1 Hlb).
    destruct Hfollow as (_ & _ & Hp' & Hn).
    split; [exact Hlong|]. split; [exact Hsave|]. split; [exact Hcut|].
    split; [exact Hlb|]. split; [exact Hp'|].
    destruct Hcut as (full & rest & _ & Hfull & _ & _ & Hz & _).
    rewrite Hn, Hz, length_app. cbn [length].
    destruct full as [|b full]; [exfalso; apply Hfull; reflexivity|].
    cbn [length]. generalize (length (lz4StreamDecode
      (reader_after (stream_of header_v11 [VScalar [x01]; VBinary blob])
         [TScalar 1] [VScalar [x00]]))).
    generalize (length (lz4Stream (state_after header_v11 [VScalar [x01]]))).
    generalize (length full). clear. intros. lia.
Defined.
